(** * Graph ETL and recommendation queries: a shallow embedding

    The development embeds the two programs of the repository:

    - [src/app/etl.py]: the loading phase of [etl()], which upserts the six
      extracted data frames into the property graph, one Cypher statement
      per row;
    - [src/app/main.py]: the read endpoints whose Cypher queries rank
      products (listing, collaborative, content based, popularity,
      frequently bought together).

    The graph store is modelled as the two sequences Neo4j keeps: nodes and
    relationships, each identified by its position (the internal identity),
    never deleted.  A Cypher statement is a function on that store, written
    clause by clause. *)

From Stdlib Require Import ZArith QArith Ascii String.
From stdpp Require Import base tactics option list strings numbers sorting.

Local Open Scope string_scope.
Local Open Scope list_scope.
Local Open Scope Z_scope.

(** ** Values *)

(** The natural identifier of an entity, as the relational source carries
    it: an integer or a text column. *)
Inductive Key :=
  | KInt (z : Z)
  | KStr (s : string).

Global Instance Key_eq_dec : EqDecision Key.
Proof. solve_decision. Defined.

(** A Python/Neo4j float: pandas reads a NUMERIC column as float64 and a
    NULL in it as NaN. *)
Inductive float :=
  | FNum (q : Q)
  | FNaN.

(** Calendar dates and instants are kept abstract: a day number and a
    number of microseconds.  Neither program computes on them. *)
Definition Date := Z.
Definition Timestamp := Z.

(** A cell of a column that pandas has typed as [datetime64]: an instant,
    or [NaT] where the table has NULL. *)
Inductive Datetime64 :=
  | Stamp (t : Timestamp)
  | NaT.

(** A cell of an integer column: the integer, or [NaN] where the table has
    NULL (pandas then holds the column as [float64]). *)
Inductive Int64 :=
  | IntOf (z : Z)
  | IntNaN.

Inductive Label := Category | Product | Customer | Order.

Global Instance Label_eq_dec : EqDecision Label.
Proof. solve_decision. Defined.

(** ** The property graph *)

(** A node carries one label, the [id] property it was merged on, and the
    properties the loader sets; [None] is an absent (null) property. *)
Record Node := mkNode {
  nlabel : Label;
  nid : Key;
  nname : option string;
  nprice : option float;
  njoin_date : option Date;
  nts : option Timestamp
}.

(** A relationship joins two node positions; its type is free text because
    the event loader builds it from data. *)
Record Rel := mkRel {
  rsrc : nat;
  rtype : string;
  rdst : nat;
  rquantity : option Z;
  rts : option Timestamp
}.

Record Graph := mkGraph {
  nodes : list Node;
  rels : list Rel
}.

Definition empty_graph : Graph := mkGraph [] [].

Definition new_node (l : Label) (k : Key) : Node :=
  mkNode l k None None None None.

Definition new_rel (s : nat) (t : string) (d : nat) : Rel :=
  mkRel s t d None None.

Definition set_nname (v : option string) (n : Node) : Node :=
  mkNode (nlabel n) (nid n) v (nprice n) (njoin_date n) (nts n).
Definition set_nprice (v : option float) (n : Node) : Node :=
  mkNode (nlabel n) (nid n) (nname n) v (njoin_date n) (nts n).
Definition set_njoin_date (v : option Date) (n : Node) : Node :=
  mkNode (nlabel n) (nid n) (nname n) (nprice n) v (nts n).
Definition set_nts (v : option Timestamp) (n : Node) : Node :=
  mkNode (nlabel n) (nid n) (nname n) (nprice n) (njoin_date n) v.
Definition set_rquantity (v : option Z) (r : Rel) : Rel :=
  mkRel (rsrc r) (rtype r) (rdst r) v (rts r).
Definition set_rts (v : option Timestamp) (r : Rel) : Rel :=
  mkRel (rsrc r) (rtype r) (rdst r) (rquantity r) v.

(** ** Cypher clauses *)

(** Positions of the elements satisfying [p], in store order. *)
Fixpoint positions {A} (p : A → bool) (i : nat) (l : list A) : list nat :=
  match l with
  | [] => []
  | x :: l' => if p x then i :: positions p (S i) l' else positions p (S i) l'
  end.

Definition has_label_id (l : Label) (k : Key) (n : Node) : bool :=
  bool_decide (nlabel n = l ∧ nid n = k).

Definition is_rel (s : nat) (t : string) (d : nat) (r : Rel) : bool :=
  bool_decide (rsrc r = s ∧ rtype r = t ∧ rdst r = d).

(** [MATCH (v:l {id: k})]. *)
Definition match_node (l : Label) (k : Key) (g : Graph) : list nat :=
  positions (has_label_id l k) 0%nat (nodes g).

(** [MATCH (v:l {id: $param})] with a parameter that may be null: a null
    never equals anything, so nothing matches. *)
Definition match_node_param (l : Label) (k : option Key) (g : Graph)
  : list nat :=
  match k with
  | Some k => match_node l k g
  | None => []
  end.

(** [MERGE (v:l {id: k})]: bind every matching node, or create one. *)
Definition merge_node (l : Label) (k : Key) (g : Graph) : Graph * list nat :=
  match match_node l k g with
  | [] => (mkGraph (nodes g ++ [new_node l k]) (rels g), [length (nodes g)])
  | ms => (g, ms)
  end.

(** [SET v.prop = ...] on one bound node. *)
Definition set_node (f : Node → Node) (g : Graph) (i : nat) : Graph :=
  mkGraph (alter f i (nodes g)) (rels g).

Definition set_rel (f : Rel → Rel) (g : Graph) (i : nat) : Graph :=
  mkGraph (nodes g) (alter f i (rels g)).

(** [MERGE (s)-[r:t]->(d)] for bound [s] and [d]. *)
Definition merge_rel (t : string) (g : Graph) (sd : nat * nat)
  : Graph * list nat :=
  match positions (is_rel sd.1 t sd.2) 0%nat (rels g) with
  | [] => (mkGraph (nodes g) (rels g ++ [new_rel sd.1 t sd.2]),
           [length (rels g)])
  | ms => (g, ms)
  end.

(** [MERGE (s)-[r:t]->(d) SET r...] run for every incoming row: each row
    sees what the rows before it created. *)
Definition merge_rel_set (t : string) (f : Rel → Rel) (g : Graph)
    (sd : nat * nat) : Graph :=
  let '(g1, rs) := merge_rel t g sd in foldl (set_rel f) g1 rs.

(** The rows of two consecutive [MATCH] clauses: their product. *)
Definition cross (xs ys : list nat) : list (nat * nat) :=
  x ← xs; y ← ys; [(x, y)].

(** ** Source rows *)

(** One record per relational table, with the cells as pandas hands them
    over.  In a column of text, keys or dates a NULL is [None].  A column
    of timestamps or integers is typed when it has at least one value, and
    a NULL in it is [NaT] or [NaN]; when every row is NULL the column
    stays untyped and its cells are [None]. *)
Record CategoryRow := mkCategoryRow {
  cat_id : option Key;
  cat_name : option string
}.

Record ProductRow := mkProductRow {
  prod_id : option Key;
  prod_name : option string;
  prod_price : option float;
  prod_category_id : option Key
}.

Record CustomerRow := mkCustomerRow {
  cust_id : option Key;
  cust_name : option string;
  cust_join_date : option Date
}.

Record OrderRow := mkOrderRow {
  ord_id : option Key;
  ord_customer_id : option Key;
  ord_ts : option Datetime64
}.

Record OrderItemRow := mkOrderItemRow {
  oi_order_id : option Key;
  oi_product_id : option Key;
  oi_quantity : option Int64
}.

Record EventRow := mkEventRow {
  ev_customer_id : option Key;
  ev_product_id : option Key;
  ev_event_type : option string;
  ev_ts : option Datetime64
}.

Record Source := mkSource {
  categories_df : list CategoryRow;
  products_df : list ProductRow;
  customers_df : list CustomerRow;
  orders_df : list OrderRow;
  order_items_df : list OrderItemRow;
  events_df : list EventRow
}.

(** ** Exceptions and the statement monad *)

Inductive Exn :=
  | TypeError
  | ValueError
  | AttributeError
  | CypherSyntaxError
  | ClientError.

Global Instance Exn_eq_dec : EqDecision Exn.
Proof. solve_decision. Defined.

(** The outcome of evaluating an expression or a statement. *)
Definition Result (A : Type) : Type := Exn + A.

Definition raise {A} (e : Exn) : Result A := inl e.

Global Instance Result_ret : MRet Result := λ A x, inr x.
Global Instance Result_bind : MBind Result := λ A B f m,
  match m with
  | inl e => inl e
  | inr a => f a
  end.
Global Instance Result_fmap : FMap Result := λ A B f m,
  match m with
  | inl e => inl e
  | inr a => inr (f a)
  end.

(** [MERGE] refuses a null property value. *)
Definition merge_key (k : option Key) : Result Key :=
  match k with
  | Some k => inr k
  | None => raise ClientError
  end.

(** [row['ts'].isoformat()]: a timestamp prints as ISO-8601 text and
    [NaT] as the text NaT; the text is kept as the cell it prints.  [None]
    has no such method. *)
Definition isoformat (ts : option Datetime64) : Result Datetime64 :=
  match ts with
  | Some t => inr t
  | None => raise AttributeError
  end.

(** Cypher's [datetime($ts)]: ISO-8601 text parses back to its instant;
    the text NaT is rejected. *)
Definition cypher_datetime (iso : Datetime64) : Result Timestamp :=
  match iso with
  | Stamp t => inr t
  | NaT => raise ClientError
  end.

(** [str(row['join_date'])] followed by Cypher's [date($join_date)]: a NULL
    date prints as the text None, which [date] rejects. *)
Definition cypher_date (d : option Date) : Result Date :=
  match d with
  | Some d => inr d
  | None => raise ClientError
  end.

(** [int(row['quantity'])]: [int] cannot convert [NaN] and does not take
    [None]. *)
Definition py_int (q : option Int64) : Result Z :=
  match q with
  | Some (IntOf z) => inr z
  | Some IntNaN => raise ValueError
  | None => raise TypeError
  end.

(** [str.upper()] on text of ASCII characters: the letters [a] to [z]
    become [A] to [Z].  Characters outside ASCII are left as they are
    here, which is not what Python does with all of them; the event
    statement is modelled for ASCII names only (see [is_symbolic_name]). *)
Definition upper_ascii (c : ascii) : ascii :=
  let n := nat_of_ascii c in
  if (Nat.leb 97 n && Nat.leb n 122)%bool then ascii_of_nat (n - 32) else c.

Fixpoint upper (s : string) : string :=
  match s with
  | EmptyString => EmptyString
  | String c s' => String (upper_ascii c) (upper s')
  end.

(** [row['event_type'].upper()]: [None] has no such method. *)
Definition py_upper (s : option string) : Result string :=
  match s with
  | Some s => inr (upper s)
  | None => raise AttributeError
  end.

(** The text spliced after [r:] in the event statement has to be a plain
    Cypher name for the statement to be the one written in the source:
    an ASCII letter or underscore followed by ASCII letters, digits and
    underscores.  The source splices whatever text it is given; with
    another text the statement sent is another statement, which is not
    modelled: the model stops the run there, as the parser does on most
    such texts.  What is proved of event rows is therefore stated for
    rows whose type is a plain name. *)
Definition is_name_start (c : ascii) : bool :=
  let n := nat_of_ascii c in
  ((Nat.leb 65 n && Nat.leb n 90) || (Nat.leb 97 n && Nat.leb n 122)
   || Nat.eqb n 95)%bool.

Definition is_name_part (c : ascii) : bool :=
  let n := nat_of_ascii c in
  (is_name_start c || (Nat.leb 48 n && Nat.leb n 57))%bool.

Fixpoint all_name_part (s : string) : bool :=
  match s with
  | EmptyString => true
  | String c s' => (is_name_part c && all_name_part s')%bool
  end.

Definition is_symbolic_name (s : string) : bool :=
  match s with
  | EmptyString => false
  | String c s' => (is_name_start c && all_name_part s')%bool
  end.

Definition splice_rel_type (t : string) : Result string :=
  if is_symbolic_name t then inr t else raise CypherSyntaxError.

(** [float(x)]: a float is returned as it is; [None] has no float value. *)
Definition py_float (x : option float) : Result float :=
  match x with
  | Some f => inr f
  | None => raise TypeError
  end.

(** ** The loader's statements ([etl.py], one per entity set)

    Each is the function on the store that [run_cypher] applies for one
    row.  The Python expressions of the loop body are evaluated first; the
    expressions of the statement are evaluated by the clause they stand
    in, for the rows that reach it.  A statement that raises leaves the
    store as it was (the auto-commit transaction is rolled back). *)

(** [MERGE (c:Category {id: $id}) SET c.name = $name] *)
Definition merge_category (row : CategoryRow) (g : Graph) : Result Graph :=
  id ← merge_key (cat_id row);
  let '(g1, cs) := merge_node Category id g in
  mret (foldl (set_node (set_nname (cat_name row))) g1 cs).

(** [MERGE (p:Product {id: $id}) SET p.name = $name, p.price = $price
     WITH p MATCH (c:Category {id: $category_id})
     MERGE (p)-[:IN_CATEGORY]->(c)] *)
Definition merge_product (row : ProductRow) (g : Graph) : Result Graph :=
  price ← py_float (prod_price row);
  id ← merge_key (prod_id row);
  let '(g1, ps) := merge_node Product id g in
  let g2 :=
    foldl (set_node (set_nprice (Some price) ∘ set_nname (prod_name row)))
          g1 ps in
  let cs := match_node_param Category (prod_category_id row) g2 in
  mret (foldl (λ g pc, (merge_rel "IN_CATEGORY" g pc).1) g2 (cross ps cs)).

(** [MERGE (c:Customer {id: $id})
     SET c.name = $name, c.join_date = date($join_date)] *)
Definition merge_customer (row : CustomerRow) (g : Graph) : Result Graph :=
  id ← merge_key (cust_id row);
  join_date ← cypher_date (cust_join_date row);
  let '(g1, cs) := merge_node Customer id g in
  mret (foldl (set_node (set_njoin_date (Some join_date)
                         ∘ set_nname (cust_name row))) g1 cs).

(** [MERGE (o:Order {id: $id}) SET o.ts = datetime($ts)
     WITH o MATCH (c:Customer {id: $customer_id})
     MERGE (c)-[:PLACED]->(o)] *)
Definition merge_order (row : OrderRow) (g : Graph) : Result Graph :=
  ts_iso ← isoformat (ord_ts row);
  id ← merge_key (ord_id row);
  ts ← cypher_datetime ts_iso;
  let '(g1, os) := merge_node Order id g in
  let g2 := foldl (set_node (set_nts (Some ts))) g1 os in
  let cs := match_node_param Customer (ord_customer_id row) g2 in
  mret (foldl (λ g co, (merge_rel "PLACED" g co).1) g2
              (prod_swap <$> cross os cs)).

(** [MATCH (o:Order {id: $order_id}) MATCH (p:Product {id: $product_id})
     MERGE (o)-[r:CONTAINS]->(p) SET r.quantity = $quantity] *)
Definition merge_order_item (row : OrderItemRow) (g : Graph)
  : Result Graph :=
  quantity ← py_int (oi_quantity row);
  let os := match_node_param Order (oi_order_id row) g in
  let ps := match_node_param Product (oi_product_id row) g in
  mret (foldl (merge_rel_set "CONTAINS" (set_rquantity (Some quantity)))
              g (cross os ps)).

(** [event_type = row['event_type'].upper(); rel_type = event_type;
     ts_iso = row['ts'].isoformat()]
    [MATCH (c:Customer {id: $customer_id})
     MATCH (p:Product {id: $product_id})
     MERGE (c)-[r:{rel_type}]->(p) SET r.ts = datetime($ts)]
    [datetime($ts)] stands in the last clause: when the two [MATCH]
    clauses give no row it is not evaluated. *)
Definition merge_event (row : EventRow) (g : Graph) : Result Graph :=
  event_type ← py_upper (ev_event_type row);
  let rel_type := event_type in
  ts_iso ← isoformat (ev_ts row);
  label ← splice_rel_type rel_type;
  let cs := match_node_param Customer (ev_customer_id row) g in
  let ps := match_node_param Product (ev_product_id row) g in
  match cross cs ps with
  | [] => mret g
  | rows =>
      ts ← cypher_datetime ts_iso;
      mret (foldl (merge_rel_set label (set_rts (Some ts))) g rows)
  end.

(** ** The loading phase of [etl()] *)

(** What a run can be observed to do: the store and the lines printed. *)
Record World := mkWorld {
  graph : Graph;
  stdout : list string
}.

(** A Python computation: it changes the world and returns or raises. *)
Definition Py (A : Type) : Type := World → World * Result A.

Global Instance Py_ret : MRet Py := λ A x w, (w, inr x).
Global Instance Py_bind : MBind Py := λ A B f m w,
  match m w with
  | (w', inl e) => (w', inl e)
  | (w', inr a) => f a w'
  end.

Definition print (line : string) : Py unit := λ w,
  (mkWorld (graph w) (stdout w ++ [line]), inr ()).

(** [run_cypher(driver, query, params)]: no [try] around it, so what the
    statement raises is raised to the caller. *)
Definition run_cypher (stmt : Graph → Result Graph) : Py unit := λ w,
  match stmt (graph w) with
  | inl e => (w, inl e)
  | inr g' => (mkWorld g' (stdout w), inr ())
  end.

(** [for _, row in df.iterrows(): body] *)
Fixpoint for_each {A} (rows : list A) (body : A → Py unit) : Py unit :=
  match rows with
  | [] => mret ()
  | row :: rows' => body row ;; for_each rows' body
  end.

(** Block 3 of [etl()], from its banner to the closing message.  The
    blocks before it wait for the stores, run the schema file and read the
    six frames, which are the [Source] here. *)
Definition etl (src : Source) : Py unit :=
  print "" ;; print "Loading data into Neo4j..." ;;
  print "Loading Categories..." ;;
  for_each (categories_df src) (λ row, run_cypher (merge_category row)) ;;
  print "Loading Products..." ;;
  for_each (products_df src) (λ row, run_cypher (merge_product row)) ;;
  print "Loading Customers..." ;;
  for_each (customers_df src) (λ row, run_cypher (merge_customer row)) ;;
  print "Loading Orders..." ;;
  for_each (orders_df src) (λ row, run_cypher (merge_order row)) ;;
  print "Loading Order Items..." ;;
  for_each (order_items_df src) (λ row, run_cypher (merge_order_item row)) ;;
  print "Loading Events..." ;;
  for_each (events_df src) (λ row, run_cypher (merge_event row)) ;;
  print "" ;; print "ETL done !".

(** A run against a store, with an empty terminal. *)
Definition run_etl (src : Source) (g : Graph) : World * Result unit :=
  etl src (mkWorld g []).

(** ** Reading the graph ([main.py]) *)

Global Instance Node_inhabited : Inhabited Node :=
  populate (new_node Category (KInt 0)).

(** The node bound to a row variable. *)
Definition node (g : Graph) (i : nat) : Node := nodes g !!! i.

Definition has_label (g : Graph) (l : Label) (i : nat) : bool :=
  match nodes g !! i with
  | Some n => bool_decide (nlabel n = l)
  | None => false
  end.

(** [MATCH (v:l)]: every node with the label, in store order. *)
Definition labelled (g : Graph) (l : Label) : list nat :=
  positions (λ n, bool_decide (nlabel n = l)) 0%nat (nodes g).

(** [(a)-[r:t]->(b:l)] from a bound [a]: the relationships and their end
    nodes, in store order. *)
Definition expand_out (g : Graph) (t : string) (l : Label) (a : nat)
  : list (nat * nat) :=
  omap id (imap (λ r x,
    if (bool_decide (rsrc x = a ∧ rtype x = t) && has_label g l (rdst x))%bool
    then Some (r, rdst x) else None) (rels g)).

(** [(b)<-[r:t]-(a:l)] from a bound [b]. *)
Definition expand_in (g : Graph) (t : string) (l : Label) (b : nat)
  : list (nat * nat) :=
  omap id (imap (λ r x,
    if (bool_decide (rdst x = b ∧ rtype x = t) && has_label g l (rsrc x))%bool
    then Some (r, rsrc x) else None) (rels g)).

(** [(c)-[:PLACED]->(:Order)-[:CONTAINS]->(p:Product)] from a bound [c]:
    one product per path. *)
Definition purchases (g : Graph) (c : nat) : list nat :=
  o ← expand_out g "PLACED" Order c;
  p ← expand_out g "CONTAINS" Product o.2;
  [p.2].

(** The values of a list without repetition, in order of first
    occurrence: [DISTINCT], and the grouping keys of an aggregation. *)
Fixpoint distinct `{EqDecision A} (l : list A) : list A :=
  match l with
  | [] => []
  | x :: l' => x :: filter (λ y, y ≠ x) (distinct l')
  end.

(** [WITH key, aggregate(...)]: one group per distinct key, with the rows
    that carry it. *)
Definition group_by `{EqDecision K} {A} (key : A → K) (rows : list A)
  : list (K * list A) :=
  (λ k, (k, filter (λ a, key a = k) rows)) <$> distinct (key <$> rows).

(** [WITH key, agg(...)]: the aggregate of each group. *)
Definition aggregate `{EqDecision K} {A B} (key : A → K) (agg : list A → B)
    (rows : list A) : list (K * B) :=
  (λ grp : K * list A, (grp.1, agg grp.2)) <$> group_by key rows.

(** [count(DISTINCT x)] *)
Definition count_distinct `{EqDecision A} (l : list A) : Z :=
  Z.of_nat (length (distinct l)).

(** [ORDER BY]: Cypher orders the rows by the sort key and by nothing
    else; rows whose keys are equal come in an order the database is free
    to choose.  An [OrderBy] is one way of ordering rows: any
    rearrangement in which each row may stand before all the rows after
    it.  The queries below are written for an arbitrary one, so that what
    is proved of them holds whatever the database does with ties. *)
Class OrderBy := {
  order_by : ∀ {A : Type}, (A → A → bool) → list A → list A;
  order_by_Permutation : ∀ (A : Type) (before : A → A → bool) (l : list A),
    order_by before l ≡ₚ l;
  order_by_sorted : ∀ (A : Type) (before : A → A → bool) (l : list A),
    (∀ a b, before a b = true ∨ before b a = true) →
    (∀ a b c, before a b = true → before b c = true → before a c = true) →
    StronglySorted (λ a b, before a b = true) (order_by before l)
}.

Arguments order_by_Permutation {_ _} _ _.
Arguments order_by_sorted {_ _} _ _ _ _.

(** Two ways of ordering, for the runs that are computed.  The first
    inserts each row in front of the first row it may precede, so that
    rows with equal keys keep the order they came in; the second does the
    same on the rows taken backwards, so that they come out reversed. *)
Fixpoint insert_by {A} (before : A → A → bool) (x : A) (l : list A)
  : list A :=
  match l with
  | [] => [x]
  | y :: l' => if before x y then x :: y :: l' else y :: insert_by before x l'
  end.

Definition insertion_sort {A} (before : A → A → bool) (l : list A) : list A :=
  foldr (insert_by before) [] l.

Program Definition insertion_order : OrderBy :=
  {| order_by := λ A before l, insertion_sort before l |}.
Next Obligation.
  intros A before l. induction l as [|x l IH]; [done|]. simpl.
  rewrite <- IH at 2. generalize (insertion_sort before l). clear.
  intros l. induction l as [|y l IH]; simpl; [done|].
  destruct (before x y); [done|]. rewrite IH. apply Permutation_swap.
Qed.
Next Obligation.
  intros A before l Htotal Htrans. induction l as [|x l IH]; simpl;
    [constructor|].
  revert IH. generalize (insertion_sort before l). clear l.
  intros l Hl. induction Hl as [|y l Hl IH Hy]; simpl.
  - repeat constructor.
  - destruct (before x y) eqn:Hxy.
    + constructor; [by constructor|]. constructor; [done|].
      eapply Forall_impl; [exact Hy|]. intros z Hz. by eapply Htrans.
    + assert (before y x = true) as Hyx
        by (destruct (Htotal x y); [congruence|done]).
      constructor; [done|].
      assert (∀ l', Forall (λ z, before y z = true) l' →
                    Forall (λ z, before y z = true) (insert_by before x l'))
        as Hins.
      { clear -Hyx. intros l'. induction 1 as [|z l' Hz Hl' IH']; simpl.
        - by repeat constructor.
        - destruct (before x z); by repeat constructor. }
      by apply Hins.
Qed.

Program Definition reversed_order : OrderBy :=
  {| order_by := λ A before l, insertion_sort before (reverse l) |}.
Next Obligation.
  intros A before l.
  rewrite (@order_by_Permutation insertion_order A before (reverse l)).
  apply reverse_Permutation.
Qed.
Next Obligation.
  intros A before l.
  apply (@order_by_sorted insertion_order A before (reverse l)).
Qed.

(** [ORDER BY key DESC] on an integer key. *)
Definition order_by_desc {db : OrderBy} {A} (key : A → Z) : list A → list A :=
  order_by (λ x y, bool_decide (key y ≤ key x)).

(** [ORDER BY p.name] on text: ascending, null last. *)
Definition name_before (a b : option string) : bool :=
  match a, b with
  | Some s1, Some s2 => String.leb s1 s2
  | Some _, None => true
  | None, Some _ => false
  | None, None => true
  end.

(** [LIMIT n]: Neo4j refuses a negative count. *)
Definition cy_limit {A} (n : Z) (rows : list A) : Result (list A) :=
  if decide (n < 0) then raise ClientError else inr (take (Z.to_nat n) rows).

(** [sum(r.quantity)]: nulls are skipped. *)
Definition sum_quantity (g : Graph) (rs : list nat) : Z :=
  foldr (λ r acc, default 0 (x ← rels g !! r; rquantity x) + acc) 0 rs.

(** [MATCH (rec)-[:IN_CATEGORY]->(cat:Category)] appended to ranked rows. *)
Definition with_category {A} (g : Graph) (rec : A → nat) (rows : list A)
  : list (A * nat) :=
  row ← rows;
  cat ← expand_out g "IN_CATEGORY" Category (rec row);
  [(row, cat.2)].

(** What the endpoints put in each dictionary. *)
Record ProductInfo := mkProductInfo {
  product_id : Key;
  product_name : option string;
  price : float;
  category : option string
}.

(** A dictionary with a metric: [score], [total_sold] or
    [co_occurrences]. *)
Record Scored := mkScored {
  item : ProductInfo;
  score : Z
}.

(** Building the dictionary from a record: [float(record["price"])] can
    raise. *)
Definition product_info (g : Graph) (p cat : nat) : Result ProductInfo :=
  price ← py_float (nprice (node g p));
  mret (mkProductInfo (nid (node g p)) (nname (node g p)) price
                      (nname (node g cat))).

Definition scored (g : Graph) (row : nat * Z * nat) : Result Scored :=
  info ← product_info g row.1.1 row.2;
  mret (mkScored info row.1.2).

Section queries.
Context {db : OrderBy}.

(** [list_products]: the query of [GET /products]. *)
Definition list_products_query (g : Graph) : list (nat * nat) :=
  let rows : list (nat * nat) :=
    p ← labelled g Product;
    c ← expand_out g "IN_CATEGORY" Category p;
    [(p, c.2)] in
  order_by (λ x y, name_before (nname (node g x.1)) (nname (node g y.1))) rows.

Definition list_products (g : Graph) : Result (list ProductInfo) :=
  mapM (λ row, product_info g row.1 row.2) (list_products_query g).

(** [collaborative_filtering]: the query, clause by clause. *)

(** [MATCH (c:Customer {id})-[:PLACED]->(:Order)-[:CONTAINS]->(p:Product)
     WITH c, collect(p) AS customer_products] *)
Definition customer_products (g : Graph) (customer_id : Key)
  : list (nat * list nat) :=
  let bought : list (nat * nat) :=
    c ← match_node Customer customer_id g;
    p ← purchases g c;
    [(c, p)] in
  aggregate fst (fmap snd) bought.

(** [MATCH (other:Customer)-[:PLACED]->(:Order)-[:CONTAINS]->(p:Product)
     WHERE other <> c AND p IN customer_products
     WITH c, other, count(p) AS common_products, customer_products
     ORDER BY common_products DESC LIMIT 10]: rows
    [(c, customer_products, other, common_products)]. *)
Definition neighbours (g : Graph) (customer_id : Key)
  : list (nat * list nat * nat * Z) :=
  let shared : list (nat * list nat * nat) :=
    tgt ← customer_products g customer_id;
    other ← labelled g Customer;
    p ← purchases g other;
    if decide (other ≠ tgt.1 ∧ p ∈ tgt.2) then [(tgt, other)] else [] in
  take 10 (order_by_desc snd
             (aggregate id (λ rows, Z.of_nat (length rows)) shared)).

(** [MATCH (other)-[:PLACED]->(:Order)-[:CONTAINS]->(rec:Product)
     WHERE NOT rec IN customer_products
     WITH rec, count(DISTINCT other) AS score]: rows [(rec, score)]. *)
Definition collaborative_scores (g : Graph) (customer_id : Key)
  : list (nat * Z) :=
  let candidates : list (nat * nat) :=
    nb ← neighbours g customer_id;
    rec ← purchases g nb.1.2;
    if decide (rec ∉ nb.1.1.2) then [(rec, nb.1.2)] else [] in
  aggregate fst (λ rows, count_distinct (snd <$> rows)) candidates.

(** [ORDER BY score DESC] *)
Definition collaborative_ranked (g : Graph) (customer_id : Key)
  : list (nat * Z) :=
  order_by_desc snd (collaborative_scores g customer_id).

(** [LIMIT $limit MATCH (rec)-[:IN_CATEGORY]->(cat:Category) RETURN ...]:
    rows [(rec, score, cat)]. *)
Definition collaborative_query (g : Graph) (customer_id : Key) (limit : Z)
  : Result (list (nat * Z * nat)) :=
  top ← cy_limit limit (collaborative_ranked g customer_id);
  mret (with_category g fst top).

Definition collaborative_filtering (g : Graph) (customer_id : string)
    (limit : Z) : Result (list Scored) :=
  result ← collaborative_query g (KStr customer_id) limit;
  mapM (scored g) result.

(** [content_based]: rows [(rec, cat)]. *)
Definition content_based_query (g : Graph) (customer_id : Key) (limit : Z)
  : Result (list (nat * nat)) :=
  (* MATCH (c:Customer {id})-[:PLACED]->(:Order)-[:CONTAINS]->(p:Product)
           -[:IN_CATEGORY]->(cat:Category) *)
  let bought : list (nat * nat) :=
    c ← match_node Customer customer_id g;
    p ← purchases g c;
    cat ← expand_out g "IN_CATEGORY" Category p;
    [(c, cat.2)] in
  (* WITH c, collect(DISTINCT cat) AS liked_categories *)
  let targets : list (nat * list nat) :=
    aggregate fst (λ rows, distinct (snd <$> rows)) bought in
  (* MATCH (rec:Product)-[:IN_CATEGORY]->(cat:Category)
     WHERE cat IN liked_categories AND NOT EXISTS {
       MATCH (c)-[:PLACED]->(:Order)-[:CONTAINS]->(rec) } *)
  let matches : list (nat * nat) :=
    tgt ← targets;
    rec ← labelled g Product;
    cat ← expand_out g "IN_CATEGORY" Category rec;
    if decide (cat.2 ∈ tgt.2 ∧ rec ∉ purchases g tgt.1)
    then [(rec, cat.2)] else [] in
  (* WITH rec, cat, count( * ) AS relevance ORDER BY relevance DESC
     LIMIT $limit *)
  let ranked : list (nat * nat * Z) :=
    aggregate id (λ rows, Z.of_nat (length rows)) matches in
  top ← cy_limit limit (order_by_desc snd ranked);
  mret (fst <$> top).

Definition content_based (g : Graph) (customer_id : string) (limit : Z)
  : Result (list ProductInfo) :=
  result ← content_based_query g (KStr customer_id) limit;
  mapM (λ row, product_info g row.1 row.2) result.

(** [popular_products]: rows [(p, total_sold, cat)]. *)
Definition popular_ranked (g : Graph) : list (nat * Z) :=
  (* MATCH (p:Product)<-[r:CONTAINS]-(:Order) *)
  let sold : list (nat * nat) :=
    p ← labelled g Product;
    r ← expand_in g "CONTAINS" Order p;
    [(p, r.1)] in
  (* WITH p, sum(r.quantity) AS total_sold ORDER BY total_sold DESC *)
  order_by_desc snd
    (aggregate fst (λ rows, sum_quantity g (snd <$> rows)) sold).

Definition popular_query (g : Graph) (limit : Z)
  : Result (list (nat * Z * nat)) :=
  top ← cy_limit limit (popular_ranked g);
  mret (with_category g fst top).

Definition popular_products (g : Graph) (limit : Z) : Result (list Scored) :=
  result ← popular_query g limit;
  mapM (scored g) result.

(** [frequently_bought_together]: rows [(rec, co_occurrences, cat)]. *)
Definition together_ranked (g : Graph) (product_id : Key) : list (nat * Z) :=
  (* MATCH (p:Product {id})<-[:CONTAINS]-(o:Order)-[:CONTAINS]->(rec:Product)
     WHERE rec <> p; the two relationships of one pattern are distinct *)
  let pairs : list (nat * nat) :=
    p ← match_node Product product_id g;
    o ← expand_in g "CONTAINS" Order p;
    rec ← expand_out g "CONTAINS" Product o.2;
    if decide (rec.1 ≠ o.1 ∧ rec.2 ≠ p) then [(rec.2, o.2)] else [] in
  (* WITH rec, count(DISTINCT o) AS co_occurrences
     ORDER BY co_occurrences DESC *)
  order_by_desc snd
    (aggregate fst (λ rows, count_distinct (snd <$> rows)) pairs).

Definition together_query (g : Graph) (product_id : Key) (limit : Z)
  : Result (list (nat * Z * nat)) :=
  top ← cy_limit limit (together_ranked g product_id);
  mret (with_category g fst top).

Definition frequently_bought_together (g : Graph) (product_id : string)
    (limit : Z) : Result (list Scored) :=
  result ← together_query g (KStr product_id) limit;
  mapM (scored g) result.

End queries.

(** ** The run as a sequence of statements *)

(** One statement per source row. *)
Inductive Stmt :=
  | LoadCategory (row : CategoryRow)
  | LoadProduct (row : ProductRow)
  | LoadCustomer (row : CustomerRow)
  | LoadOrder (row : OrderRow)
  | LoadOrderItem (row : OrderItemRow)
  | LoadEvent (row : EventRow).

Definition run_stmt (s : Stmt) : Graph → Result Graph :=
  match s with
  | LoadCategory row => merge_category row
  | LoadProduct row => merge_product row
  | LoadCustomer row => merge_customer row
  | LoadOrder row => merge_order row
  | LoadOrderItem row => merge_order_item row
  | LoadEvent row => merge_event row
  end.

(** The statements [etl()] issues, in its order. *)
Definition statements (src : Source) : list Stmt :=
  (LoadCategory <$> categories_df src) ++
  (LoadProduct <$> products_df src) ++
  (LoadCustomer <$> customers_df src) ++
  (LoadOrder <$> orders_df src) ++
  (LoadOrderItem <$> order_items_df src) ++
  (LoadEvent <$> events_df src).

(** Statements run one after the other until one raises. *)
Fixpoint exec (ss : list Stmt) (g : Graph) : Graph * Result unit :=
  match ss with
  | [] => (g, inr ())
  | s :: ss' =>
      match run_stmt s g with
      | inl e => (g, inl e)
      | inr g' => exec ss' g'
      end
  end.

(** ** Notions the claims are stated with *)

(** The event types the loader's comment names. *)
Definition known_event_types : list string :=
  ["VIEW"; "CLICK"; "ADD_TO_CART"].

(** A failure is reported when the step raises or prints. *)
Definition reports_failure (before after : World) (r : Result unit) : Prop :=
  (∃ e, r = inl e) ∨ stdout after ≠ stdout before.

(** The loop body of the event loader. *)
Definition event_body (row : EventRow) : Py unit :=
  run_cypher (merge_event row).

(** [SET] on every element a pattern selects. *)
Definition update_where {A} (p : A → bool) (f : A → A) (l : list A)
  : list A :=
  (λ x, if p x then f x else x) <$> l.

(** What a setter must leave alone for a pattern to keep matching. *)
Definition keeps_ends (f : Rel → Rel) : Prop :=
  ∀ r, rsrc (f r) = rsrc r ∧ rtype (f r) = rtype r ∧ rdst (f r) = rdst r.

(** ** Sample data *)

Definition ann : CustomerRow :=
  mkCustomerRow (Some (KStr "C1")) (Some "Ann") (Some 19000).
Definition bob : CustomerRow :=
  mkCustomerRow (Some (KStr "C2")) (Some "Bob") (Some 19001).

Definition books : CategoryRow :=
  mkCategoryRow (Some (KStr "CAT1")) (Some "Books").

Definition product_row (id name : string) (cents : Z) (cat : string)
  : ProductRow :=
  mkProductRow (Some (KStr id)) (Some name) (Some (FNum (cents # 100)))
               (Some (KStr cat)).

(** An order row of a frame whose [ts] column has values: a missing
    timestamp is [NaT]. *)
Definition order_row (id customer : string) (ts : option Timestamp)
  : OrderRow :=
  mkOrderRow (Some (KStr id)) (Some (KStr customer))
             (Some (from_option Stamp NaT ts)).

Definition item_row (order product : string) (quantity : Z) : OrderItemRow :=
  mkOrderItemRow (Some (KStr order)) (Some (KStr product))
                 (Some (IntOf quantity)).

Definition event_row (customer product type : string) (ts : Timestamp)
  : EventRow :=
  mkEventRow (Some (KStr customer)) (Some (KStr product)) (Some type)
             (Some (Stamp ts)).


(** The same source without the row that cannot be loaded. *)
Definition good_ts_source : Source :=
  mkSource [books] [product_row "P1" "Go Guide" 2999 "CAT1"] [ann]
    [order_row "O2" "C1" (Some 1000)]
    [item_row "O2" "P1" 1]
    [event_row "C1" "P1" "view" 5].

(** A store with one customer and one product. *)
Definition small_graph : Graph :=
  (run_etl (mkSource [books] [product_row "P1" "Go Guide" 2999 "CAT1"] [ann]
                     [] [] []) empty_graph).1.(graph).

(** Two products sold; the category of the better selling one is not in
    the source.  Bob has no order. *)
Definition orphan_source : Source :=
  mkSource [books]
    [product_row "P1" "Go Guide" 2999 "CAT1";
     product_row "P2" "Orphan" 500 "CAT9"]
    [ann; bob]
    [order_row "O1" "C1" (Some 1000)]
    [item_row "O1" "P1" 2; item_row "O1" "P2" 5]
    [].

Definition orphan_graph : Graph :=
  (run_etl orphan_source empty_graph).1.(graph).

(** The product of a returned dictionary has an [IN_CATEGORY] relationship
    to a category node, whose name the dictionary carries. *)
Definition in_category (g : Graph) (info : ProductInfo) : Prop :=
  ∃ p r c, (r, c) ∈ expand_out g "IN_CATEGORY" Category p
           ∧ product_id info = nid (node g p)
           ∧ category info = nname (node g c).

(** ** Reference notions for the rankings *)

(** The quantity sold of a product node: the sum of [quantity] over the
    [CONTAINS] relationships that reach it from order nodes. *)
Definition sold_by (g : Graph) (p : nat) (x : Rel) : bool :=
  (bool_decide (rdst x = p ∧ rtype x = "CONTAINS")
   && has_label g Order (rsrc x))%bool.

Definition total_sold (g : Graph) (p : nat) : Z :=
  foldr (λ x acc,
           (if sold_by g p x then default 0 (rquantity x) else 0) + acc)
        0 (rels g).

(** Every product node has a price, as the loader sets one on each. *)
Definition priced (g : Graph) : Prop :=
  Forall (λ n, nlabel n = Product → is_Some (nprice n)) (nodes g).

(** No two nodes carry the same label and [id]. *)
Definition node_key (n : Node) : Label * Key := (nlabel n, nid n).

Definition unique_ids (g : Graph) : Prop := NoDup (node_key <$> nodes g).

(** Order [o] has a [CONTAINS] relationship to product [p]. *)
Definition contains (g : Graph) (o p : nat) : bool :=
  existsb (is_rel o "CONTAINS" p) (rels g).

(** The order nodes that contain both products. *)
Definition common_orders (g : Graph) (p q : nat) : list nat :=
  filter (λ o, has_label g Order o = true ∧ contains g o p = true
               ∧ contains g o q = true)
         (seq 0 (length (nodes g))).

(** Ann and Bob both bought P0; Bob also bought P2 and then P1. *)
Definition tie_source : Source :=
  mkSource [books]
    [product_row "P0" "Tea" 300 "CAT1";
     product_row "P1" "Cups" 900 "CAT1";
     product_row "P2" "Kettle" 2500 "CAT1"]
    [ann; bob]
    [order_row "O1" "C1" (Some 1000); order_row "O2" "C2" (Some 2000)]
    [item_row "O1" "P0" 1; item_row "O2" "P0" 1;
     item_row "O2" "P2" 1; item_row "O2" "P1" 1]
    [].

Definition tie_graph : Graph := (run_etl tie_source empty_graph).1.(graph).



(** ** Reference notions for collaborative filtering *)


Section neighbours.
Context {db : OrderBy}.



End neighbours.



(** ** Well-formed stores *)

Definition rel_key (r : Rel) : nat * string * nat := (rsrc r, rtype r, rdst r).

(** No two relationships join the same nodes with the same type. *)
Definition unique_rels (g : Graph) : Prop := NoDup (rel_key <$> rels g).

(** Relationships join nodes of the store. *)
Definition ends_valid (g : Graph) : Prop :=
  Forall (λ r, (rsrc r < length (nodes g))%nat
               ∧ (rdst r < length (nodes g))%nat) (rels g).

(** A store as the loader keeps it. *)
Definition wf_graph (g : Graph) : Prop := unique_ids g ∧ ends_valid g.

(** ** Statements as merge operations

    Every statement of the loader has the same form: an optional
    [MERGE (n:l {id: k}) SET n...] followed by an optional
    [MATCH src, dst  MERGE (src)-[r:t]->(dst) SET r...]. *)

(** A pattern [(v:l {id: $k})]; a null [$k] matches nothing. *)
Definition Pattern : Type := Label * option Key.

Record Link := mkLink {
  lk_src : Pattern;
  lk_type : string;
  lk_dst : Pattern;
  lk_set : Rel → Rel
}.

Record Op := mkOp {
  op_node : option (Label * Key * (Node → Node));
  op_link : option Link
}.

Definition pattern_matches (pat : Pattern) (n : Node) : bool :=
  match pat.2 with
  | Some k => has_label_id pat.1 k n
  | None => false
  end.

Definition node_matches (g : Graph) (pat : Pattern) (i : nat) : bool :=
  match nodes g !! i with
  | Some n => pattern_matches pat n
  | None => false
  end.

(** The relationships a link statement binds. *)
Definition link_targets (g : Graph) (lk : Link) (r : Rel) : bool :=
  (bool_decide (rtype r = lk_type lk)
   && node_matches g (lk_src lk) (rsrc r)
   && node_matches g (lk_dst lk) (rdst r))%bool.

(** What [MERGE] creates when nothing matches. *)
Definition ensure_node (op : Op) (g : Graph) : Graph :=
  match op_node op with
  | Some (l, k, _) =>
      if decide (match_node l k g = []) then
        mkGraph (nodes g ++ [new_node l k]) (rels g)
      else g
  | None => g
  end.

Definition ensure_link (op : Op) (g : Graph) : Graph :=
  match op_link op with
  | Some lk =>
      match match_node_param (lk_src lk).1 (lk_src lk).2 g,
            match_node_param (lk_dst lk).1 (lk_dst lk).2 g with
      | s :: _, d :: _ =>
          if decide (positions (is_rel s (lk_type lk) d) 0 (rels g) = [])
          then mkGraph (nodes g) (rels g ++ [new_rel s (lk_type lk) d])
          else g
      | _, _ => g
      end
  | None => g
  end.

Definition ensure (op : Op) (g : Graph) : Graph :=
  ensure_link op (ensure_node op g).

(** What [SET] writes on everything the statement binds. *)
Definition node_upd (op : Op) (n : Node) : Node :=
  match op_node op with
  | Some (l, k, f) => if has_label_id l k n then f n else n
  | None => n
  end.

Definition rel_upd (g : Graph) (op : Op) (r : Rel) : Rel :=
  match op_link op with
  | Some lk => if link_targets g lk r then lk_set lk r else r
  | None => r
  end.

Definition act (op : Op) (g : Graph) : Graph :=
  mkGraph (node_upd op <$> nodes g) (rel_upd g op <$> rels g).

Definition apply_op (op : Op) (g : Graph) : Graph := act op (ensure op g).

Definition apply_ops (ops : list Op) (g : Graph) : Graph :=
  foldl (λ g op, apply_op op g) g ops.


Definition act_all (ops : list Op) (g : Graph) : Graph :=
  foldl (λ g op, act op g) g ops.

Definition keys (g : Graph) : list (Label * Key) := node_key <$> nodes g.

(** Node [i] of the store carries this label and [id]. *)
Definition key_at (g : Graph) (i : nat) (key : Label * Key) : Prop :=
  keys g !! i = Some key.


(** The operation of a statement on the store [g]; its expressions may
    fail to evaluate.  The store only decides whether the event statement
    has a row for which to evaluate its timestamp; without one it does
    nothing. *)
Definition op_of (g : Graph) (s : Stmt) : Result Op :=
  match s with
  | LoadCategory row =>
      id ← merge_key (cat_id row);
      mret (mkOp (Some (Category, id, set_nname (cat_name row))) None)
  | LoadProduct row =>
      price ← py_float (prod_price row);
      id ← merge_key (prod_id row);
      mret (mkOp (Some (Product, id,
                        set_nprice (Some price) ∘ set_nname (prod_name row)))
                 (Some (mkLink (Product, Some id) "IN_CATEGORY"
                               (Category, prod_category_id row) (λ r, r))))
  | LoadCustomer row =>
      id ← merge_key (cust_id row);
      join_date ← cypher_date (cust_join_date row);
      mret (mkOp (Some (Customer, id,
                        set_njoin_date (Some join_date)
                        ∘ set_nname (cust_name row))) None)
  | LoadOrder row =>
      ts_iso ← isoformat (ord_ts row);
      id ← merge_key (ord_id row);
      ts ← cypher_datetime ts_iso;
      mret (mkOp (Some (Order, id, set_nts (Some ts)))
                 (Some (mkLink (Customer, ord_customer_id row) "PLACED"
                               (Order, Some id) (λ r, r))))
  | LoadOrderItem row =>
      quantity ← py_int (oi_quantity row);
      mret (mkOp None
                 (Some (mkLink (Order, oi_order_id row) "CONTAINS"
                               (Product, oi_product_id row)
                               (set_rquantity (Some quantity)))))
  | LoadEvent row =>
      event_type ← py_upper (ev_event_type row);
      ts_iso ← isoformat (ev_ts row);
      label ← splice_rel_type event_type;
      match cross (match_node_param Customer (ev_customer_id row) g)
                  (match_node_param Product (ev_product_id row) g) with
      | [] => mret (mkOp None None)
      | _ =>
          ts ← cypher_datetime ts_iso;
          mret (mkOp None
                     (Some (mkLink (Customer, ev_customer_id row) label
                                   (Product, ev_product_id row)
                                   (set_rts (Some ts)))))
      end
  end.

(** The position of a statement in the load order. *)
Definition stage (s : Stmt) : nat :=
  match s with
  | LoadCategory _ => 1
  | LoadProduct _ => 2
  | LoadCustomer _ => 3
  | LoadOrder _ => 4
  | LoadOrderItem _ => 5
  | LoadEvent _ => 6
  end.


(** The operations of the statements that run from the store [g]: those
    before the first whose expressions fail to evaluate, and how the run
    ends. *)
Fixpoint ops_of (ss : list Stmt) (g : Graph) : list Op * Result unit :=
  match ss with
  | [] => ([], inr ())
  | s :: ss' =>
      match op_of g s with
      | inl e => ([], inl e)
      | inr op =>
          (op :: (ops_of ss' (apply_op op g)).1,
           (ops_of ss' (apply_op op g)).2)
      end
  end.


(** Setters leave identity alone. *)
Definition keeps_key (f : Node → Node) : Prop :=
  ∀ n, nlabel (f n) = nlabel n ∧ nid (f n) = nid n.

Definition op_ok (op : Op) : Prop :=
  (∀ l k f, op_node op = Some (l, k, f) → keeps_key f)
  ∧ (∀ lk, op_link op = Some lk → keeps_ends (lk_set lk)).

(** The statement has nothing left to create. *)
Definition saturated (op : Op) (g : Graph) : Prop :=
  (∀ l k f, op_node op = Some (l, k, f) → match_node l k g ≠ [])
  ∧ (∀ lk s d, op_link op = Some lk →
       node_matches g (lk_src lk) s = true →
       node_matches g (lk_dst lk) d = true →
       positions (is_rel s (lk_type lk) d) 0 (rels g) ≠ []).








(** * The rest of [etl.py] *)

(** ** [chunk] *)

(** The number of elements of [range(start, stop, step)], as CPython
    computes it for a step that is not zero. *)
Definition range_length (start stop step : Z) : nat :=
  if decide (0 < step) then
    if decide (start < stop) then Z.to_nat (1 + (stop - 1 - start) / step)
    else 0%nat
  else
    if decide (stop < start) then Z.to_nat (1 + (start - 1 - stop) / (- step))
    else 0%nat.

Definition range_elems (start stop step : Z) : list Z :=
  (λ k : nat, start + Z.of_nat k * step) <$> seq 0 (range_length start stop step).

(** [range(start, stop, step)]: a zero step is refused. *)
Definition py_range (start stop step : Z) : Result (list Z) :=
  if decide (step = 0) then raise ValueError
  else mret (range_elems start stop step).

(** A bound of a slice of a sequence of length [n]: a negative bound
    counts from the end, and every bound is clipped to the sequence. *)
Definition slice_index (n i : Z) : Z :=
  if decide (i < 0) then Z.max (i + n) 0 else Z.min i n.

(** [df.iloc[i:j]] *)
Definition py_slice {A} (l : list A) (i j : Z) : list A :=
  let n := Z.of_nat (length l) in
  let lo := slice_index n i in
  let hi := slice_index n j in
  take (Z.to_nat (hi - lo)) (drop (Z.to_nat lo) l).

(** [chunk(df, size)], read to its end: the frames it yields, or the
    exception its first step raises. *)
Definition chunk {A} (df : list A) (size : Z) : Result (list (list A)) :=
  starts ← py_range 0 (Z.of_nat (length df)) size;
  mret ((λ i, py_slice df i (i + size)) <$> starts).

(** ** [run_cypher_file]

    The text of the file is a sequence of characters with code points
    below 256, one [ascii] each. *)

(** [c.isspace()] *)
Definition is_space (c : ascii) : bool :=
  let n := nat_of_ascii c in
  ((Nat.leb 9 n && Nat.leb n 13) || (Nat.leb 28 n && Nat.leb n 32)
   || Nat.eqb n 133 || Nat.eqb n 160)%bool.

Fixpoint lstrip (s : string) : string :=
  match s with
  | EmptyString => EmptyString
  | String c s' => if is_space c then lstrip s' else s
  end.

Fixpoint rstrip (s : string) : string :=
  match s with
  | EmptyString => EmptyString
  | String c s' =>
      match rstrip s' with
      | EmptyString => if is_space c then EmptyString else String c EmptyString
      | t => String c t
      end
  end.

(** [s.strip()] *)
Definition strip (s : string) : string := rstrip (lstrip s).

(** [s.split(sep)] for a separator of one character: the pieces between
    the separators, the empty ones too. *)
Fixpoint py_split (sep : ascii) (s : string) : list string :=
  match s with
  | EmptyString => [EmptyString]
  | String c s' =>
      if decide (c = sep) then EmptyString :: py_split sep s'
      else match py_split sep s' with
           | piece :: rest => String c piece :: rest
           | [] => [String c EmptyString]
           end
  end.

(** [[s.strip() for s in content.split(';') if s.strip()]] *)
Definition parse_statements (content : string) : list string :=
  strip <$> filter (λ s, strip s ≠ EmptyString) (py_split ";"%char content).

(** [s[:n]] *)
Fixpoint str_take (n : nat) (s : string) : string :=
  match n, s with
  | S n', String c s' => String c (str_take n' s')
  | _, _ => EmptyString
  end.

(** The character [c] occurs in [s]. *)
Fixpoint occurs (c : ascii) (s : string) : Prop :=
  match s with
  | EmptyString => False
  | String c' s' => c' = c ∨ occurs c s'
  end.

(** [sep.join(pieces)] *)
Fixpoint py_join (sep : string) (pieces : list string) : string :=
  match pieces with
  | [] => EmptyString
  | [piece] => piece
  | piece :: rest => piece +:+ sep +:+ py_join sep rest
  end.

Section schema.

(** What the store does with the text of a statement, and the text
    [str(e)] of the exception it raises. *)
Variable cypher : string → Graph → Result Graph.
Variable str_exn : string → Graph → Exn → string.

(** The body of the loop: [try: run_cypher(...); print(...)
    except Exception as e: print(...)]. *)
Definition try_statement (stmt : string) : Py unit := λ w,
  match run_cypher (cypher stmt) w with
  | (w1, inr _) => print ("Executed: " +:+ str_take 50 stmt +:+ "...") w1
  | (w1, inl e) =>
      print ("Warning executing statement: " +:+ str_exn stmt (graph w) e) w1
  end.

(** [run_cypher_file(driver, filepath)], where [content] is what reading
    the file gives. *)
Definition run_cypher_file (filepath content : string) : Py unit :=
  print ("Running Cypher file: " +:+ filepath) ;;
  for_each (parse_statements content) try_statement.

End schema.

(** What the store is after the statements of a schema file: each one is
    tried on what the ones before left, and one that fails is passed
    over. *)
Definition tolerant (cypher : string → Graph → Result Graph)
    (stmts : list string) (g : Graph) : Graph :=
  foldl (λ g stmt, match cypher stmt g with inr g' => g' | inl _ => g end)
        g stmts.

(** ** [wait_for_postgres] and [wait_for_neo4j] *)

(** What waiting can be observed to do. *)
Record Waiting := mkWaiting {
  tried : nat;
  slept : list Z;
  printed : list string;
  drivers_open : nat
}.

Definition still : Waiting := mkWaiting 0 [] [] 0.

(** What the drivers and [time.sleep] raise, with the text [str(e)]. *)
Inductive Raised :=
  | OperationalError (msg : string)
  | DriverError (msg : string)
  | SleepValueError
  | PlainException (msg : string).

Definition str_raised (e : Raised) : string :=
  match e with
  | OperationalError msg => msg
  | DriverError msg => msg
  | SleepValueError => "sleep length must be non-negative"
  | PlainException msg => msg
  end.

Definition Wait (A : Type) : Type := Waiting → Waiting * (Raised + A).

Global Instance Wait_ret : MRet Wait := λ A x w, (w, inr x).
Global Instance Wait_bind : MBind Wait := λ A B f m w,
  match m w with
  | (w', inl e) => (w', inl e)
  | (w', inr a) => f a w'
  end.

Definition wraise {A} (e : Raised) : Wait A := λ w, (w, inl e).

Definition wprint (line : string) : Wait unit := λ w,
  (mkWaiting (tried w) (slept w) (printed w ++ [line]) (drivers_open w),
   inr ()).

(** [time.sleep(delay)] refuses a negative delay. *)
Definition sleep (delay : Z) : Wait unit := λ w,
  if decide (delay < 0) then (w, inl SleepValueError)
  else (mkWaiting (tried w) (slept w ++ [delay]) (printed w)
                  (drivers_open w), inr ()).

(** The state after [k] more attempts that failed, each followed by a
    sleep of [delay]. *)
Definition after_failures (k : nat) (delay : Z) (w : Waiting) : Waiting :=
  mkWaiting (tried w + k) (slept w ++ replicate k delay) (printed w)
            (drivers_open w).

(** Where an attempt to reach Neo4j fails. *)
Inductive NeoStage := AtDriver | AtSession | AtRun.

Global Instance NeoStage_eq_dec : EqDecision NeoStage.
Proof. solve_decision. Defined.

(** What an attempt that fails at a stage has printed by then, and
    whether it leaves its driver open: [driver.close()] comes after the
    steps that can fail. *)
Definition digits_before (stage : NeoStage) : list string :=
  match stage with
  | AtDriver => ["1"]
  | AtSession => ["1"; "2"]
  | AtRun => ["1"; "2"; "3"]
  end.

Definition keeps_driver (stage : NeoStage) : nat :=
  match stage with
  | AtDriver => 0
  | AtSession | AtRun => 1
  end.

(** The state after more attempts on Neo4j that failed at [stages], each
    followed by a sleep of [delay]. *)
Fixpoint after_neo_failures (stages : list NeoStage) (delay : Z)
    (w : Waiting) : Waiting :=
  match stages with
  | [] => w
  | stage :: rest =>
      after_neo_failures rest delay
        (mkWaiting (S (tried w)) (slept w ++ [delay])
                   (printed w ++ digits_before stage)
                   (drivers_open w + keeps_driver stage))
  end.

Section waiting.

(** The stores as the process meets them: what the [n]-th attempt to
    connect gives, [None] when it succeeds. *)
Variable postgres : nat → option Raised.
Variable neo4j : nat → option (NeoStage * Raised).

(** [conn = psycopg2.connect( ** POSTGRES_CONFIG); conn.close()] *)
Definition connect_postgres : Wait unit := λ w,
  let w' := mkWaiting (S (tried w)) (slept w) (printed w) (drivers_open w) in
  match postgres (tried w) with
  | Some e => (w', inl e)
  | None => (w', inr ())
  end.

(** The loop of [wait_for_postgres] over the values [is] of [i]. *)
Fixpoint postgres_attempts (ixs : list Z) (max_retries delay : Z)
  : Wait bool :=
  match ixs with
  | [] => mret false
  | i :: rest => λ w,
      match (connect_postgres ;; wprint "PostgreSQL is ready!") w with
      | (w1, inr _) => (w1, inr true)
      | (w1, inl (OperationalError _)) =>
          if decide (i < max_retries - 1)
          then (sleep delay ;; postgres_attempts rest max_retries delay) w1
          else (w1, inl (PlainException
                           "PostgreSQL not available after max retries"))
      | (w1, inl e) => (w1, inl e)
      end
  end.

Definition wait_for_postgres (max_retries delay : Z) : Wait bool :=
  wprint "⏳ Waiting for PostgreSQL..." ;;
  postgres_attempts (range_elems 0 max_retries 1) max_retries delay.

(** One step of an attempt on Neo4j: it raises when the attempt fails at
    this stage. *)
Definition neo_step (o : option (NeoStage * Raised)) (stage : NeoStage)
  : Wait unit := λ w,
  match o with
  | Some (st, e) => if decide (st = stage) then (w, inl e) else (w, inr ())
  | None => (w, inr ())
  end.

Definition driver_created : Wait unit := λ w,
  (mkWaiting (tried w) (slept w) (printed w) (S (drivers_open w)), inr ()).

Definition driver_close : Wait unit := λ w,
  (mkWaiting (tried w) (slept w) (printed w) (pred (drivers_open w)), inr ()).

(** The body of the [try] of [wait_for_neo4j]. *)
Definition check_neo4j : Wait bool := λ w,
  let o := neo4j (tried w) in
  (wprint "1" ;;
   (λ w, (mkWaiting (S (tried w)) (slept w) (printed w) (drivers_open w),
          inr ())) ;;
   neo_step o AtDriver ;; driver_created ;;
   wprint "2" ;;
   neo_step o AtSession ;;
   wprint "3" ;;
   neo_step o AtRun ;;
   wprint "4" ;;
   driver_close ;;
   wprint "Neo4j is ready!" ;;
   mret true) w.

Fixpoint neo4j_attempts (ixs : list Z) (max_retries delay : Z) : Wait bool :=
  match ixs with
  | [] => mret false
  | i :: rest => λ w,
      match check_neo4j w with
      | (w1, inr b) => (w1, inr b)
      | (w1, inl e) =>
          if decide (i < max_retries - 1)
          then (sleep delay ;; neo4j_attempts rest max_retries delay) w1
          else (w1, inl (PlainException
                           ("Neo4j not available after max retries: "
                            +:+ str_raised e)))
      end
  end.

Definition wait_for_neo4j (max_retries delay : Z) : Wait bool :=
  wprint "Waiting for Neo4j..." ;;
  neo4j_attempts (range_elems 0 max_retries 1) max_retries delay.

End waiting.

(** ** What [etl()] prints while it loads *)

Definition loading_lines : list string :=
  [""; "Loading data into Neo4j..."; "Loading Categories...";
   "Loading Products..."; "Loading Customers..."; "Loading Orders...";
   "Loading Order Items..."; "Loading Events..."].

Definition closing_lines : list string := [""; "ETL done !"].

(** ** Notions for the loading phase *)

(** The event type of the row is a plain name once upper-cased (or is
    missing, and Python raises before any statement is built): the
    statement sent for the row is the one written in [etl.py]. *)
Definition plain_type (row : EventRow) : bool :=
  match ev_event_type row with
  | Some t => is_symbolic_name (upper t)
  | None => true
  end.

Definition plain_event_types (src : Source) : Prop :=
  Forall (λ row, plain_type row = true) (events_df src).

(** The first statement of a run that raises. *)
Fixpoint first_failure (ss : list Stmt) (g : Graph) : option Stmt :=
  match ss with
  | [] => None
  | s :: ss' =>
      match run_stmt s g with
      | inl _ => Some s
      | inr g' => first_failure ss' g'
      end
  end.

(** The label and [id] of the node a row's statement merges. *)
Definition merged_key (s : Stmt) : option (Label * Key) :=
  match s with
  | LoadCategory row => pair Category <$> cat_id row
  | LoadProduct row => pair Product <$> prod_id row
  | LoadCustomer row => pair Customer <$> cust_id row
  | LoadOrder row => pair Order <$> ord_id row
  | LoadOrderItem _ | LoadEvent _ => None
  end.

(** An operation that leaves a price on every product it writes. *)
Definition keeps_price (x : Op) : Prop :=
  ∀ l k f, op_node x = Some (l, k, f) →
    (∀ n, is_Some (nprice n) → is_Some (nprice (f n)))
    ∧ (l = Product → ∀ n, is_Some (nprice (f n))).

(** * The rest of [main.py] *)

(** ** [get_stats] *)

(** [MATCH (n:l) RETURN count(n) AS count], read with
    [.single()["count"]]. *)
Definition count_nodes (g : Graph) (l : Label) : Z :=
  Z.of_nat (length (labelled g l)).

Record Stats := mkStats {
  stat_customers : Z;
  stat_products : Z;
  stat_orders : Z;
  stat_categories : Z
}.

Definition get_stats (g : Graph) : Stats :=
  let customers := count_nodes g Customer in
  let products := count_nodes g Product in
  let orders := count_nodes g Order in
  let categories := count_nodes g Category in
  mkStats customers products orders categories.

(** ** [customer_orders] *)

(** [ORDER BY o.ts DESC]: the latest first, and null before every
    value. *)
Definition ts_after (a b : option Timestamp) : bool :=
  match a, b with
  | None, _ => true
  | Some _, None => false
  | Some x, Some y => bool_decide (y ≤ x)
  end.

Section customer_orders_query.
Context {db : OrderBy}.

(** The query: rows [(o, r, p)] of an order, one of its [CONTAINS]
    relationships and the product at its end. *)
Definition customer_orders_query (g : Graph) (customer_id : Key)
  : list (nat * nat * nat) :=
  let rows : list (nat * nat * nat) :=
    c ← match_node Customer customer_id g;
    o ← expand_out g "PLACED" Order c;
    rp ← expand_out g "CONTAINS" Product o.2;
    [(o.2, rp.1, rp.2)] in
  order_by (λ x y, ts_after (nts (node g x.1.1)) (nts (node g y.1.1))) rows.

End customer_orders_query.

(** One dictionary of [items]. *)
Record OrderLine := mkOrderLine {
  line_product_id : Key;
  line_product_name : option string;
  line_quantity : option Z;
  line_price : float
}.

(** One dictionary of [orders]; [order_date] is the value whose text
    [str(...)] gives, [None] for a null. *)
Record OrderInfo := mkOrderInfo {
  order_id : Key;
  order_date : option Timestamp;
  items : list OrderLine
}.

(** [record["order_id"]] *)
Definition record_order_id (g : Graph) (row : nat * nat * nat) : Key :=
  nid (node g row.1.1).

(** The dictionary appended to [items]: [float(record["price"])] can
    raise. *)
Definition order_line (g : Graph) (row : nat * nat * nat)
  : Result OrderLine :=
  price ← py_float (nprice (node g row.2));
  mret (mkOrderLine (nid (node g row.2)) (nname (node g row.2))
                    (x ← rels g !! row.1.2; rquantity x) price).

(** [orders[order_id]["items"].append(line)] *)
Definition append_item (oid : Key) (line : OrderLine)
    (orders : list (Key * OrderInfo)) : list (Key * OrderInfo) :=
  (λ kv : Key * OrderInfo,
     if decide (kv.1 = oid)
     then (kv.1, mkOrderInfo (order_id kv.2) (order_date kv.2)
                             (items kv.2 ++ [line]))
     else kv) <$> orders.

(** The body of the loop over the records; [orders] is the dictionary,
    its keys in the order they were inserted. *)
Definition add_record (g : Graph) (orders : list (Key * OrderInfo))
    (row : nat * nat * nat) : Result (list (Key * OrderInfo)) :=
  let oid := record_order_id g row in
  let orders1 :=
    if decide (oid ∈ orders.*1) then orders
    else orders ++ [(oid, mkOrderInfo oid (nts (node g row.1.1)) [])] in
  line ← order_line g row;
  mret (append_item oid line orders1).

Fixpoint add_records (g : Graph) (orders : list (Key * OrderInfo))
    (rows : list (nat * nat * nat)) : Result (list (Key * OrderInfo)) :=
  match rows with
  | [] => mret orders
  | row :: rest =>
      orders1 ← add_record g orders row;
      add_records g orders1 rest
  end.

Section customer_orders.
Context {db : OrderBy}.

(** [customer_orders(customer_id)]: [list(orders.values())]. *)
Definition customer_orders (g : Graph) (customer_id : string)
  : Result (list OrderInfo) :=
  orders ← add_records g [] (customer_orders_query g (KStr customer_id));
  mret (snd <$> orders).

End customer_orders.

(** An entry of the dictionary for the records [rows]. *)
Definition entry_of (g : Graph) (rows : list (nat * nat * nat))
    (kv : Key * OrderInfo) : Prop :=
  order_id kv.2 = kv.1
  ∧ mapM (order_line g) (filter (λ row, record_order_id g row = kv.1) rows)
    = inr (items kv.2)
  ∧ ∃ row, head (filter (λ row, record_order_id g row = kv.1) rows)
           = Some row
           ∧ order_date kv.2 = nts (node g row.1.1).

(** Ann ordered twice, Bob once; the second order of Ann is the later
    one and has two lines. *)
Definition history_source : Source :=
  mkSource [books]
    [product_row "P0" "Tea" 300 "CAT1";
     product_row "P1" "Cups" 900 "CAT1"]
    [ann; bob]
    [order_row "O1" "C1" (Some 1000); order_row "O2" "C1" (Some 2000);
     order_row "O3" "C2" (Some 1500)]
    [item_row "O1" "P0" 1; item_row "O2" "P0" 2; item_row "O2" "P1" 1;
     item_row "O3" "P1" 4]
    [event_row "C1" "P1" "view" 5].

Definition history_graph : Graph :=
  (run_etl history_source empty_graph).1.(graph).

(** ** The driver of the service *)

(** The global [neo4j_driver], with the drivers created so far (a driver
    is named by its number) and those closed. *)
Record Service := mkService {
  neo4j_driver : option nat;
  drivers_made : nat;
  drivers_closed : list nat
}.

Definition get_neo4j_driver (sv : Service) : Service * nat :=
  match neo4j_driver sv with
  | None =>
      (mkService (Some (drivers_made sv)) (S (drivers_made sv))
                 (drivers_closed sv),
       drivers_made sv)
  | Some d => (sv, d)
  end.

Definition shutdown_event (sv : Service) : Service :=
  match neo4j_driver sv with
  | Some d => mkService (neo4j_driver sv) (drivers_made sv)
                        (drivers_closed sv ++ [d])
  | None => sv
  end.

(** What the service does between its start and its end: requests that
    take the driver, and the shutdown. *)
Inductive Event := TakesDriver | Shutdown.

Definition service_step (sv : Service) (ev : Event) : Service :=
  match ev with
  | TakesDriver => (get_neo4j_driver sv).1
  | Shutdown => shutdown_event sv
  end.

(** ** Notions for the read endpoints *)

(** The rows of [content_based] before [WITH ... count( * )]: for the
    customer node [c], the products in a category of a product [c]
    purchased that [c] has not purchased. *)
Definition liked_categories (g : Graph) (c : nat) : list nat :=
  distinct (p ← purchases g c;
            cat ← expand_out g "IN_CATEGORY" Category p; [cat.2]).

Definition content_matches (g : Graph) (c : nat) : list (nat * nat) :=
  rec ← labelled g Product;
  cat ← expand_out g "IN_CATEGORY" Category rec;
  if decide (cat.2 ∈ liked_categories g c ∧ rec ∉ purchases g c)
  then [(rec, cat.2)] else [].

(** A product has at most one category. *)
Definition single_category (g : Graph) : Prop :=
  ∀ p, (length (expand_out g "IN_CATEGORY" Category p) ≤ 1)%nat.

(** * Proofs *)

(** ** Positions *)

Section positions.
Context {A : Type} (p : A → bool).

Lemma positions_app i (l1 l2 : list A) :
  positions p i (l1 ++ l2)
  = positions p i l1 ++ positions p (i + length l1)%nat l2.
Proof.
  revert i. induction l1 as [|x l1 IH]; intros i; simpl.
  - by rewrite Nat.add_0_r.
  - rewrite IH. replace (S i + length l1)%nat with (i + S (length l1))%nat by lia.
    by destruct (p x).
Qed.

Lemma elem_of_positions j i (l : list A) :
  j ∈ positions p i l ↔
  (i ≤ j)%nat ∧ ∃ x, l !! (j - i)%nat = Some x ∧ p x = true.
Proof.
  revert i. induction l as [|x l IH]; intros i; simpl.
  - split; [by intros ?%elem_of_nil | by intros (_ & ? & ? & _)].
  - assert (j ∈ positions p (S i) l ↔
            (i ≤ j)%nat ∧ j ≠ i ∧ ∃ y, l !! (j - S i)%nat = Some y ∧ p y = true)
      as Hrec.
    { rewrite IH. split; [intros [? ?]; split_and!; [lia|lia|done]|].
      intros (? & ? & ?). split; [lia|done]. }
    destruct (p x) eqn:Hx.
    + rewrite elem_of_cons, Hrec. split.
      * intros [->|(Hle & Hne & y & Hy & Hp)].
        -- split; [done|]. exists x. by rewrite Nat.sub_diag.
        -- split; [done|]. exists y. split; [|done].
           replace (j - i)%nat with (S (j - S i)) by lia. done.
      * intros (Hle & y & Hy & Hp).
        destruct (decide (j = i)) as [->|Hne]; [by left|right].
        split_and!; [done..|]. exists y. split; [|done].
        replace (j - i)%nat with (S (j - S i)) in Hy by lia. done.
    + rewrite Hrec. split.
      * intros (Hle & Hne & y & Hy & Hp). split; [done|]. exists y.
        split; [|done].
        replace (j - i)%nat with (S (j - S i)) by lia. done.
      * intros (Hle & y & Hy & Hp).
        destruct (decide (j = i)) as [->|Hne].
        { rewrite Nat.sub_diag in Hy. simpl in Hy. congruence. }
        split_and!; [done..|]. exists y. split; [|done].
        replace (j - i)%nat with (S (j - S i)) in Hy by lia. done.
Qed.

Lemma elem_of_positions_0 j (l : list A) :
  j ∈ positions p 0 l ↔ ∃ x, l !! j = Some x ∧ p x = true.
Proof.
  rewrite elem_of_positions, Nat.sub_0_r. split; [by intros [_ ?]|].
  intros ?. split; [lia|done].
Qed.

Lemma positions_nil i (l : list A) :
  positions p i l = [] ↔ ∀ x, x ∈ l → p x = false.
Proof.
  revert i. induction l as [|x l IH]; intros i; simpl.
  - split; [by intros _ ? ?%elem_of_nil|done].
  - destruct (p x) eqn:Hx.
    + split; [done|]. intros H. specialize (H x (list_elem_of_here _ _)).
      congruence.
    + rewrite IH. split.
      * intros H y [->|?]%elem_of_cons; auto.
      * intros H y ?. apply H. by right.
Qed.

Lemma positions_lt j i (l : list A) :
  j ∈ positions p i l → (i ≤ j < i + length l)%nat.
Proof.
  rewrite elem_of_positions. intros (? & x & Hx & _).
  apply lookup_lt_Some in Hx. lia.
Qed.

Lemma positions_NoDup i (l : list A) : NoDup (positions p i l).
Proof.
  revert i. induction l as [|x l IH]; intros i; simpl; [constructor|].
  destruct (p x); [|done]. constructor; [|done].
  intros ?%positions_lt. lia.
Qed.

(** Updating every selected position is a pointwise update. *)
Lemma foldl_alter_positions (f : A → A) (pre l : list A) :
  foldl (λ acc i, alter f i acc) (pre ++ l) (positions p (length pre) l)
  = pre ++ ((λ x, if p x then f x else x) <$> l).
Proof.
  revert pre. induction l as [|x l IH]; intros pre; simpl; [done|].
  destruct (p x) eqn:Hx; simpl.
  - rewrite (alter_app_r_alt f pre (x :: l) (length pre)) by lia.
    rewrite Nat.sub_diag. simpl.
    specialize (IH (pre ++ [f x])).
    rewrite length_app in IH. simpl in IH.
    rewrite Nat.add_1_r, <- !(assoc_L (++)) in IH. simpl in IH. done.
  - specialize (IH (pre ++ [x])).
    rewrite length_app in IH. simpl in IH.
    rewrite Nat.add_1_r, <- !(assoc_L (++)) in IH. simpl in IH. done.
Qed.
End positions.

Lemma positions_fmap {A B} (p : B → bool) (f : A → B) i (l : list A) :
  positions p i (f <$> l) = positions (p ∘ f) i l.
Proof.
  revert i. induction l as [|x l IH]; intros i; simpl; [done|].
  rewrite IH. done.
Qed.

Lemma positions_ext {A} (p q : A → bool) i (l : list A) :
  (∀ x, x ∈ l → p x = q x) → positions p i l = positions q i l.
Proof.
  revert i. induction l as [|x l IH]; intros i H; simpl; [done|].
  rewrite (H x) by left. rewrite IH; [done|]. intros y ?. apply H. by right.
Qed.

(** ** The run and its statements *)

Lemma exec_app ss1 ss2 g :
  exec (ss1 ++ ss2) g =
  match exec ss1 g with
  | (g1, inr _) => exec ss2 g1
  | (g1, inl e) => (g1, inl e)
  end.
Proof.
  revert g. induction ss1 as [|s ss1 IH]; intros g; simpl; [done|].
  destruct (run_stmt s g); [done|]. apply IH.
Qed.

Lemma for_each_exec {A} (f : A → Graph → Result Graph) (mk : A → Stmt)
    (rows : list A) (w : World) :
  (∀ row, run_stmt (mk row) = f row) →
  for_each rows (λ row, run_cypher (f row)) w
  = ((mkWorld (exec (mk <$> rows) (graph w)).1 (stdout w)),
     (exec (mk <$> rows) (graph w)).2).
Proof.
  intros Hmk. revert w. induction rows as [|row rows IH]; intros w; simpl.
  - by destruct w.
  - unfold mbind, Py_bind. unfold run_cypher at 1. rewrite Hmk.
    destruct (f row (graph w)) as [e|g']; simpl; [by destruct w|].
    by rewrite IH.
Qed.

Lemma bind_print (line : string) (k : Py unit) (w : World) :
  (print line ;; k) w = k (mkWorld (graph w) (stdout w ++ [line])).
Proof. done. Qed.

Lemma bind_for_each {A} (f : A → Graph → Result Graph) (mk : A → Stmt)
    (rows : list A) (k : Py unit) (w : World) :
  (∀ row, run_stmt (mk row) = f row) →
  (for_each rows (λ row, run_cypher (f row)) ;; k) w
  = match exec (mk <$> rows) (graph w) with
    | (g1, inl e) => (mkWorld g1 (stdout w), inl e)
    | (g1, inr _) => k (mkWorld g1 (stdout w))
    end.
Proof.
  intros Hmk. unfold mbind, Py_bind.
  rewrite (for_each_exec f mk) by done.
  by destruct (exec (mk <$> rows) (graph w)) as [g1 [e|[]]].
Qed.

(** The store and the outcome of a run are those of its statements. *)
Lemma run_etl_exec src g :
  (graph (run_etl src g).1, (run_etl src g).2) = exec (statements src) g.
Proof.
  unfold run_etl, etl, statements.
  rewrite !bind_print. cbn [graph stdout].
  rewrite (bind_for_each merge_category LoadCategory) by done.
  rewrite exec_app. cbn [graph stdout].
  destruct (exec (LoadCategory <$> _) g) as [g1 [e|[]]]; [done|].
  rewrite !bind_print. cbn [graph stdout].
  rewrite (bind_for_each merge_product LoadProduct) by done.
  rewrite exec_app. cbn [graph stdout].
  destruct (exec (LoadProduct <$> _) g1) as [g2 [e|[]]]; [done|].
  rewrite !bind_print. cbn [graph stdout].
  rewrite (bind_for_each merge_customer LoadCustomer) by done.
  rewrite exec_app. cbn [graph stdout].
  destruct (exec (LoadCustomer <$> _) g2) as [g3 [e|[]]]; [done|].
  rewrite !bind_print. cbn [graph stdout].
  rewrite (bind_for_each merge_order LoadOrder) by done.
  rewrite exec_app. cbn [graph stdout].
  destruct (exec (LoadOrder <$> _) g3) as [g4 [e|[]]]; [done|].
  rewrite !bind_print. cbn [graph stdout].
  rewrite (bind_for_each merge_order_item LoadOrderItem) by done.
  rewrite exec_app. cbn [graph stdout].
  destruct (exec (LoadOrderItem <$> _) g4) as [g5 [e|[]]]; [done|].
  rewrite !bind_print. cbn [graph stdout].
  rewrite (bind_for_each merge_event LoadEvent) by done.
  cbn [graph stdout].
  destruct (exec (LoadEvent <$> _) g5) as [g6 [e|[]]]; done.
Qed.


(** ** Clauses as pointwise updates *)

Lemma foldl_set_node f g ns :
  foldl (set_node f) g ns
  = mkGraph (foldl (λ acc i, alter f i acc) (nodes g) ns) (rels g).
Proof.
  revert g. induction ns as [|i ns IH]; intros g; simpl; [by destruct g|].
  by rewrite IH.
Qed.

Lemma foldl_set_rel f g rs :
  foldl (set_rel f) g rs
  = mkGraph (nodes g) (foldl (λ acc i, alter f i acc) (rels g) rs).
Proof.
  revert g. induction rs as [|i rs IH]; intros g; simpl; [by destruct g|].
  by rewrite IH.
Qed.

Lemma update_where_none {A} (p : A → bool) f (l : list A) :
  positions p 0 l = [] → update_where p f l = l.
Proof.
  intros H. unfold update_where.
  rewrite <- (list_fmap_id l) at 2. apply list_fmap_ext.
  intros i x Hx. rewrite positions_nil in H.
  rewrite (H x); [done|]. by eapply list_elem_of_lookup_2.
Qed.

Lemma set_positions {A} (p : A → bool) f (l : list A) :
  foldl (λ acc i, alter f i acc) l (positions p 0 l) = update_where p f l.
Proof. apply (foldl_alter_positions p f [] l). Qed.

(** [MERGE (s)-[r:t]->(d) SET r...] updates the relationships it matches,
    or appends one. *)
Lemma merge_rel_set_eq t f g sd :
  merge_rel_set t f g sd =
  mkGraph (nodes g)
    (update_where (is_rel sd.1 t sd.2) f (rels g) ++
     if bool_decide (positions (is_rel sd.1 t sd.2) 0 (rels g) = [])
     then [f (new_rel sd.1 t sd.2)] else []).
Proof.
  unfold merge_rel_set, merge_rel.
  destruct (positions (is_rel sd.1 t sd.2) 0 (rels g)) as [|r rs] eqn:Hpos.
  - rewrite bool_decide_eq_true_2 by done. simpl. unfold set_rel. simpl.
    rewrite alter_app_r_alt by lia. rewrite Nat.sub_diag. simpl.
    by rewrite update_where_none.
  - rewrite bool_decide_eq_false_2 by done.
    rewrite foldl_set_rel, <- Hpos, set_positions. by rewrite app_nil_r.
Qed.

Lemma merge_rel_set_nodes t f g sd :
  nodes (merge_rel_set t f g sd) = nodes g.
Proof. by rewrite merge_rel_set_eq. Qed.

Lemma foldl_merge_rel_set_nodes t f g rows :
  nodes (foldl (merge_rel_set t f) g rows) = nodes g.
Proof.
  revert g. induction rows as [|sd rows IH]; intros g; simpl; [done|].
  by rewrite IH, merge_rel_set_nodes.
Qed.

Lemma keeps_ends_is_rel f s t d r :
  keeps_ends f → is_rel s t d (f r) = is_rel s t d r.
Proof.
  intros Hf. unfold is_rel. destruct (Hf r) as (-> & -> & ->). done.
Qed.

Lemma set_rts_keeps_ends v : keeps_ends (set_rts v).
Proof. by intros []. Qed.
Lemma set_rquantity_keeps_ends v : keeps_ends (set_rquantity v).
Proof. by intros []. Qed.

(** After the statement every row has its relationship, with the
    properties set. *)
Lemma merge_rel_set_elem t f g sd :
  ∃ r0, is_rel sd.1 t sd.2 r0 = true ∧ f r0 ∈ rels (merge_rel_set t f g sd).
Proof.
  rewrite merge_rel_set_eq. simpl.
  destruct (positions (is_rel sd.1 t sd.2) 0 (rels g)) as [|i rs] eqn:Hpos.
  - exists (new_rel sd.1 t sd.2). split.
    + unfold is_rel, new_rel. simpl. by rewrite bool_decide_eq_true_2.
    + rewrite bool_decide_eq_true_2 by done. apply elem_of_app. right.
      apply list_elem_of_here.
  - assert (i ∈ positions (is_rel sd.1 t sd.2) 0 (rels g)) as Hi
      by (rewrite Hpos; left).
    apply elem_of_positions_0 in Hi as (r0 & Hr0 & Hp).
    exists r0. split; [done|]. apply elem_of_app. left.
    unfold update_where. apply list_elem_of_fmap. exists r0.
    rewrite Hp. split; [done|]. by eapply list_elem_of_lookup_2.
Qed.

Lemma merge_rel_set_keeps t f g sd r0 s d :
  keeps_ends f → (∀ r, f (f r) = f r) →
  is_rel s t d r0 = true → f r0 ∈ rels g →
  f r0 ∈ rels (merge_rel_set t f g sd).
Proof.
  intros Hends Hidem Hr0 Hin. rewrite merge_rel_set_eq. simpl.
  apply elem_of_app. left. unfold update_where. apply list_elem_of_fmap.
  exists (f r0). split; [|done].
  destruct (is_rel sd.1 t sd.2 (f r0)); by rewrite ?Hidem.
Qed.

Lemma foldl_merge_rel_set_elem t f g rows s d :
  keeps_ends f → (∀ r, f (f r) = f r) → (s, d) ∈ rows →
  ∃ r0, is_rel s t d r0 = true
        ∧ f r0 ∈ rels (foldl (merge_rel_set t f) g rows).
Proof.
  intros Hends Hidem. revert g.
  assert (∀ rows g r0, is_rel s t d r0 = true → f r0 ∈ rels g →
            f r0 ∈ rels (foldl (merge_rel_set t f) g rows)) as Hkeep.
  { intros rows'. induction rows' as [|sd rows' IH]; intros g r0 ? ?; simpl;
      [done|].
    apply IH; [done|]. by eapply merge_rel_set_keeps. }
  induction rows as [|sd rows IH]; intros g Hin; simpl.
  - by apply elem_of_nil in Hin.
  - apply elem_of_cons in Hin as [<-|Hin]; [|by apply IH].
    destruct (merge_rel_set_elem t f g (s, d)) as (r0 & Hr0 & Hin).
    exists r0. split; [done|]. by apply Hkeep.
Qed.

Lemma elem_of_cross x y (xs ys : list nat) :
  (x, y) ∈ cross xs ys ↔ x ∈ xs ∧ y ∈ ys.
Proof.
  unfold cross. rewrite list_elem_of_bind. split.
  - intros (x' & Hin & Hx'). apply list_elem_of_bind in Hin as (y' & Hin & Hy').
    apply list_elem_of_singleton in Hin. by simplify_eq.
  - intros [Hx Hy]. exists x. split; [|done].
    apply list_elem_of_bind. exists y. split; [|done].
    by apply list_elem_of_singleton.
Qed.

Lemma cross_nil_l ys : cross [] ys = [].
Proof. done. Qed.

Lemma cross_nil_r xs : cross xs [] = [].
Proof. unfold cross. induction xs as [|x xs IH]; [done|]. simpl. done. Qed.

(** ** Query clauses *)

Lemma filter_all {A} (P : A → Prop) `{∀ x, Decision (P x)} (l : list A) :
  Forall P l → filter P l = l.
Proof.
  induction 1 as [|x l Hx _ IH]; [done|].
  by rewrite filter_cons_True, IH.
Qed.

Lemma filter_none {A} (P : A → Prop) `{∀ x, Decision (P x)} (l : list A) :
  (∀ x, x ∈ l → ¬ P x) → filter P l = [].
Proof.
  induction l as [|x l IH]; intros Hl; [done|].
  rewrite filter_cons, decide_False by (apply Hl; left).
  apply IH. intros y Hy. apply Hl. by right.
Qed.

Lemma Forall_elem {A} (P : A → Prop) (l : list A) x :
  Forall P l → x ∈ l → P x.
Proof. rewrite Forall_forall. auto. Qed.

Lemma StronglySorted_mono {A} (R1 R2 : A → A → Prop) (l : list A) :
  (∀ x y, R1 x y → R2 x y) → StronglySorted R1 l → StronglySorted R2 l.
Proof.
  intros HR. induction 1 as [|x l _ IH Hx]; constructor; [done|].
  eapply Forall_impl; [done|]. auto.
Qed.

Section distinct.
Context `{EqDecision A}.
Implicit Types l : list A.

Lemma elem_of_distinct x l : x ∈ distinct l ↔ x ∈ l.
Proof.
  induction l as [|y l IH]; simpl; [done|].
  rewrite !elem_of_cons, list_elem_of_filter, IH.
  destruct (decide (x = y)) as [->|]; [split; intros _; by left|].
  split; [intros [?|[? ?]]|intros [?|?]]; auto.
Qed.

Lemma NoDup_distinct l : NoDup (distinct l).
Proof.
  induction l as [|y l IH]; simpl; [constructor|].
  constructor.
  - rewrite list_elem_of_filter. by intros [? _].
  - by apply NoDup_filter.
Qed.

Lemma distinct_NoDup l : NoDup l → distinct l = l.
Proof.
  induction 1 as [|x l Hx Hl IH]; simpl; [done|].
  rewrite IH. f_equal. apply filter_all.
  apply Forall_forall. intros y Hy ->. done.
Qed.
End distinct.

Section aggregate.
Context `{EqDecision K} {A B : Type} (key : A → K) (agg : list A → B).

Lemma aggregate_keys rows :
  (aggregate key agg rows).*1 = distinct (key <$> rows).
Proof.
  unfold aggregate, group_by. rewrite <- !list_fmap_compose.
  rewrite <- (list_fmap_id (distinct (key <$> rows))) at 2.
  by apply list_fmap_ext.
Qed.

Lemma NoDup_aggregate_keys rows : NoDup (aggregate key agg rows).*1.
Proof. rewrite aggregate_keys. apply NoDup_distinct. Qed.

Lemma elem_of_aggregate k b rows :
  (k, b) ∈ aggregate key agg rows ↔
  k ∈ key <$> rows ∧ b = agg (filter (λ a, key a = k) rows).
Proof.
  unfold aggregate, group_by. rewrite <- list_fmap_compose.
  rewrite list_elem_of_fmap. setoid_rewrite elem_of_distinct. simpl.
  split; [intros (k' & [= -> ->] & ?)|intros [? ->]]; eauto.
Qed.

Lemma aggregate_nil : aggregate key agg [] = [].
Proof. done. Qed.
End aggregate.

Section order_by.
Context {db : OrderBy} {A : Type}.
Implicit Types l : list A.

Lemma elem_of_order_by before x l : x ∈ order_by before l ↔ x ∈ l.
Proof. by rewrite order_by_Permutation. Qed.

Lemma elem_of_order_by_desc (key : A → Z) x l :
  x ∈ order_by_desc key l ↔ x ∈ l.
Proof. apply elem_of_order_by. Qed.

Lemma order_by_desc_Permutation (key : A → Z) l : order_by_desc key l ≡ₚ l.
Proof. apply order_by_Permutation. Qed.

Lemma order_by_nil before : order_by before ([] : list A) = [].
Proof. apply Permutation_nil_r. by rewrite order_by_Permutation. Qed.

Lemma order_by_desc_nil (key : A → Z) : order_by_desc key [] = [].
Proof. apply order_by_nil. Qed.

Lemma length_order_by before l : length (order_by before l) = length l.
Proof. by rewrite order_by_Permutation. Qed.

(** Rows with different keys come in one order only. *)
Lemma order_by_desc_two (key : A → Z) (a b : A) :
  key a < key b → order_by_desc key [a; b] = [b; a].
Proof.
  intros Hab.
  pose proof (order_by_desc_Permutation key [a; b]) as Hperm.
  pose proof (order_by_sorted (λ x y, bool_decide (key y ≤ key x)) [a; b])
    as Hsorted.
  fold (order_by_desc key [a; b]) in Hsorted.
  symmetry in Hperm. apply Permutation_length_2_inv in Hperm as [Heq|Heq];
    [|done].
  rewrite Heq in Hsorted. exfalso.
  assert (StronglySorted (λ x y, bool_decide (key y ≤ key x) = true) [a; b])
    as Hs.
  { apply Hsorted.
    - intros x y. rewrite !bool_decide_eq_true. lia.
    - intros x y z. rewrite !bool_decide_eq_true. lia. }
  apply StronglySorted_cons in Hs as [Hb _].
  apply Forall_cons in Hb as [Hb _]. apply bool_decide_eq_true in Hb. lia.
Qed.

Lemma order_by_desc_singleton (key : A → Z) (a : A) :
  order_by_desc key [a] = [a].
Proof.
  pose proof (order_by_desc_Permutation key [a]) as Hperm.
  symmetry in Hperm. by apply Permutation_singleton_l in Hperm.
Qed.

Lemma order_by_desc_desc (key : A → Z) l :
  StronglySorted (λ x y, key y ≤ key x) (order_by_desc key l).
Proof.
  eapply StronglySorted_mono;
    [|apply (order_by_sorted (λ x y, bool_decide (key y ≤ key x)) l)].
  - intros x y Hxy. by apply bool_decide_eq_true in Hxy.
  - intros a b. rewrite !bool_decide_eq_true. lia.
  - intros a b c. rewrite !bool_decide_eq_true. lia.
Qed.
End order_by.

Lemma cy_limit_ok {A} (n : Z) (rows : list A) :
  0 ≤ n → cy_limit n rows = inr (take (Z.to_nat n) rows).
Proof. intros ?. unfold cy_limit. by rewrite decide_False by lia. Qed.

Lemma cy_limit_inv {A} (n : Z) (rows top : list A) :
  cy_limit n rows = inr top → 0 ≤ n ∧ top = take (Z.to_nat n) rows.
Proof. unfold cy_limit. case_decide; [done|]. intros [= <-]. split; [lia|done]. Qed.

Lemma StronglySorted_take {A} (R : A → A → Prop) n (l : list A) :
  StronglySorted R l → StronglySorted R (take n l).
Proof.
  intros Hl. revert n. induction Hl as [|x l Hl IH Hx]; intros [|n]; simpl;
    try constructor; [by apply IH|].
  eapply Forall_forall. intros y Hy. eapply Forall_forall in Hx; [done|].
  apply elem_of_take in Hy as (i & Hi & _). by eapply list_elem_of_lookup_2.
Qed.

(** ** [mapM] over results *)

Lemma mapM_Result_cons {A B} (f : A → Result B) x l :
  mapM f (x :: l) = y ← f x; k ← mapM f l; mret (y :: k).
Proof. done. Qed.

Lemma mapM_Result_inv {A B} (f : A → Result B) l ys :
  mapM f l = inr ys → Forall2 (λ x y, f x = inr y) l ys.
Proof.
  revert ys. induction l as [|x l IH]; intros ys.
  - intros [= <-]. constructor.
  - rewrite mapM_Result_cons. destruct (f x) as [e|y] eqn:Hx; [done|]. simpl.
    destruct (mapM f l) as [e|k] eqn:Hl; [done|]. simpl.
    intros [= <-]. constructor; [done|]. by apply IH.
Qed.

Lemma mapM_Result_ok {A B} (f : A → Result B) l :
  Forall (λ x, ∃ y, f x = inr y) l → ∃ ys, mapM f l = inr ys.
Proof.
  induction 1 as [|x l [y Hy] _ [ys Hys]]; [by eexists|].
  exists (y :: ys). by rewrite mapM_Result_cons, Hy, Hys.
Qed.

Lemma mapM_Result_nil {A B} (f : A → Result B) : mapM f [] = inr [].
Proof. done. Qed.

(** ** Patterns *)

Lemma elem_of_expand_out g t l a r b :
  (r, b) ∈ expand_out g t l a ↔
  ∃ x, rels g !! r = Some x ∧ rsrc x = a ∧ rtype x = t ∧ rdst x = b
       ∧ has_label g l b = true.
Proof.
  unfold expand_out. rewrite list_elem_of_omap. split.
  - intros (o & Ho & Hid). simpl in Hid. subst o.
    apply elem_of_lookup_imap in Ho as (i & x & Heq & Hx).
    destruct (bool_decide (rsrc x = a ∧ rtype x = t) && has_label g l (rdst x))%bool
      eqn:Hc; [|done].
    simplify_eq. apply andb_true_iff in Hc as [Hc ?].
    apply bool_decide_eq_true in Hc as [? ?]. eauto 10.
  - intros (x & Hx & <- & <- & <- & Hl). exists (Some (r, rdst x)).
    split; [|done]. apply elem_of_lookup_imap. exists r, x.
    split; [|done]. rewrite Hl, bool_decide_eq_true_2; done.
Qed.

Lemma elem_of_expand_in g t l b r a :
  (r, a) ∈ expand_in g t l b ↔
  ∃ x, rels g !! r = Some x ∧ rsrc x = a ∧ rtype x = t ∧ rdst x = b
       ∧ has_label g l a = true.
Proof.
  unfold expand_in. rewrite list_elem_of_omap. split.
  - intros (o & Ho & Hid). simpl in Hid. subst o.
    apply elem_of_lookup_imap in Ho as (i & x & Heq & Hx).
    destruct (bool_decide (rdst x = b ∧ rtype x = t) && has_label g l (rsrc x))%bool
      eqn:Hc; [|done].
    simplify_eq. apply andb_true_iff in Hc as [Hc ?].
    apply bool_decide_eq_true in Hc as [? ?]. eauto 10.
  - intros (x & Hx & <- & <- & <- & Hl). exists (Some (r, rsrc x)).
    split; [|done]. apply elem_of_lookup_imap. exists r, x.
    split; [|done]. rewrite Hl, bool_decide_eq_true_2; done.
Qed.


Lemma purchases_no_order g c :
  expand_out g "PLACED" Order c = [] → purchases g c = [].
Proof. unfold purchases. by intros ->. Qed.

Lemma elem_of_labelled g l i :
  i ∈ labelled g l ↔ has_label g l i = true.
Proof.
  unfold labelled, has_label. rewrite elem_of_positions_0. split.
  - intros (n & -> & Hn). done.
  - destruct (nodes g !! i) as [n|]; [|done]. eauto.
Qed.

Lemma elem_of_match_node g l k i :
  i ∈ match_node l k g ↔
  ∃ n, nodes g !! i = Some n ∧ nlabel n = l ∧ nid n = k.
Proof.
  unfold match_node. rewrite elem_of_positions_0. unfold has_label_id.
  split; intros (n & Hn & H); exists n; split; try done.
  - by apply bool_decide_eq_true in H.
  - by apply bool_decide_eq_true.
Qed.

Lemma elem_of_with_category {A} g (rec : A → nat) (rows : list A) row cat :
  (row, cat) ∈ with_category g rec rows ↔
  row ∈ rows ∧ ∃ r, (r, cat) ∈ expand_out g "IN_CATEGORY" Category (rec row).
Proof.
  unfold with_category. rewrite list_elem_of_bind. split.
  - intros (row' & Hin & Hrow). apply list_elem_of_bind in Hin as ([r c] & Hin & Hc).
    apply list_elem_of_singleton in Hin. simplify_eq. eauto.
  - intros (Hrow & r & Hc). exists row. split; [|done].
    apply list_elem_of_bind. exists (r, cat). split; [|done].
    by apply list_elem_of_singleton.
Qed.

Lemma bind_nil_forall {A B} (f : A → list B) (l : list A) :
  (∀ x, x ∈ l → f x = []) → l ≫= f = [].
Proof.
  induction l as [|x l IH]; intros H; [done|]. simpl.
  rewrite (H x) by left. simpl. apply IH. intros y ?. apply H. by right.
Qed.

(** Joining the category keeps the order of the ranked rows. *)
Lemma with_category_sorted {A} g (rec : A → nat) (R : A → A → Prop)
    (rows : list A) :
  (∀ x, R x x) →
  StronglySorted R rows →
  StronglySorted (λ x y, R x.1 y.1) (with_category g rec rows).
Proof.
  intros Hrefl Hrows. unfold with_category.
  induction Hrows as [|row rows Hrows IH Hrow]; [constructor|].
  simpl.
  assert (∀ cats : list (nat * nat),
    StronglySorted (λ x y : A * nat, R x.1 y.1)
      ((cats ≫= λ cat, [(row, cat.2)]) ++
       (rows ≫= λ row0, expand_out g "IN_CATEGORY" Category (rec row0)
                          ≫= λ cat, [(row0, cat.2)]))) as Hcats.
  { induction cats as [|c cats IHc]; [done|]. simpl.
    constructor; [done|]. apply Forall_app. split.
    - apply Forall_forall. intros [row' c'] Hin. simpl.
      apply list_elem_of_bind in Hin as (? & Hin & _).
      apply list_elem_of_singleton in Hin. by simplify_eq.
    - apply Forall_forall. intros [row' c'] Hin. simpl.
      apply list_elem_of_bind in Hin as (row'' & Hin & Hrow'').
      apply list_elem_of_bind in Hin as (? & Hin & _).
      apply list_elem_of_singleton in Hin. simplify_eq.
      eapply Forall_forall in Hrow; done. }
  apply Hcats.
Qed.

(** ** Rankings *)

Section keyed_bind.
Context {B : Type} (key : B → nat) (f : nat → list B).
Hypothesis f_key : ∀ p x, x ∈ f p → key x = p.

Lemma filter_bind_key (ps : list nat) p :
  NoDup ps → p ∈ ps → filter (λ x, key x = p) (ps ≫= f) = f p.
Proof.
  assert (∀ q, q ≠ p → filter (λ x : B, key x = p) (f q) = []) as Hother.
  { intros q Hq.
    assert (Forall (λ x : B, key x = q) (f q)) as Hall
      by (apply Forall_forall; apply f_key).
    induction Hall as [|x l Hx _ IH]; [done|].
    rewrite filter_cons_False by congruence. done. }
  assert (∀ qs, p ∉ qs → filter (λ x : B, key x = p) (qs ≫= f) = [])
    as Hnone.
  { induction qs as [|q qs IH]; intros Hp; [done|].
    rewrite bind_cons, filter_app, IH by (intros ?; apply Hp; by right).
    rewrite Hother; [done|]. intros ->. apply Hp. by left. }
  induction 1 as [|q qs Hq Hqs IH]; intros Hp; [by apply elem_of_nil in Hp|].
  rewrite bind_cons, filter_app.
  apply elem_of_cons in Hp as [->|Hp].
  - rewrite Hnone, app_nil_r by done. apply filter_all.
    apply Forall_forall. apply f_key.
  - rewrite IH by done. rewrite Hother; [done|]. intros ->. done.
Qed.
End keyed_bind.

(** [sum(r.quantity)] over the relationships the pattern finds is the
    quantity sold. *)
Lemma sum_quantity_sold_from g p (pre suf : list Rel) :
  rels g = pre ++ suf →
  sum_quantity g
    (fst <$> omap id (imap (λ r x, if sold_by g p x
                                   then Some ((length pre + r)%nat, rsrc x)
                                   else None) suf))
  = foldr (λ x acc,
             (if sold_by g p x then default 0 (rquantity x) else 0) + acc)
          0 suf.
Proof.
  revert pre. induction suf as [|x suf IH]; intros pre Hg; [done|].
  rewrite imap_cons. simpl.
  specialize (IH (pre ++ [x])). rewrite <- (assoc_L (++)) in IH.
  specialize (IH Hg).
  erewrite imap_ext in IH.
  2:{ intros i y _. rewrite length_app. simpl.
      replace (length pre + 1 + i)%nat with (length pre + S i)%nat by lia.
      done. }
  destruct (sold_by g p x) eqn:Hx; simpl.
  - rewrite Hg, lookup_app_r by lia.
    replace (length pre + 0 - length pre)%nat with 0%nat by lia. simpl.
    f_equal. exact IH.
  - rewrite <- IH. done.
Qed.

Lemma sum_quantity_sold g p :
  sum_quantity g (fst <$> expand_in g "CONTAINS" Order p) = total_sold g p.
Proof. apply (sum_quantity_sold_from g p [] (rels g)). done. Qed.

Lemma expand_in_bind_fmap {B} g t l b (f : nat * nat → B) :
  (r ← expand_in g t l b; [f r]) = f <$> expand_in g t l b.
Proof. induction (expand_in g t l b) as [|x xs IH]; [done|]. simpl. by f_equal. Qed.

Lemma list_bind_singleton {A B} (f : A → B) (l : list A) :
  (x ← l; [f x]) = f <$> l.
Proof. induction l as [|x xs IH]; [done|]. simpl. by f_equal. Qed.

Section popular.
Context {db : OrderBy}.

(** The popularity ranking: one row per product node with a sale, carrying
    the quantity sold, in descending order. *)
Lemma popular_ranked_spec g :
  StronglySorted (λ x y : nat * Z, y.2 ≤ x.2) (popular_ranked g)
  ∧ NoDup (popular_ranked g).*1
  ∧ ∀ p s, (p, s) ∈ popular_ranked g ↔
           has_label g Product p = true
           ∧ expand_in g "CONTAINS" Order p ≠ []
           ∧ s = total_sold g p.
Proof.
  unfold popular_ranked.
  set (f := λ p : nat, r ← expand_in g "CONTAINS" Order p; [(p, r.1)]).
  assert (∀ p x, x ∈ f p → x.1 = p) as Hkey.
  { intros p x Hx. unfold f in Hx.
    apply list_elem_of_bind in Hx as (r & Hx & _).
    apply list_elem_of_singleton in Hx. by subst. }
  assert (∀ p, has_label g Product p = true →
      sum_quantity g (filter (λ a : nat * nat, a.1 = p)
                             (labelled g Product ≫= f)).*2
      = total_sold g p) as Hsum.
  { intros p Hp.
    rewrite (filter_bind_key fst f Hkey)
      by (apply positions_NoDup || by apply elem_of_labelled).
    unfold f. rewrite list_bind_singleton, <- list_fmap_compose.
    apply sum_quantity_sold. }
  split_and!.
  - apply order_by_desc_desc.
  - rewrite (order_by_desc_Permutation snd). apply NoDup_aggregate_keys.
  - intros p s. rewrite elem_of_order_by_desc, elem_of_aggregate. split.
    + intros [Hp ->].
      apply list_elem_of_fmap in Hp as ([p' r] & -> & Hp).
      apply list_elem_of_bind in Hp as (q & Hq & Hp).
      pose proof (Hkey _ _ Hq) as Hq'. simpl in Hq'. subst q.
      apply elem_of_labelled in Hp. simpl.
      split; [done|]. split; [|by apply Hsum].
      intros Hnil. unfold f in Hq. rewrite Hnil in Hq.
      by apply elem_of_nil in Hq.
    + intros (Hp & Hsold & ->). split; [|by rewrite Hsum].
      destruct (expand_in g "CONTAINS" Order p) as [|r rs] eqn:Hr; [done|].
      apply list_elem_of_fmap. exists (p, r.1). split; [done|].
      apply list_elem_of_bind. exists p. split; [|by apply elem_of_labelled].
      unfold f. rewrite Hr. simpl. left.
Qed.

End popular.

Lemma priced_product g p :
  priced g → has_label g Product p = true →
  ∃ x, py_float (nprice (node g p)) = inr x.
Proof.
  intros Hpriced Hp. unfold has_label in Hp.
  destruct (nodes g !! p) as [n|] eqn:Hn; [|done].
  apply bool_decide_eq_true in Hp.
  pose proof (Forall_elem _ _ _ Hpriced (list_elem_of_lookup_2 _ _ _ Hn) Hp)
    as [x Hx].
  unfold node. rewrite (list_lookup_total_correct _ _ _ Hn), Hx. by exists x.
Qed.

Lemma scored_ok g (rows : list (nat * Z * nat)) :
  priced g → Forall (λ row, has_label g Product row.1.1 = true) rows →
  ∃ items, mapM (scored g) rows = inr items
           ∧ Forall2 (λ row it,
                        product_id (item it) = nid (node g row.1.1)
                        ∧ product_name (item it) = nname (node g row.1.1)
                        ∧ category (item it) = nname (node g row.2)
                        ∧ score it = row.1.2) rows items.
Proof.
  intros Hpriced Hrows.
  destruct (mapM_Result_ok (scored g) rows) as [items Hitems].
  { eapply Forall_impl; [done|]. intros [[p s] c] Hp. simpl in Hp.
    destruct (priced_product g p Hpriced Hp) as [x Hx].
    unfold scored, product_info. simpl. rewrite Hx. by eexists. }
  exists items. split; [done|].
  apply mapM_Result_inv in Hitems.
  eapply Forall2_impl; [done|]. intros [[p s] c] it Hit.
  unfold scored, product_info in Hit. simpl in *.
  destruct (py_float (nprice (node g p))) as [e|x]; [done|].
  cbv [mbind Result_bind mret Result_ret] in Hit. by simplify_eq.
Qed.

Lemma Forall2_sorted {A B} (R1 : A → A → Prop) (R2 : B → B → Prop)
    (Q : A → B → Prop) (l : list A) (k : list B) :
  (∀ a1 a2 b1 b2, R1 a1 a2 → Q a1 b1 → Q a2 b2 → R2 b1 b2) →
  StronglySorted R1 l → Forall2 Q l k → StronglySorted R2 k.
Proof.
  intros HR Hl HF. revert Hl.
  induction HF as [|a b l k Hab HF IH]; intros Hl; [constructor|].
  apply StronglySorted_cons in Hl as [Ha Hl].
  constructor; [by apply IH|].
  apply Forall_forall. intros b' Hb'.
  apply list_elem_of_lookup in Hb' as [i Hi].
  destruct (Forall2_lookup_r _ _ _ _ _ HF Hi) as (a' & Ha' & Hq).
  eapply HR; [|done..].
  eapply Forall_elem; [done|]. by eapply list_elem_of_lookup_2.
Qed.

Lemma with_category_has_label g (top : list (nat * Z)) :
  Forall (λ x, has_label g Product x.1 = true) top →
  Forall (λ row : nat * Z * nat, has_label g Product row.1.1 = true)
         (with_category g fst top).
Proof.
  intros Htop. apply Forall_forall. intros [row c] Hin.
  apply elem_of_with_category in Hin as [Hin _].
  exact (Forall_elem _ _ _ Htop Hin).
Qed.

Lemma Forall_take {A} (P : A → Prop) n (l : list A) :
  Forall P l → Forall P (take n l).
Proof.
  intros Hl. apply Forall_forall. intros x Hx.
  apply elem_of_take in Hx as (i & Hi & _).
  eapply Forall_elem; [done|]. by eapply list_elem_of_lookup_2.
Qed.

(** ** Unique identifiers *)

Lemma NoDup_all_eq {A} (x : A) (l : list A) :
  NoDup l → x ∈ l → (∀ y, y ∈ l → y = x) → l = [x].
Proof.
  intros Hnd Hx Hall. destruct l as [|y l]; [by apply elem_of_nil in Hx|].
  assert (y = x) as -> by (apply Hall; left).
  f_equal. destruct l as [|z l]; [done|].
  assert (z = x) as -> by (apply Hall; right; left).
  apply NoDup_cons in Hnd as [Hnd _]. exfalso. apply Hnd. left.
Qed.

Lemma unique_ids_lookup g i j n m :
  unique_ids g → nodes g !! i = Some n → nodes g !! j = Some m →
  node_key n = node_key m → i = j.
Proof.
  intros Hu Hi Hj Hk.
  eapply (NoDup_lookup _ i j (node_key n) Hu).
  - by rewrite list_lookup_fmap, Hi.
  - by rewrite list_lookup_fmap, Hj, Hk.
Qed.

Lemma unique_match g l k x :
  unique_ids g → x ∈ match_node l k g → match_node l k g = [x].
Proof.
  intros Hu Hx. apply NoDup_all_eq; [apply positions_NoDup|done|].
  intros y Hy.
  apply elem_of_match_node in Hx as (n & Hn & Hl & Hk).
  apply elem_of_match_node in Hy as (m & Hm & Hl' & Hk').
  eapply unique_ids_lookup; [done..|]. unfold node_key. congruence.
Qed.

Lemma has_label_lt g l i : has_label g l i = true → (i < length (nodes g))%nat.
Proof.
  unfold has_label. destruct (nodes g !! i) eqn:Hi; [|done].
  intros _. by eapply lookup_lt_Some.
Qed.

Lemma has_label_node g l i : has_label g l i = true → nlabel (node g i) = l.
Proof.
  unfold has_label, node. destruct (nodes g !! i) as [n|] eqn:Hi; [|done].
  intros H%bool_decide_eq_true. by rewrite (list_lookup_total_correct _ _ _ Hi).
Qed.

Lemma match_node_of_label g l i :
  has_label g l i = true → i ∈ match_node l (nid (node g i)) g.
Proof.
  intros H. apply elem_of_match_node.
  unfold has_label, node in *. destruct (nodes g !! i) as [n|] eqn:Hi; [|done].
  apply bool_decide_eq_true in H. exists n.
  by rewrite (list_lookup_total_correct _ _ _ Hi).
Qed.

(** ** Co-occurrence *)

Lemma contains_spec g o p :
  contains g o p = true ↔
  ∃ r x, rels g !! r = Some x ∧ rsrc x = o ∧ rtype x = "CONTAINS" ∧ rdst x = p.
Proof.
  unfold contains. rewrite existsb_exists. split.
  - intros (x & Hx & Hrel). apply list_elem_of_In, list_elem_of_lookup in Hx as [r Hr].
    apply bool_decide_eq_true in Hrel as (? & ? & ?). eauto 10.
  - intros (r & x & Hr & ? & ? & ?). exists x. split.
    + apply list_elem_of_In. by eapply list_elem_of_lookup_2.
    + by apply bool_decide_eq_true.
Qed.

(** The rows of the co-occurrence pattern for the one node [x] with the
    given identifier. *)
Lemma together_pairs g x rec o :
  (rec, o) ∈ (o ← expand_in g "CONTAINS" Order x;
              rec ← expand_out g "CONTAINS" Product o.2;
              if decide (rec.1 ≠ o.1 ∧ rec.2 ≠ x) then [(rec.2, o.2)] else [])
  ↔ has_label g Order o = true ∧ contains g o x = true
    ∧ has_label g Product rec = true ∧ contains g o rec = true ∧ rec ≠ x.
Proof.
  rewrite list_elem_of_bind. split.
  - intros ([r1 o'] & Hin & Ho).
    apply list_elem_of_bind in Hin as ([r2 rec'] & Hin & Hrec).
    simpl in *. case_decide as Hc; [|by apply elem_of_nil in Hin].
    apply list_elem_of_singleton in Hin. simplify_eq.
    apply elem_of_expand_in in Ho as (x1 & Hx1 & ? & ? & ? & ?).
    apply elem_of_expand_out in Hrec as (x2 & Hx2 & ? & ? & ? & ?).
    destruct Hc as [_ Hne]. split_and!; try done.
    + apply contains_spec. eauto 10.
    + apply contains_spec. eauto 10.
  - intros (Ho & [r1 (x1 & Hx1 & ? & ? & ?)]%contains_spec & Hrec &
            [r2 (x2 & Hx2 & ? & ? & ?)]%contains_spec & Hne).
    exists (r1, o). split.
    + apply list_elem_of_bind. exists (r2, rec). simpl. split.
      * rewrite decide_True; [left|]. split; [|done].
        intros ->. congruence.
      * apply elem_of_expand_out. eauto 10.
    + apply elem_of_expand_in. eauto 10.
Qed.

Lemma NoDup_common_orders g p q : NoDup (common_orders g p q).
Proof. apply NoDup_filter, NoDup_seq. Qed.

Lemma elem_of_common_orders g p q o :
  o ∈ common_orders g p q ↔
  has_label g Order o = true ∧ contains g o p = true ∧ contains g o q = true.
Proof.
  unfold common_orders. rewrite list_elem_of_filter, elem_of_seq. split.
  - by intros [? _].
  - intros (Ho & ? & ?). split; [done|]. apply has_label_lt in Ho. lia.
Qed.

Section together.
Context {db : OrderBy}.

(** The co-occurrence ranking when the identifier names the node [x]. *)
Lemma together_ranked_spec g k x :
  match_node Product k g = [x] →
  ∀ rec s, (rec, s) ∈ together_ranked g k ↔
           has_label g Product rec = true ∧ rec ≠ x
           ∧ common_orders g x rec ≠ []
           ∧ s = Z.of_nat (length (common_orders g x rec)).
Proof.
  intros Hx rec s. unfold together_ranked.
  rewrite Hx, bind_cons, app_nil_r.
  set (pairs := o ← expand_in g "CONTAINS" Order x; _).
  assert (∀ rec, has_label g Product rec = true → rec ≠ x →
            distinct (filter (λ a : nat * nat, a.1 = rec) pairs).*2
            ≡ₚ common_orders g x rec) as Hperm.
  { intros rec' Hrec Hne.
    apply NoDup_Permutation; [apply NoDup_distinct|apply NoDup_common_orders|].
    intros o. rewrite elem_of_distinct, elem_of_common_orders, list_elem_of_fmap.
    split.
    - intros ([rec'' o'] & -> & Hin). apply list_elem_of_filter in Hin as [Heq Hin].
      simpl in Heq. subst.
      apply together_pairs in Hin as (? & ? & ? & ? & ?). done.
    - intros (Ho & H1 & H2). exists (rec', o). split; [done|].
      apply list_elem_of_filter. split; [done|]. by apply together_pairs. }
  rewrite elem_of_order_by_desc, elem_of_aggregate. split.
  - intros [Hin ->].
    apply list_elem_of_fmap in Hin as ([rec' o] & -> & Hin). simpl.
    pose proof (proj1 (together_pairs g x rec' o) Hin) as (Ho & H1 & Hrec & H2 & Hne).
    split; [done|]. split; [done|]. split.
    + intros Hnil. assert (o ∈ common_orders g x rec') as Hin'
        by by apply elem_of_common_orders.
      rewrite Hnil in Hin'. by apply elem_of_nil in Hin'.
    + unfold count_distinct. by rewrite Hperm.
  - intros (Hrec & Hne & Hsome & ->). split.
    + destruct (common_orders g x rec) as [|o os] eqn:Hos; [done|].
      assert (o ∈ common_orders g x rec) as Hin by (rewrite Hos; left).
      apply elem_of_common_orders in Hin as (? & ? & ?).
      apply list_elem_of_fmap. exists (rec, o). split; [done|].
      by apply together_pairs.
    + unfold count_distinct. by rewrite Hperm.
Qed.

Lemma together_ranked_absent g k :
  match_node Product k g = [] → together_ranked g k = [].
Proof.
  intros Hm. unfold together_ranked. rewrite Hm. apply order_by_desc_nil.
Qed.

Lemma together_ranked_keys g k : NoDup (together_ranked g k).*1.
Proof.
  unfold together_ranked.
  rewrite (order_by_desc_Permutation snd). apply NoDup_aggregate_keys.
Qed.

End together.

(** ** Collaborative filtering *)

Lemma distinct_const `{EqDecision A} (k : A) (l : list A) :
  l ≠ [] → (∀ x, x ∈ l → x = k) → distinct l = [k].
Proof.
  intros Hne Hall. apply NoDup_all_eq; [apply NoDup_distinct| |].
  - apply elem_of_distinct. destruct l as [|x l]; [done|].
    rewrite <- (Hall x) by left. left.
  - intros y Hy. apply Hall. by apply elem_of_distinct.
Qed.

Lemma aggregate_const_key `{EqDecision K} {A B} (key : A → K)
    (agg : list A → B) (rows : list A) (k : K) :
  rows ≠ [] → (∀ x, x ∈ rows → key x = k) →
  aggregate key agg rows = [(k, agg rows)].
Proof.
  intros Hne Hall. unfold aggregate, group_by.
  rewrite (distinct_const k).
  - simpl. rewrite filter_all; [done|]. by apply Forall_forall.
  - by destruct rows.
  - intros x (y & -> & Hy)%list_elem_of_fmap. by apply Hall.
Qed.






Section overlaps.
Context (g : Graph) (c : nat).



End overlaps.


Section collaborative.
Context {db : OrderBy}.


Lemma take_top {A} (R : A → A → Prop) n (l : list A) x y :
  StronglySorted R l → y ∈ take n l → x ∈ l → x ∉ take n l → R y x.
Proof.
  intros Hl Hy Hx Hnx. rewrite <- (take_drop n l) in Hl, Hx.
  apply elem_of_app in Hx as [Hx|Hx]; [done|].
  by eapply StronglySorted_app_1_elem_of.
Qed.

Lemma NoDup_take {A} n (l : list A) : NoDup l → NoDup (take n l).
Proof. intros Hl. eapply sublist_NoDup; [done|apply sublist_take]. Qed.







End collaborative.

(** ** The first rows of a ranking *)

(** A ranking has one row for each candidate that qualifies, with its
    score, in descending order of score.  Its first [n] rows are [n]
    of the candidates that qualify, or all of them when they are fewer,
    and no candidate left out has a larger score than one taken. *)
Lemma take_ranking (P : nat → Prop) `{∀ p, Decision (P p)} (score : nat → Z)
    (cands : list nat) (ranked : list (nat * Z)) (n : nat) :
  NoDup cands →
  NoDup ranked.*1 →
  StronglySorted (λ x y : nat * Z, y.2 ≤ x.2) ranked →
  (∀ p s, (p, s) ∈ ranked ↔ p ∈ cands ∧ P p ∧ s = score p) →
  NoDup (take n ranked).*1
  ∧ length (take n ranked) = (n `min` length (filter P cands))%nat
  ∧ Forall (λ x, x.1 ∈ cands ∧ P x.1 ∧ x.2 = score x.1) (take n ranked)
  ∧ StronglySorted (λ x y : nat * Z, y.2 ≤ x.2) (take n ranked)
  ∧ (∀ p, p ∈ cands → P p → p ∉ (take n ranked).*1 →
          Forall (λ x, score p ≤ x.2) (take n ranked)).
Proof.
  intros Hcands Hnd Hsorted Hspec. split_and!.
  - rewrite fmap_take. by apply NoDup_take.
  - rewrite length_take. f_equal.
    rewrite <- (length_fmap fst ranked).
    apply Permutation_length, NoDup_Permutation;
      [done|by apply NoDup_filter|].
    intros p. rewrite list_elem_of_fmap, list_elem_of_filter. split.
    + intros ([p' s] & -> & Hin). apply Hspec in Hin as (? & ? & _). done.
    + intros [HP Hin]. exists (p, score p). split; [done|]. by apply Hspec.
  - apply Forall_take, Forall_forall. intros [p s] Hin. by apply Hspec.
  - by apply StronglySorted_take.
  - intros p Hin HP Hnot. apply Forall_forall. intros y Hy.
    apply (take_top (λ a b : nat * Z, b.2 ≤ a.2) n ranked (p, score p) y
             Hsorted Hy).
    + by apply Hspec.
    + intros Hin'. apply Hnot. apply list_elem_of_fmap. by exists (p, score p).
Qed.

(** The rows of the category join carry the scores in the order of the
    ranking. *)
Lemma scored_sorted g (top : list (nat * Z)) items :
  StronglySorted (λ x y : nat * Z, y.2 ≤ x.2) top →
  Forall2 (λ row it, product_id (item it) = nid (node g row.1.1)
                     ∧ product_name (item it) = nname (node g row.1.1)
                     ∧ category (item it) = nname (node g row.2)
                     ∧ score it = row.1.2)
          (with_category g fst top) items →
  StronglySorted (λ a b, score b ≤ score a) items.
Proof.
  intros Htop HF.
  assert (StronglySorted (λ r1 r2 : nat * Z * nat, r2.1.2 ≤ r1.1.2)
            (with_category g fst top)) as Hsorted.
  { apply (with_category_sorted g fst (λ x y : nat * Z, y.2 ≤ x.2));
      [intros; lia|done]. }
  eapply (Forall2_sorted _ _ _ _ _ _ Hsorted HF).
  Unshelve.
  intros [[p1 s1] c1] [[p2 s2] c2] b1 b2 Hr (_ & _ & _ & ->) (_ & _ & _ & ->).
  done.
Qed.

Lemma cy_limit_negative {A} (n : Z) (rows : list A) :
  n < 0 → cy_limit n rows = inl ClientError.
Proof. intros ?. unfold cy_limit. by rewrite decide_True by lia. Qed.

(** * The loader as merge operations *)

(** ** Pointwise updates *)

Lemma update_where_app {A} (p : A → bool) f (l1 l2 : list A) :
  update_where p f (l1 ++ l2) = update_where p f l1 ++ update_where p f l2.
Proof. apply fmap_app. Qed.

Lemma update_where_length {A} (p : A → bool) f (l : list A) :
  length (update_where p f l) = length l.
Proof. apply length_fmap. Qed.

Lemma update_where_lookup {A} (p : A → bool) f (l : list A) i :
  update_where p f l !! i = (λ x, if p x then f x else x) <$> l !! i.
Proof. apply list_lookup_fmap. Qed.

Lemma update_where_ext {A} (p q : A → bool) f (l : list A) :
  (∀ x, x ∈ l → p x = q x) → update_where p f l = update_where q f l.
Proof.
  intros H. apply list_fmap_ext. intros i x Hx.
  by rewrite (H x) by by eapply list_elem_of_lookup_2.
Qed.

Lemma update_where_false {A} (p : A → bool) f (l : list A) :
  (∀ x, x ∈ l → p x = false) → update_where p f l = l.
Proof. intros H. apply update_where_none. by apply positions_nil. Qed.

Lemma positions_update_where {A} (q p : A → bool) f i (l : list A) :
  (∀ x, q (f x) = q x) →
  positions q i (update_where p f l) = positions q i l.
Proof.
  intros Hq. unfold update_where. rewrite positions_fmap.
  apply positions_ext. intros x _. simpl. destruct (p x); [apply Hq|done].
Qed.

(** ** Patterns and keys *)

Lemma keeps_key_has_label_id f l k n :
  keeps_key f → has_label_id l k (f n) = has_label_id l k n.
Proof. intros Hf. unfold has_label_id. by destruct (Hf n) as [-> ->]. Qed.

Lemma keeps_key_node_key f n : keeps_key f → node_key (f n) = node_key n.
Proof. intros Hf. unfold node_key. by destruct (Hf n) as [-> ->]. Qed.

Lemma keeps_key_compose f1 f2 :
  keeps_key f1 → keeps_key f2 → keeps_key (f1 ∘ f2).
Proof.
  intros H1 H2 n. simpl. destruct (H1 (f2 n)) as [-> ->]. apply H2.
Qed.

Lemma set_nname_keeps_key v : keeps_key (set_nname v).
Proof. by intros []. Qed.
Lemma set_nprice_keeps_key v : keeps_key (set_nprice v).
Proof. by intros []. Qed.
Lemma set_njoin_date_keeps_key v : keeps_key (set_njoin_date v).
Proof. by intros []. Qed.
Lemma set_nts_keeps_key v : keeps_key (set_nts v).
Proof. by intros []. Qed.

Lemma keeps_ends_id : keeps_ends (λ r, r).
Proof. done. Qed.

Lemma keeps_ends_rel_key f r : keeps_ends f → rel_key (f r) = rel_key r.
Proof. intros Hf. unfold rel_key. by destruct (Hf r) as (-> & -> & ->). Qed.

Lemma has_label_id_node_key l k n :
  has_label_id l k n = true ↔ node_key n = (l, k).
Proof.
  unfold has_label_id, node_key. rewrite bool_decide_eq_true.
  split; [by intros [-> ->]|by intros [= -> ->]].
Qed.

Lemma node_matches_elem g pat i :
  node_matches g pat i = true ↔ i ∈ match_node_param pat.1 pat.2 g.
Proof.
  unfold node_matches, pattern_matches, match_node_param.
  destruct pat as [l [k|]]; simpl.
  - rewrite elem_of_match_node. unfold has_label_id. split.
    + destruct (nodes g !! i) as [n|]; [|done].
      intros H%bool_decide_eq_true. eauto.
    + intros (n & -> & ? & ?). by apply bool_decide_eq_true.
  - split; [by destruct (nodes g !! i)|by intros ?%elem_of_nil].
Qed.

Lemma node_matches_lt g pat i :
  node_matches g pat i = true → (i < length (nodes g))%nat.
Proof.
  unfold node_matches. destruct (nodes g !! i) eqn:Hi; [|done].
  intros _. by eapply lookup_lt_Some.
Qed.

Lemma unique_match_param g pat :
  unique_ids g →
  match_node_param pat.1 pat.2 g = []
  ∨ ∃ x, match_node_param pat.1 pat.2 g = [x].
Proof.
  intros Hu. destruct pat as [l [k|]]; simpl; [|by left].
  destruct (match_node l k g) as [|x xs] eqn:Hm; [by left|right].
  exists x. rewrite <- Hm. apply unique_match; [done|]. rewrite Hm. left.
Qed.

(** ** The clauses of one statement *)

Lemma merge_node_ensure l k f g :
  merge_node l k g
  = (ensure_node (mkOp (Some (l, k, f)) None) g,
     match_node l k (ensure_node (mkOp (Some (l, k, f)) None) g)).
Proof.
  unfold merge_node, ensure_node. simpl.
  destruct (match_node l k g) as [|x xs] eqn:Hm.
  - rewrite decide_True by done. f_equal.
    unfold match_node in *. simpl. rewrite positions_app, Hm. simpl.
    unfold has_label_id, new_node. simpl.
    by rewrite bool_decide_eq_true_2.
  - rewrite decide_False by done. by rewrite Hm.
Qed.

Lemma set_matched_nodes l k f g :
  foldl (set_node f) g (match_node l k g)
  = mkGraph (update_where (has_label_id l k) f (nodes g)) (rels g).
Proof. rewrite foldl_set_node. unfold match_node. by rewrite set_positions. Qed.

Lemma match_node_update l k p f g rs :
  keeps_key f →
  match_node l k (mkGraph (update_where p f (nodes g)) rs) = match_node l k g.
Proof.
  intros Hf. unfold match_node. simpl. apply positions_update_where.
  intros n. by apply keeps_key_has_label_id.
Qed.

Lemma match_node_param_update l k p f g rs :
  keeps_key f →
  match_node_param l k (mkGraph (update_where p f (nodes g)) rs)
  = match_node_param l k g.
Proof. intros Hf. destruct k; [by apply match_node_update|done]. Qed.

Lemma merge_rel_fst t g sd :
  (merge_rel t g sd).1 = merge_rel_set t (λ r, r) g sd.
Proof.
  unfold merge_rel_set. destruct (merge_rel t g sd) as [g1 rs]. simpl.
  rewrite foldl_set_rel. destruct g1 as [ns rls]. simpl. f_equal.
  induction rs as [|r rs IH] in rls |- *; [done|]. simpl.
  by rewrite list_alter_id.
Qed.

Lemma foldl_ext_eq {A B} (f1 f2 : A → B → A) (a : A) (l : list B) :
  (∀ a b, f1 a b = f2 a b) → foldl f1 a l = foldl f2 a l.
Proof.
  intros H. revert a. induction l as [|b l IH]; intros a; simpl; [done|].
  by rewrite H, IH.
Qed.

(** ** What depends on the keys only *)

Lemma match_node_as_keys l k g :
  match_node l k g
  = positions (λ key, bool_decide (key = (l, k))) 0 (keys g).
Proof.
  unfold match_node, keys. rewrite positions_fmap.
  apply positions_ext. intros n _. simpl. unfold has_label_id, node_key.
  apply bool_decide_ext. split; [by intros [-> ->]|by intros [= -> ->]].
Qed.

Lemma match_node_keys l k g g' :
  keys g = keys g' → match_node l k g = match_node l k g'.
Proof. intros H. by rewrite !match_node_as_keys, H. Qed.

Lemma match_node_param_keys l k g g' :
  keys g = keys g' → match_node_param l k g = match_node_param l k g'.
Proof. intros H. destruct k; [by apply match_node_keys|done]. Qed.

Lemma pattern_matches_key pat n n' :
  node_key n = node_key n' → pattern_matches pat n = pattern_matches pat n'.
Proof.
  unfold pattern_matches, has_label_id, node_key. intros [= -> ->].
  by destruct pat.2.
Qed.

Lemma node_matches_keys g g' pat i :
  keys g = keys g' → node_matches g pat i = node_matches g' pat i.
Proof.
  intros H. unfold node_matches.
  assert (node_key <$> nodes g !! i = node_key <$> nodes g' !! i) as Hi.
  { unfold keys in H. by rewrite <- !list_lookup_fmap, H. }
  destruct (nodes g !! i) as [n|], (nodes g' !! i) as [n'|]; simplify_eq/=;
    [|done].
  apply pattern_matches_key. unfold node_key. congruence.
Qed.

Lemma link_targets_keys g g' lk r :
  keys g = keys g' → link_targets g lk r = link_targets g' lk r.
Proof.
  intros H. unfold link_targets.
  by rewrite !(node_matches_keys g g' _ _ H).
Qed.


Lemma positions_is_rel s t d (rs : list Rel) :
  positions (is_rel s t d) 0 rs
  = positions (λ key, bool_decide (key = (s, t, d))) 0 (rel_key <$> rs).
Proof.
  rewrite positions_fmap. apply positions_ext. intros r _. simpl.
  unfold is_rel, rel_key. apply bool_decide_ext.
  split; [by intros (-> & -> & ->)|by intros [= -> -> ->]].
Qed.

(** ** Writes keep the shape *)

Lemma node_upd_key op n : op_ok op → node_key (node_upd op n) = node_key n.
Proof.
  intros [Hn _]. unfold node_upd.
  destruct (op_node op) as [[[l k] f]|] eqn:Hop; [|done].
  destruct (has_label_id l k n); [|done].
  apply keeps_key_node_key. by eapply Hn.
Qed.

Lemma rel_upd_key g op r : op_ok op → rel_key (rel_upd g op r) = rel_key r.
Proof.
  intros [_ Hl]. unfold rel_upd.
  destruct (op_link op) as [lk|] eqn:Hop; [|done].
  destruct (link_targets g lk r); [|done].
  apply keeps_ends_rel_key. by apply Hl.
Qed.

Lemma keys_act op g : op_ok op → keys (act op g) = keys g.
Proof.
  intros Hok. unfold keys, act. simpl. rewrite <- list_fmap_compose.
  apply list_fmap_ext. intros i n _. simpl. by apply node_upd_key.
Qed.

Lemma rel_keys_act op g :
  op_ok op → rel_key <$> rels (act op g) = rel_key <$> rels g.
Proof.
  intros Hok. unfold act. simpl. rewrite <- list_fmap_compose.
  apply list_fmap_ext. intros i n _. simpl. by apply rel_upd_key.
Qed.

Lemma length_nodes_act op g : length (nodes (act op g)) = length (nodes g).
Proof. unfold act. simpl. apply length_fmap. Qed.

Lemma unique_ids_keys g g' : keys g = keys g' → unique_ids g → unique_ids g'.
Proof. unfold unique_ids, keys. by intros <-. Qed.

Lemma unique_ids_act op g : op_ok op → unique_ids g → unique_ids (act op g).
Proof. intros Hok. apply unique_ids_keys. by rewrite keys_act. Qed.


Lemma ends_valid_act op g : op_ok op → ends_valid g → ends_valid (act op g).
Proof.
  intros Hok Hg. unfold ends_valid. rewrite length_nodes_act.
  unfold act. simpl. apply Forall_fmap. eapply Forall_impl; [done|].
  intros r Hr. simpl. pose proof (rel_upd_key g op r Hok) as Hk.
  unfold rel_key in Hk. injection Hk as Hs Ht Hd. by rewrite Hs, Hd.
Qed.

Lemma saturated_shape op g g' :
  keys g = keys g' → rel_key <$> rels g = rel_key <$> rels g' →
  saturated op g → saturated op g'.
Proof.
  intros Hk Hr [Hn Hl]. split.
  - intros l k f Hop. rewrite <- (match_node_keys l k g g' Hk). by eapply Hn.
  - intros lk s d Hop Hs Hd.
    rewrite positions_is_rel, <- Hr, <- positions_is_rel.
    apply Hl; [done|..]; by rewrite (node_matches_keys g g' _ _ Hk).
Qed.

Lemma saturated_act x op g : op_ok x → saturated op g → saturated op (act x g).
Proof.
  intros Hok. apply saturated_shape; symmetry;
    [by apply keys_act|by apply rel_keys_act].
Qed.

(** ** What a statement creates *)

Lemma ensure_node_cases op g :
  ensure_node op g = g
  ∨ ∃ l k f, op_node op = Some (l, k, f) ∧ match_node l k g = []
             ∧ ensure_node op g = mkGraph (nodes g ++ [new_node l k]) (rels g).
Proof.
  unfold ensure_node. destruct (op_node op) as [[[l k] f]|]; [|by left].
  case_decide; [|by left]. right. eauto 10.
Qed.

Lemma ensure_link_cases op g :
  ensure_link op g = g
  ∨ ∃ lk s d, op_link op = Some lk
              ∧ s ∈ match_node_param (lk_src lk).1 (lk_src lk).2 g
              ∧ d ∈ match_node_param (lk_dst lk).1 (lk_dst lk).2 g
              ∧ positions (is_rel s (lk_type lk) d) 0 (rels g) = []
              ∧ ensure_link op g
                = mkGraph (nodes g) (rels g ++ [new_rel s (lk_type lk) d]).
Proof.
  unfold ensure_link. destruct (op_link op) as [lk|]; [|by left].
  destruct (match_node_param (lk_src lk).1 _ g) as [|s ss] eqn:Hs;
    [by left|].
  destruct (match_node_param (lk_dst lk).1 _ g) as [|d ds] eqn:Hd;
    [by left|].
  case_decide; [|by left]. right. exists lk, s, d.
  rewrite Hs, Hd. split_and!; try done; left.
Qed.

Lemma nodes_ensure_link op g : nodes (ensure_link op g) = nodes g.
Proof.
  destruct (ensure_link_cases op g) as [->|(? & ? & ? & _ & _ & _ & _ & ->)];
    done.
Qed.

Lemma match_node_app_new l k g n rs :
  match_node l k (mkGraph (nodes g ++ [n]) rs)
  = match_node l k g
    ++ if has_label_id l k n then [length (nodes g)] else [].
Proof.
  unfold match_node. simpl. rewrite positions_app. simpl.
  by destruct (has_label_id l k n).
Qed.

Lemma match_node_none_key l k g :
  match_node l k g = [] → (l, k) ∉ keys g.
Proof.
  rewrite match_node_as_keys. intros H Hin.
  pose proof (proj1 (positions_nil _ _ _) H _ Hin) as Hf. simpl in Hf.
  by rewrite bool_decide_eq_true_2 in Hf.
Qed.

Lemma unique_ids_ensure op g : unique_ids g → unique_ids (ensure op g).
Proof.
  intros Hu. unfold ensure.
  apply (unique_ids_keys (ensure_node op g));
    [unfold keys; by rewrite nodes_ensure_link|].
  destruct (ensure_node_cases op g) as [->|(l & k & f & _ & Hm & ->)]; [done|].
  unfold unique_ids. simpl. rewrite fmap_app. apply NoDup_app.
  split; [done|]. split; [|apply NoDup_singleton].
  intros key Hkey ->%list_elem_of_singleton.
  by apply (match_node_none_key l k g Hm).
Qed.

Lemma ends_valid_ensure op g : ends_valid g → ends_valid (ensure op g).
Proof.
  intros Hg. unfold ensure.
  assert (ends_valid (ensure_node op g)) as Hg1.
  { destruct (ensure_node_cases op g) as [->|(l & k & f & _ & _ & ->)];
      [done|].
    unfold ends_valid. simpl. rewrite length_app. simpl.
    eapply Forall_impl; [done|]. intros r [? ?]. simpl. lia. }
  destruct (ensure_link_cases op (ensure_node op g))
    as [->|(lk & s & d & _ & Hs & Hd & _ & ->)]; [done|].
  unfold ends_valid. simpl. apply Forall_app. split; [done|].
  apply Forall_singleton. simpl.
  apply node_matches_elem, node_matches_lt in Hs.
  apply node_matches_elem, node_matches_lt in Hd. done.
Qed.


Lemma wf_graph_ensure op g : wf_graph g → wf_graph (ensure op g).
Proof.
  intros [? ?]. split; [by apply unique_ids_ensure|by apply ends_valid_ensure].
Qed.

Lemma wf_graph_act op g : op_ok op → wf_graph g → wf_graph (act op g).
Proof.
  intros ? [? ?]. split; [by apply unique_ids_act|by apply ends_valid_act].
Qed.

Lemma wf_graph_apply_op op g : op_ok op → wf_graph g → wf_graph (apply_op op g).
Proof. intros ? ?. by apply wf_graph_act, wf_graph_ensure. Qed.

(** ** Saturation *)


Lemma ensure_saturates op g : unique_ids g → saturated op (ensure op g).
Proof.
  intros Hu. unfold ensure. set (g1 := ensure_node op g).
  assert (unique_ids g1) as Hu1.
  { pose proof (unique_ids_ensure (mkOp (op_node op) None) g Hu) as H.
    unfold ensure, ensure_link in H. simpl in H.
    unfold g1, ensure_node in *. simpl in H. done. }
  assert (∀ l k f, op_node op = Some (l, k, f) → match_node l k g1 ≠ [])
    as Hnode.
  { intros l k f Hop. unfold g1, ensure_node. rewrite Hop.
    case_decide as Hm; [|done].
    rewrite match_node_app_new, Hm. unfold has_label_id, new_node. simpl.
    by rewrite bool_decide_eq_true_2. }
  split.
  - intros l k f Hop.
    rewrite (match_node_keys l k _ g1)
      by (unfold keys; by rewrite nodes_ensure_link).
    by eapply Hnode.
  - intros lk s d Hop Hs Hd.
    rewrite (node_matches_keys _ g1) in Hs, Hd
      by (unfold keys; by rewrite nodes_ensure_link).
    apply node_matches_elem in Hs, Hd.
    unfold ensure_link. rewrite Hop.
    destruct (unique_match_param g1 (lk_src lk) Hu1) as [Hs'|[s' Hs']];
      rewrite Hs' in Hs |- *; [by apply elem_of_nil in Hs|].
    destruct (unique_match_param g1 (lk_dst lk) Hu1) as [Hd'|[d' Hd']];
      rewrite Hd' in Hd |- *; [by apply elem_of_nil in Hd|].
    apply list_elem_of_singleton in Hs, Hd. subst s' d'.
    case_decide as Hnone; [|done]. simpl.
    rewrite positions_app, Hnone. simpl.
    unfold is_rel, new_rel. simpl. by rewrite bool_decide_eq_true_2.
Qed.

(** ** Creations of later statements and earlier statements *)








(** ** Creating after writing is writing after creating *)



Lemma ensure_link_act x y g :
  op_ok x → saturated x g →
  ensure_link y (act x g) = act x (ensure_link y g).
Proof.
  intros Hok [_ Hl]. unfold ensure_link.
  destruct (op_link y) as [lk|]; [|done].
  rewrite !(match_node_param_keys _ _ (act x g) g) by by apply keys_act.
  destruct (match_node_param (lk_src lk).1 _ g) as [|s ss] eqn:Hs; [done|].
  destruct (match_node_param (lk_dst lk).1 _ g) as [|d ds] eqn:Hd; [done|].
  rewrite (positions_is_rel _ _ _ (rels (act x g))), rel_keys_act,
    <- positions_is_rel by done.
  case_decide as Hnone; [|done].
  unfold act. simpl. rewrite fmap_app. simpl. f_equal. f_equal.
  unfold rel_upd. destruct (op_link x) as [lkx|] eqn:Hx; [|done].
  destruct (link_targets _ lkx (new_rel s (lk_type lk) d)) eqn:Ht; [|done].
  exfalso. unfold link_targets in Ht. simpl in Ht.
  apply andb_true_iff in Ht as [Ht Hd'].
  apply andb_true_iff in Ht as [Ht Hs'].
  apply bool_decide_eq_true in Ht.
  apply (Hl lkx s d eq_refl); [exact Hs'|exact Hd'|]. by rewrite <- Ht.
Qed.


(** ** Last write wins *)

Section last_write.
Context {A X : Type} (tgt : X → A → bool) (set : X → A → A).
Context (xs : list X).
Hypothesis tgt_set : ∀ x y a, x ∈ xs → tgt y (set x a) = tgt y a.
Hypothesis set_set :
  ∀ x y a, x ∈ xs → y ∈ xs → tgt x a = true → tgt y a = true →
           set y (set x a) = set y a.




End last_write.

(** ** Runs of operations *)

Lemma act_all_snoc ops x g : act_all (ops ++ [x]) g = act x (act_all ops g).
Proof. unfold act_all. by rewrite foldl_app. Qed.


Lemma apply_ops_snoc ops x g :
  apply_ops (ops ++ [x]) g = apply_op x (apply_ops ops g).
Proof. unfold apply_ops. by rewrite foldl_app. Qed.

Lemma keys_act_all ops g : Forall op_ok ops → keys (act_all ops g) = keys g.
Proof.
  induction ops as [|x ops IH] using rev_ind; intros Hok; [done|].
  apply Forall_app in Hok as [Hok [Hx _]%Forall_cons].
  by rewrite act_all_snoc, keys_act, IH.
Qed.

Lemma rel_keys_act_all ops g :
  Forall op_ok ops → rel_key <$> rels (act_all ops g) = rel_key <$> rels g.
Proof.
  induction ops as [|x ops IH] using rev_ind; intros Hok; [done|].
  apply Forall_app in Hok as [Hok [Hx _]%Forall_cons].
  by rewrite act_all_snoc, rel_keys_act, IH.
Qed.

Lemma ends_valid_act_all ops g :
  Forall op_ok ops → ends_valid g → ends_valid (act_all ops g).
Proof.
  induction ops as [|x ops IH] using rev_ind; intros Hok Hg; [done|].
  apply Forall_app in Hok as [Hok [Hx _]%Forall_cons].
  rewrite act_all_snoc. apply ends_valid_act; [done|]. by apply IH.
Qed.


Lemma wf_graph_act_all ops g :
  Forall op_ok ops → wf_graph g → wf_graph (act_all ops g).
Proof.
  intros Hok [Hu Hv]. split; [|by apply ends_valid_act_all].
  apply (unique_ids_keys g); [|done]. symmetry. by apply keys_act_all.
Qed.

Lemma unique_rels_act_all ops g :
  Forall op_ok ops → unique_rels g → unique_rels (act_all ops g).
Proof. intros Hok. unfold unique_rels. by rewrite rel_keys_act_all. Qed.




(** ** Running twice *)










Lemma wf_graph_apply_ops ops g :
  Forall op_ok ops → wf_graph g → wf_graph (apply_ops ops g).
Proof.
  induction ops as [|x ops IH] using rev_ind; intros Hok Hg; [done|].
  apply Forall_app in Hok as [Hok [Hx _]%Forall_cons].
  rewrite apply_ops_snoc. apply wf_graph_apply_op; [done|]. by apply IH.
Qed.


(** ** Statements are merge operations *)

(** The [MERGE ... SET] clauses on the node. *)
Lemma node_step l k f g :
  (let '(g1, ns) := merge_node l k g in foldl (set_node f) g1 ns)
  = apply_op (mkOp (Some (l, k, f)) None) g.
Proof.
  rewrite (merge_node_ensure l k f g), set_matched_nodes.
  unfold apply_op, ensure, ensure_link, act. simpl.
  f_equal. rewrite <- (list_fmap_id (rels _)) at 1. by apply list_fmap_ext.
Qed.

Lemma link_targets_unique g lk s d r :
  match_node_param (lk_src lk).1 (lk_src lk).2 g = [s] →
  match_node_param (lk_dst lk).1 (lk_dst lk).2 g = [d] →
  link_targets g lk r = is_rel s (lk_type lk) d r.
Proof.
  intros Hs Hd. unfold link_targets, is_rel.
  assert (∀ pat i x, match_node_param pat.1 pat.2 g = [x] →
            node_matches g pat i = bool_decide (i = x)) as Hnm.
  { intros pat i x Hx. destruct (node_matches g pat i) eqn:Hi.
    - apply node_matches_elem in Hi. rewrite Hx in Hi.
      apply list_elem_of_singleton in Hi. by rewrite bool_decide_eq_true_2.
    - rewrite bool_decide_eq_false_2; [done|]. intros ->.
      assert (node_matches g pat x = true) as Hx'
        by (apply node_matches_elem; rewrite Hx; left).
      congruence. }
  rewrite (Hnm _ _ _ Hs), (Hnm _ _ _ Hd).
  apply eq_true_iff_eq. rewrite !andb_true_iff, !bool_decide_eq_true. tauto.
Qed.

Lemma link_targets_none g lk r :
  match_node_param (lk_src lk).1 (lk_src lk).2 g = []
  ∨ match_node_param (lk_dst lk).1 (lk_dst lk).2 g = [] →
  link_targets g lk r = false.
Proof.
  intros H. unfold link_targets.
  destruct (node_matches g (lk_src lk) (rsrc r)) eqn:Hs;
    [|by rewrite andb_false_r].
  destruct (node_matches g (lk_dst lk) (rdst r)) eqn:Hd;
    [|by rewrite andb_false_r].
  apply node_matches_elem in Hs, Hd.
  destruct H as [H|H]; rewrite H in *; by apply elem_of_nil in Hs || by apply elem_of_nil in Hd.
Qed.

Lemma apply_link_only lk g :
  apply_op (mkOp None (Some lk)) g
  = mkGraph (nodes (ensure_link (mkOp None (Some lk)) g))
      (update_where (link_targets (ensure_link (mkOp None (Some lk)) g) lk)
                    (lk_set lk)
                    (rels (ensure_link (mkOp None (Some lk)) g))).
Proof.
  unfold apply_op, ensure, ensure_node, act. simpl. f_equal.
  rewrite <- list_fmap_id. by apply list_fmap_ext.
Qed.

(** The [MATCH ... MERGE ... SET] clauses on the relationship. *)
Lemma link_step lk g :
  unique_ids g →
  foldl (merge_rel_set (lk_type lk) (lk_set lk)) g
        (cross (match_node_param (lk_src lk).1 (lk_src lk).2 g)
               (match_node_param (lk_dst lk).1 (lk_dst lk).2 g))
  = apply_op (mkOp None (Some lk)) g.
Proof.
  intros Hu. rewrite apply_link_only.
  assert (match_node_param (lk_src lk).1 (lk_src lk).2 g = []
          ∨ match_node_param (lk_dst lk).1 (lk_dst lk).2 g = [] →
          g = mkGraph (nodes g)
                (update_where (link_targets g lk) (lk_set lk) (rels g)))
    as Hnone.
  { intros Hm. destruct g as [ns rs]. simpl. f_equal. symmetry.
    apply update_where_false. intros r _. by apply link_targets_none. }
  unfold ensure_link. simpl.
  destruct (unique_match_param g (lk_src lk) Hu) as [Hs|[s Hs]];
    rewrite Hs; [apply Hnone; auto|].
  destruct (unique_match_param g (lk_dst lk) Hu) as [Hd|[d Hd]];
    rewrite Hd; [rewrite cross_nil_r; apply Hnone; auto|].
  change (cross [s] [d]) with [(s, d)]. simpl.
  rewrite merge_rel_set_eq. simpl.
  destruct (positions (is_rel s (lk_type lk) d) 0 (rels g)) as [|i ps] eqn:Hp.
  - rewrite bool_decide_eq_true_2, decide_True by done. simpl.
    f_equal. rewrite update_where_app. f_equal.
    + apply update_where_ext. intros r _.
      by rewrite (link_targets_keys _ g), (link_targets_unique g lk s d r).
    + unfold update_where. simpl.
      rewrite (link_targets_keys _ g) by done.
      rewrite (link_targets_unique g lk s d _ Hs Hd).
      unfold is_rel, new_rel. simpl. by rewrite bool_decide_eq_true_2.
  - rewrite bool_decide_eq_false_2, decide_False by done.
    rewrite app_nil_r. f_equal.
    apply update_where_ext. intros r _.
    by rewrite (link_targets_unique g lk s d r).
Qed.

Lemma cross_swap_unique g pat1 pat2 :
  unique_ids g →
  prod_swap <$> cross (match_node_param pat1.1 pat1.2 g)
                      (match_node_param pat2.1 pat2.2 g)
  = cross (match_node_param pat2.1 pat2.2 g)
          (match_node_param pat1.1 pat1.2 g).
Proof.
  intros Hu.
  destruct (unique_match_param g pat1 Hu) as [->|[x ->]];
    [by rewrite cross_nil_r|].
  by destruct (unique_match_param g pat2 Hu) as [->|[y ->]].
Qed.

(** A statement with both parts is its node part followed by its link
    part. *)
Lemma act_split l k f lk g :
  keeps_key f →
  act (mkOp None (Some lk)) (act (mkOp (Some (l, k, f)) None) g)
  = act (mkOp (Some (l, k, f)) (Some lk)) g.
Proof.
  intros Hf.
  assert (op_ok (mkOp (Some (l, k, f)) None)) as Hok.
  { split; [by intros ? ? ? [= <- <- <-]|done]. }
  pose proof (keys_act _ g Hok) as Hkeys.
  set (g1 := act (mkOp (Some (l, k, f)) None) g) in *.
  unfold act at 1. unfold act at 1.
  assert (nodes g1 = node_upd (mkOp (Some (l, k, f)) None) <$> nodes g)
    as -> by done.
  assert (rels g1 = rels g) as ->.
  { unfold g1, act. simpl. rewrite <- list_fmap_id. by apply list_fmap_ext. }
  f_equal.
  - rewrite <- list_fmap_compose. by apply list_fmap_ext.
  - apply list_fmap_ext. intros i r _. unfold rel_upd. simpl.
    by rewrite (link_targets_keys g1 g).
Qed.

Lemma node_link_step l k f lk g :
  keeps_key f → wf_graph g →
  apply_op (mkOp None (Some lk)) (apply_op (mkOp (Some (l, k, f)) None) g)
  = apply_op (mkOp (Some (l, k, f)) (Some lk)) g.
Proof.
  intros Hf [Hu Hv].
  assert (op_ok (mkOp (Some (l, k, f)) None)) as Hok.
  { split; [by intros ? ? ? [= <- <- <-]|done]. }
  unfold apply_op at 1 2.
  change (ensure (mkOp (Some (l, k, f)) None) g)
    with (ensure_node (mkOp (Some (l, k, f)) (Some lk)) g).
  set (g1 := ensure_node _ g).
  change (ensure (mkOp None (Some lk)) ?h)
    with (ensure_link (mkOp None (Some lk)) h).
  rewrite ensure_link_act; [|done|].
  - by rewrite act_split.
  - pose proof (ensure_saturates (mkOp (Some (l, k, f)) None) g Hu) as Hsat.
    exact Hsat.
Qed.

(** ** The loader's statements as operations *)

Lemma node_only_ok l k f : keeps_key f → op_ok (mkOp (Some (l, k, f)) None).
Proof. intros Hf. split; [by intros ? ? ? [= <- <- <-]|done]. Qed.

(** [MERGE (n) SET n...] hands the merged store and the node to the rest
    of the statement. *)
Lemma merge_node_set {A} l k f g (rest : Graph → list nat → A) :
  keeps_key f →
  (let '(g1, ns) := merge_node l k g in rest (foldl (set_node f) g1 ns) ns)
  = rest (apply_op (mkOp (Some (l, k, f)) None) g)
         (match_node l k (apply_op (mkOp (Some (l, k, f)) None) g)).
Proof.
  intros Hf. pose proof (node_step l k f g) as H.
  rewrite (merge_node_ensure l k f g) in H |- *. cbv beta iota in H |- *.
  rewrite H. f_equal. apply match_node_keys. unfold apply_op.
  rewrite keys_act by by apply node_only_ok. done.
Qed.

Lemma link_only_step t f src dst g :
  unique_ids g →
  foldl (merge_rel_set t f) g
        (cross (match_node_param src.1 src.2 g)
               (match_node_param dst.1 dst.2 g))
  = apply_op (mkOp None (Some (mkLink src t dst f))) g.
Proof. intros Hu. by rewrite <- (link_step (mkLink src t dst f) g Hu). Qed.

(** A statement without node and without link does nothing. *)
Lemma apply_op_none g : apply_op (mkOp None None) g = g.
Proof.
  unfold apply_op, ensure, ensure_node, ensure_link, act. simpl.
  destruct g as [ns rs]. simpl. f_equal.
  - transitivity (id <$> ns); [by apply list_fmap_ext|apply list_fmap_id].
  - transitivity (id <$> rs); [by apply list_fmap_ext|apply list_fmap_id].
Qed.

Lemma run_stmt_op s g :
  wf_graph g → run_stmt s g = (λ op, apply_op op g) <$> op_of g s.
Proof.
  intros Hg. destruct s as [row|row|row|row|row|row]; simpl.
  - unfold merge_category. destruct (cat_id row) as [id|]; simpl; [|done].
    rewrite (merge_node_set _ _ _ _ (λ g' _, mret g'))
      by apply set_nname_keeps_key.
    done.
  - unfold merge_product.
    destruct (prod_price row) as [price|]; simpl; [|done].
    destruct (prod_id row) as [id|]; simpl; [|done].
    assert (keeps_key (set_nprice (Some price) ∘ set_nname (prod_name row)))
      as Hf by (apply keeps_key_compose;
                [apply set_nprice_keeps_key|apply set_nname_keeps_key]).
    rewrite (merge_node_set _ _ _ _
      (λ g2 ps, mret (foldl (λ g pc, (merge_rel "IN_CATEGORY" g pc).1) g2
                        (cross ps (match_node_param Category
                                     (prod_category_id row) g2))))) by done.
    refine (f_equal inr _).
    rewrite (foldl_ext_eq _ (merge_rel_set "IN_CATEGORY" (λ r, r)))
      by apply merge_rel_fst.
    rewrite (link_only_step "IN_CATEGORY" (λ r, r) (Product, Some id)
               (Category, prod_category_id row)).
    + by apply node_link_step.
    + apply wf_graph_apply_op; [by apply node_only_ok|done].
  - unfold merge_customer. destruct (cust_id row) as [id|]; simpl; [|done].
    destruct (cust_join_date row) as [d|]; simpl; [|done].
    rewrite (merge_node_set _ _ _ _ (λ g' _, mret g')); [done|].
    apply keeps_key_compose;
      [apply set_njoin_date_keeps_key|apply set_nname_keeps_key].
  - unfold merge_order. destruct (ord_ts row) as [ts_iso|]; simpl; [|done].
    destruct (ord_id row) as [id|]; simpl; [|done].
    destruct ts_iso as [ts|]; simpl; [|done].
    rewrite (merge_node_set _ _ _ _
      (λ g2 os, mret (foldl (λ g co, (merge_rel "PLACED" g co).1) g2
                        (prod_swap <$> cross os (match_node_param Customer
                                     (ord_customer_id row) g2)))))
      by apply set_nts_keeps_key.
    refine (f_equal inr _).
    set (g2 := apply_op _ g).
    assert (wf_graph g2) as Hg2.
    { apply wf_graph_apply_op; [|done].
      apply node_only_ok, set_nts_keeps_key. }
    rewrite (foldl_ext_eq _ (merge_rel_set "PLACED" (λ r, r)))
      by apply merge_rel_fst.
    pose proof (cross_swap_unique g2 (Order, Some id)
                  (Customer, ord_customer_id row) (proj1 Hg2)) as Hsw.
    pose proof (link_only_step "PLACED" (λ r, r)
                  (Customer, ord_customer_id row) (Order, Some id) g2
                  (proj1 Hg2)) as Hlk.
    simpl in Hsw, Hlk. rewrite Hsw, Hlk.
    apply node_link_step; [apply set_nts_keeps_key|done].
  - unfold merge_order_item.
    destruct (oi_quantity row) as [[q|]|]; simpl; [|done..].
    refine (f_equal inr _).
    apply (link_only_step "CONTAINS" (set_rquantity (Some q))
             (Order, oi_order_id row) (Product, oi_product_id row)),  Hg.
  - unfold merge_event.
    destruct (ev_event_type row) as [t|]; simpl; [|done].
    destruct (ev_ts row) as [ts_iso|]; simpl; [|done].
    destruct (splice_rel_type (upper t)) as [e|label]; simpl; [done|].
    destruct (cross _ _) as [|cp rows] eqn:Hrows.
    { simpl. by rewrite apply_op_none. }
    destruct ts_iso as [ts|]; simpl; [|done].
    refine (f_equal inr _).
    change (foldl (merge_rel_set label (set_rts (Some ts)))
              (merge_rel_set label (set_rts (Some ts)) g cp) rows)
      with (foldl (merge_rel_set label (set_rts (Some ts))) g (cp :: rows)).
    rewrite <- Hrows.
    apply (link_only_step label (set_rts (Some ts))
             (Customer, ev_customer_id row) (Product, ev_product_id row)), Hg.
Qed.

(** Reading the operation off a statement whose parameters evaluate. *)
Ltac invert_op H :=
  cbv [op_of mbind Result_bind mret Result_ret merge_key py_float py_int
       cypher_date cypher_datetime isoformat py_upper] in H;
  repeat match type of H with
  | context [match ?m with _ => _ end] => destruct m eqn:?; try done
  end;
  injection H as <-.

Lemma op_of_ok g s op : op_of g s = inr op → op_ok op.
Proof.
  intros H. destruct s as [row|row|row|row|row|row]; invert_op H;
    (split; [intros ? ? ? [= <- <- <-]|intros ? [= <-]]); simpl.
  - apply set_nname_keeps_key.
  - apply keeps_key_compose;
      [apply set_nprice_keeps_key|apply set_nname_keeps_key].
  - apply keeps_ends_id.
  - apply keeps_key_compose;
      [apply set_njoin_date_keeps_key|apply set_nname_keeps_key].
  - apply set_nts_keeps_key.
  - apply keeps_ends_id.
  - apply set_rquantity_keeps_ends.
  - apply set_rts_keeps_ends.
Qed.

Lemma ops_of_Forall (P : Stmt → Prop) (Q : Op → Prop) ss g :
  (∀ h s op, P s → op_of h s = inr op → Q op) →
  Forall P ss → Forall Q (ops_of ss g).1.
Proof.
  intros HPQ Hss. revert g.
  induction Hss as [|s ss Hs Hss IH]; intros g; simpl; [constructor|].
  destruct (op_of g s) as [e|op] eqn:Hop; simpl; [constructor|].
  constructor; [by eapply HPQ|done].
Qed.

Lemma ops_of_ok ss g : Forall op_ok (ops_of ss g).1.
Proof.
  apply (ops_of_Forall (λ _, True)); [|by apply Forall_true].
  intros h s op _. apply op_of_ok.
Qed.

Lemma elem_of_ops_of op ss g :
  op ∈ (ops_of ss g).1 → ∃ s h, s ∈ ss ∧ op_of h s = inr op.
Proof.
  revert g. induction ss as [|s ss IH]; intros g; simpl;
    [by intros ?%elem_of_nil|].
  destruct (op_of g s) as [e|op'] eqn:Hop; simpl; [by intros ?%elem_of_nil|].
  intros [->|Hin]%elem_of_cons.
  - exists s, g. split; [left|done].
  - destruct (IH _ Hin) as (s' & h & Hs' & Hop'). exists s', h.
    split; [by right|done].
Qed.

(** A run is the run of its operations. *)
Lemma exec_ops ss g :
  wf_graph g → exec ss g = (apply_ops (ops_of ss g).1 g, (ops_of ss g).2).
Proof.
  revert g. induction ss as [|s ss IH]; intros g Hg; simpl; [done|].
  rewrite run_stmt_op by done.
  destruct (op_of g s) as [e|op] eqn:Hop; simpl; [done|].
  apply IH, wf_graph_apply_op; [by eapply op_of_ok|done].
Qed.






Lemma run_etl_graph src g :
  graph (run_etl src g).1 = (exec (statements src) g).1.
Proof. by rewrite <- run_etl_exec. Qed.

Lemma run_etl_outcome src g :
  (run_etl src g).2 = (exec (statements src) g).2.
Proof. by rewrite <- run_etl_exec. Qed.

(** ** What a run creates *)


Lemma key_at_lt g i key : key_at g i key → (i < length (nodes g))%nat.
Proof.
  unfold key_at, keys. intros H%lookup_lt_Some. by rewrite length_fmap in H.
Qed.


Lemma key_at_unique g i j key :
  unique_ids g → key_at g i key → key_at g j key → i = j.
Proof. intros Hu Hi Hj. by eapply (NoDup_lookup _ i j key Hu). Qed.



(** One statement appends at most one node and one relationship. *)
Lemma keys_apply_op x h :
  op_ok x →
  keys (apply_op x h) = keys h
  ∨ ∃ l k f, op_node x = Some (l, k, f) ∧ ((l, k) ∉ keys h)
             ∧ keys (apply_op x h) = keys h ++ [(l, k)].
Proof.
  intros Hok. unfold apply_op. rewrite keys_act by done. unfold ensure, keys.
  rewrite nodes_ensure_link.
  destruct (ensure_node_cases x h) as [->|(l & k & f & Hx & Hm & ->)];
    [by left|].
  right. exists l, k, f. split_and!; [done|by apply match_node_none_key|].
  simpl. by rewrite fmap_app.
Qed.

Lemma rel_keys_apply_op x h :
  op_ok x →
  rel_key <$> rels (apply_op x h) = rel_key <$> rels h
  ∨ ∃ lk s d, op_link x = Some lk
      ∧ node_matches (apply_op x h) (lk_src lk) s = true
      ∧ node_matches (apply_op x h) (lk_dst lk) d = true
      ∧ rel_key <$> rels (apply_op x h)
        = (rel_key <$> rels h) ++ [(s, lk_type lk, d)].
Proof.
  intros Hok.
  assert (rels (ensure_node x h) = rels h) as Hr.
  { by destruct (ensure_node_cases x h) as [->|(? & ? & ? & _ & _ & ->)]. }
  assert (keys (apply_op x h) = keys (ensure_node x h)) as Hk.
  { unfold apply_op. rewrite keys_act by done. unfold ensure, keys.
    by rewrite nodes_ensure_link. }
  unfold apply_op at 1 4. rewrite rel_keys_act by done. unfold ensure.
  destruct (ensure_link_cases x (ensure_node x h))
    as [->|(lk & s & d & Hx & Hs & Hd & Hp & ->)].
  - left. by rewrite Hr.
  - right. exists lk, s, d. split_and!; [done|..].
    + rewrite (node_matches_keys _ _ _ _ Hk). by apply node_matches_elem.
    + rewrite (node_matches_keys _ _ _ _ Hk). by apply node_matches_elem.
    + simpl. by rewrite fmap_app, Hr.
Qed.

(** After a statement, what it merges is there. *)
Lemma apply_op_saturated x h :
  op_ok x → unique_ids h → saturated x (apply_op x h).
Proof.
  intros Hok Hu. unfold apply_op. apply saturated_act; [done|].
  by apply ensure_saturates.
Qed.

Lemma apply_op_node x h l k f :
  op_ok x → unique_ids h → op_node x = Some (l, k, f) →
  (l, k) ∈ keys (apply_op x h).
Proof.
  intros Hok Hu Hx.
  destruct (apply_op_saturated x h Hok Hu) as [Hn _].
  specialize (Hn l k f Hx).
  destruct (match_node l k (apply_op x h)) as [|i ps] eqn:Hm; [done|].
  assert (i ∈ match_node l k (apply_op x h)) as Hi by (rewrite Hm; left).
  apply elem_of_match_node in Hi as (n & Hi & <- & <-).
  apply list_elem_of_fmap. exists n. split; [done|].
  by eapply list_elem_of_lookup_2.
Qed.


(** ** The statements that touch categories and products *)





Lemma op_node_product h s x k f :
  op_of h s = inr x → op_node x = Some (Product, k, f) →
  ∃ row, s = LoadProduct row ∧ prod_id row = Some k.
Proof.
  intros H Hx. destruct s as [row|row|row|row|row|row]; invert_op H;
    simpl in Hx; try done.
  injection Hx as <- _. exists row. split; [done|].
  by destruct (prod_id row); simplify_eq.
Qed.

(** ** The invariant of a run *)





(** ** Replaying a run *)

Lemma keys_apply_ops ops g :
  Forall op_ok ops → ∃ new, keys (apply_ops ops g) = keys g ++ new.
Proof.
  induction ops as [|x ops IH] using rev_ind; intros Hok.
  - exists []. by rewrite app_nil_r.
  - apply Forall_app in Hok as [Hok [Hx _]%Forall_cons].
    destruct (IH Hok) as [new Hnew]. rewrite apply_ops_snoc.
    destruct (keys_apply_op x (apply_ops ops g) Hx)
      as [->|(l & k & f & _ & _ & ->)]; rewrite Hnew.
    + by exists new.
    + exists (new ++ [(l, k)]). by rewrite app_assoc.
Qed.

Lemma rel_keys_apply_ops ops g :
  Forall op_ok ops →
  ∃ new, rel_key <$> rels (apply_ops ops g) = (rel_key <$> rels g) ++ new.
Proof.
  induction ops as [|x ops IH] using rev_ind; intros Hok.
  - exists []. by rewrite app_nil_r.
  - apply Forall_app in Hok as [Hok [Hx _]%Forall_cons].
    destruct (IH Hok) as [new Hnew]. rewrite apply_ops_snoc.
    destruct (rel_keys_apply_op x (apply_ops ops g) Hx)
      as [->|(lk & a & b & _ & _ & _ & ->)]; rewrite Hnew.
    + by exists new.
    + exists (new ++ [(a, lk_type lk, b)]). by rewrite app_assoc.
Qed.







(** ** Sources with plain event types *)

(** No statement of a row with a plain event type is refused for its
    text. *)
Lemma run_stmt_text_accepted s g :
  (∀ row, s = LoadEvent row → plain_type row = true) →
  run_stmt s g ≠ inl CypherSyntaxError.
Proof.
  intros Hplain. destruct s as [row|row|row|row|row|row]; simpl.
  - unfold merge_category. destruct (cat_id row); simpl; [|done].
    by destruct (merge_node _ _ _).
  - unfold merge_product. destruct (prod_price row); simpl; [|done].
    destruct (prod_id row); simpl; [|done]. by destruct (merge_node _ _ _).
  - unfold merge_customer. destruct (cust_id row); simpl; [|done].
    destruct (cust_join_date row); simpl; [|done].
    by destruct (merge_node _ _ _).
  - unfold merge_order. destruct (ord_ts row) as [[ts|]|]; simpl; [| |done].
    + destruct (ord_id row); simpl; [|done]. by destruct (merge_node _ _ _).
    + by destruct (ord_id row).
  - unfold merge_order_item. by destruct (oi_quantity row) as [[q|]|].
  - specialize (Hplain row eq_refl). unfold plain_type in Hplain.
    unfold merge_event. destruct (ev_event_type row) as [t|]; simpl; [|done].
    destruct (ev_ts row) as [ts_iso|]; simpl; [|done].
    unfold splice_rel_type. rewrite Hplain. simpl.
    destruct (cross _ _); [done|]. by destruct ts_iso.
Qed.

Lemma exec_text_accepted ss g :
  Forall (λ s, ∀ row, s = LoadEvent row → plain_type row = true) ss →
  (exec ss g).2 ≠ inl CypherSyntaxError.
Proof.
  intros Hss. revert g.
  induction Hss as [|s ss Hs Hss IH]; intros g; simpl; [done|].
  destruct (run_stmt s g) as [e|g'] eqn:Hrun; [|apply IH].
  simpl. intros [= ->]. by apply (run_stmt_text_accepted s g Hs).
Qed.

Lemma statements_plain src :
  plain_event_types src →
  Forall (λ s, ∀ row, s = LoadEvent row → plain_type row = true)
         (statements src).
Proof.
  intros Hsrc. unfold statements.
  repeat (apply Forall_app; split);
    try (apply Forall_fmap, Forall_true; by intros ? ? [=]).
  apply Forall_fmap. eapply Forall_impl; [exact Hsrc|].
  intros row Hrow row' [= <-]. done.
Qed.

(** * Batches *)

Lemma range_length_up n size :
  0 < size →
  range_length 0 n size = Z.to_nat ((n + size - 1) / size).
Proof.
  intros Hs. unfold range_length. rewrite decide_True by done.
  case_decide as Hn.
  - f_equal. replace (n + size - 1) with ((n - 1 - 0) + 1 * size) by lia.
    rewrite Z.div_add by lia. lia.
  - assert ((n + size - 1) / size ≤ 0); [|lia].
    destruct (decide (n + size - 1 < 0)).
    + apply Z.lt_le_incl, Z.div_lt_upper_bound; lia.
    + rewrite Z.div_small; lia.
Qed.

Lemma slice_from_start {A} (l : list A) (k : nat) size :
  0 < size →
  py_slice l (0 + Z.of_nat k * size) (0 + Z.of_nat k * size + size)
  = take (Z.to_nat size) (drop (k * Z.to_nat size) l).
Proof.
  intros Hs. unfold py_slice, slice_index.
  set (n := Z.of_nat (length l)). set (i := 0 + Z.of_nat k * size).
  assert (0 ≤ i) by (unfold i; nia).
  rewrite !decide_False by lia.
  assert (k * Z.to_nat size = Z.to_nat i)%nat as -> by (unfold i; nia).
  destruct (decide (i ≤ n)).
  - rewrite (Z.min_l i n) by lia.
    destruct (decide (i + size ≤ n)).
    + rewrite Z.min_l by lia. f_equal. lia.
    + rewrite Z.min_r by lia.
      rewrite !take_ge; [done|rewrite length_drop; lia..].
  - rewrite !drop_ge by lia. by rewrite !take_nil.
Qed.

(** The frames of [chunk] for a positive size. *)
Lemma chunk_frames {A} (df : list A) size :
  0 < size →
  chunk df size
  = inr ((λ k : nat, take (Z.to_nat size) (drop (k * Z.to_nat size) df))
         <$> seq 0 (range_length 0 (Z.of_nat (length df)) size)).
Proof.
  intros Hs. unfold chunk, py_range. rewrite decide_False by lia.
  cbv [mbind Result_bind mret Result_ret]. f_equal.
  unfold range_elems. rewrite <- list_fmap_compose.
  apply list_fmap_ext. intros i k _. simpl. by apply slice_from_start.
Qed.

Lemma concat_frames {A} (s c : nat) (l : list A) :
  (0 < s)%nat → (length l ≤ c * s)%nat →
  concat ((λ k : nat, take s (drop (k * s) l)) <$> seq 0 c) = l.
Proof.
  intros Hs. revert l. induction c as [|c IH]; intros l Hl.
  - by destruct l; [|simpl in Hl; lia].
  - rewrite <- cons_seq, fmap_cons. simpl. rewrite <- fmap_S_seq.
    rewrite <- list_fmap_compose.
    rewrite (list_fmap_ext _ (λ k : nat, take s (drop (k * s) (drop s l)))).
    + rewrite IH; [by rewrite take_drop|]. rewrite length_drop. lia.
    + intros i k _. simpl. by rewrite drop_drop.
Qed.

Lemma frames_cover n size :
  0 < size → 0 ≤ n →
  n ≤ Z.of_nat (range_length 0 n size) * size
  ∧ ((Z.of_nat (range_length 0 n size) - 1) * size < n).
Proof.
  intros Hs Hn. unfold range_length. rewrite decide_True by done.
  case_decide as H0; [|lia].
  replace (n - 1 - 0) with (n - 1) by lia.
  pose proof (Z.div_mod (n - 1) size ltac:(lia)) as Hdm.
  pose proof (Z.mod_pos_bound (n - 1) size Hs) as Hm.
  assert (0 ≤ (n - 1) / size) by (apply Z.div_pos; lia).
  rewrite Z2Nat.id by lia. split; nia.
Qed.

(** * The schema file *)

(** ** Stripping *)

Lemma lstrip_head s :
  lstrip s = EmptyString
  ∨ ∃ c t, lstrip s = String c t ∧ is_space c = false.
Proof.
  induction s as [|c s IH]; simpl; [by left|].
  destruct (is_space c) eqn:Hc; [done|]. right. eauto.
Qed.

Lemma rstrip_cons c t :
  is_space c = false → rstrip (String c t) = String c (rstrip t).
Proof. intros Hc. simpl. rewrite Hc. by destruct (rstrip t). Qed.

Lemma rstrip_idem s : rstrip (rstrip s) = rstrip s.
Proof.
  induction s as [|c s IH]; simpl; [done|].
  destruct (rstrip s) as [|c' t] eqn:Hs.
  - destruct (is_space c) eqn:Hc; simpl; [done|]. by rewrite Hc.
  - simpl in *. by rewrite IH.
Qed.

Lemma lstrip_fixed c t : is_space c = false → lstrip (String c t) = String c t.
Proof. intros Hc. simpl. by rewrite Hc. Qed.

(** A stripped text is left alone by [strip]. *)
Lemma strip_idem s : strip (strip s) = strip s.
Proof.
  unfold strip. destruct (lstrip_head s) as [->|(c & t & -> & Hc)]; [done|].
  rewrite (rstrip_cons c t Hc), (lstrip_fixed _ _ Hc).
  by rewrite (rstrip_cons c _ Hc), rstrip_idem.
Qed.

Lemma occurs_lstrip c s : occurs c (lstrip s) → occurs c s.
Proof.
  induction s as [|c' s IH]; simpl; [done|].
  destruct (is_space c'); [by right; apply IH|done].
Qed.

Lemma occurs_rstrip c s : occurs c (rstrip s) → occurs c s.
Proof.
  induction s as [|c' s IH]; simpl; [done|].
  destruct (rstrip s) as [|c'' t] eqn:Hs.
  - destruct (is_space c'); simpl; [done|]. intros [?|[]]. by left.
  - simpl. intros [?|H]; [by left|right]. by apply IH.
Qed.

Lemma occurs_strip c s : occurs c (strip s) → occurs c s.
Proof. intros H. by apply occurs_lstrip, occurs_rstrip. Qed.

(** ** Splitting and joining *)

Lemma py_split_cons sep s : ∃ piece rest, py_split sep s = piece :: rest.
Proof.
  induction s as [|c s (piece & rest & IH)]; simpl; [eauto|].
  case_decide; [eauto|]. rewrite IH. eauto.
Qed.

Lemma py_split_pieces sep s : Forall (λ p, ¬ occurs sep p) (py_split sep s).
Proof.
  induction s as [|c s IH]; simpl.
  - constructor; [|constructor]. by intros [].
  - case_decide as Hc.
    + constructor; [by intros []|done].
    + destruct (py_split sep s) as [|piece rest].
      * constructor; [|constructor]. simpl. by intros [?|[]].
      * apply Forall_cons in IH as [Hp Hrest]. constructor; [|done].
        simpl. by intros [?|?].
Qed.

Lemma py_split_none sep p : ¬ occurs sep p → py_split sep p = [p].
Proof.
  induction p as [|c p IH]; simpl; [done|]. intros Hn.
  rewrite decide_False by (intros ->; apply Hn; by left).
  rewrite IH; [done|]. intros ?. apply Hn. by right.
Qed.

Lemma py_split_app sep p t :
  ¬ occurs sep p →
  py_split sep (p +:+ String sep t) = p :: py_split sep t.
Proof.
  induction p as [|c p IH]; simpl; intros Hn.
  - by rewrite decide_True.
  - rewrite decide_False by (intros ->; apply Hn; by left).
    rewrite IH; [done|]. intros ?. apply Hn. by right.
Qed.

(** Splitting what was joined gives the pieces back. *)
Lemma py_split_join sep pieces :
  pieces ≠ [] → Forall (λ p, ¬ occurs sep p) pieces →
  py_split sep (py_join (String sep EmptyString) pieces) = pieces.
Proof.
  intros Hne Hp. induction Hp as [|p rest Hp Hrest IH]; [done|].
  destruct rest as [|q rest]; [by apply py_split_none|].
  change (py_join _ (p :: q :: rest))
    with (p +:+ String sep (py_join (String sep EmptyString) (q :: rest))).
  rewrite py_split_app by done. by rewrite IH.
Qed.

(** Joining what was split gives the text back. *)
Lemma py_join_split sep s :
  py_join (String sep EmptyString) (py_split sep s) = s.
Proof.
  induction s as [|c s IH]; [done|].
  destruct (py_split_cons sep s) as (piece & rest & Hs).
  cbn [py_split]. rewrite Hs in *. case_decide as Hc.
  - subst c.
    change (py_join ?S (EmptyString :: piece :: rest))
      with (String sep (py_join S (piece :: rest))).
    by rewrite IH.
  - destruct rest as [|q rest].
    + simpl in *. by rewrite IH.
    + change (py_join ?S (String c piece :: q :: rest))
        with (String c (py_join S (piece :: q :: rest))).
      by rewrite IH.
Qed.

(** ** The loop over the statements *)

Section schema.

Variable cypher : string → Graph → Result Graph.
Variable str_exn : string → Graph → Exn → string.

Lemma try_statement_ok stmt w :
  (try_statement cypher str_exn stmt w).2 = inr ()
  ∧ graph (try_statement cypher str_exn stmt w).1
    = tolerant cypher [stmt] (graph w)
  ∧ length (stdout (try_statement cypher str_exn stmt w).1)
    = S (length (stdout w)).
Proof.
  unfold try_statement, run_cypher, tolerant. simpl.
  destruct (cypher stmt (graph w)) as [e|g']; simpl;
    rewrite length_app; simpl; split_and!; try done; lia.
Qed.

Lemma try_statements_ok stmts w :
  (for_each stmts (try_statement cypher str_exn) w).2 = inr ()
  ∧ graph (for_each stmts (try_statement cypher str_exn) w).1
    = tolerant cypher stmts (graph w)
  ∧ length (stdout (for_each stmts (try_statement cypher str_exn) w).1)
    = (length (stdout w) + length stmts)%nat.
Proof.
  revert w. induction stmts as [|stmt stmts IH]; intros w; simpl.
  - split_and!; try done.
  - destruct (try_statement_ok stmt w) as (Hr & Hg & Hl).
    unfold mbind, Py_bind.
    destruct (try_statement cypher str_exn stmt w) as [w1 [e|[]]] eqn:Hw;
      simpl in *; [done|].
    destruct (IH w1) as (Hr' & Hg' & Hl').
    split_and!; [done|..].
    + rewrite Hg', Hg. done.
    + rewrite Hl', Hl. lia.
Qed.

End schema.

(** * Waiting for the stores *)

Lemma range_elems_count n :
  range_elems 0 n 1 = Z.of_nat <$> seq 0 (Z.to_nat n).
Proof.
  unfold range_elems, range_length. rewrite decide_True by lia.
  case_decide.
  - rewrite Z.div_1_r. replace (Z.to_nat (1 + (n - 1 - 0))) with (Z.to_nat n)
      by lia.
    apply list_fmap_ext. intros _ k _. lia.
  - by replace (Z.to_nat n) with 0%nat by lia.
Qed.

Section postgres.

Variable postgres : nat → option Raised.

Lemma after_failures_0 delay w : after_failures 0 delay w = w.
Proof.
  destruct w. unfold after_failures. simpl.
  by rewrite Nat.add_0_r, app_nil_r.
Qed.

Lemma after_failures_S k delay w :
  after_failures (S k) delay w
  = after_failures k delay
      (mkWaiting (S (tried w)) (slept w ++ [delay]) (printed w)
                 (drivers_open w)).
Proof.
  unfold after_failures. simpl. f_equal; [lia|].
  by rewrite <- app_assoc.
Qed.

(** One turn of the loop of [wait_for_postgres]. *)
Lemma postgres_attempts_cons i ixs max_retries delay w :
  postgres_attempts postgres (i :: ixs) max_retries delay w
  = match postgres (tried w) with
    | None =>
        (mkWaiting (S (tried w)) (slept w)
                   (printed w ++ ["PostgreSQL is ready!"]) (drivers_open w),
         inr true)
    | Some (OperationalError msg) =>
        if decide (i < max_retries - 1) then
          if decide (delay < 0) then
            (mkWaiting (S (tried w)) (slept w) (printed w) (drivers_open w),
             inl SleepValueError)
          else
            postgres_attempts postgres ixs max_retries delay
              (mkWaiting (S (tried w)) (slept w ++ [delay]) (printed w)
                         (drivers_open w))
        else
          (mkWaiting (S (tried w)) (slept w) (printed w) (drivers_open w),
           inl (PlainException "PostgreSQL not available after max retries"))
    | Some e =>
        (mkWaiting (S (tried w)) (slept w) (printed w) (drivers_open w),
         inl e)
    end.
Proof.
  simpl. unfold mbind at 1, Wait_bind at 1, connect_postgres at 1.
  destruct (postgres (tried w)) as [[msg|msg| |msg]|]; simpl; try done.
  case_decide; [|done].
  unfold mbind, Wait_bind, sleep. simpl. by case_decide.
Qed.

(** Attempts that fail with [OperationalError] before the last value of
    [i] are slept over. *)
Lemma postgres_attempts_failed k i rest max_retries delay w :
  0 ≤ delay → Z.of_nat (i + k) ≤ max_retries - 1 →
  (∀ j, (j < k)%nat →
        ∃ msg, postgres (tried w + j) = Some (OperationalError msg)) →
  postgres_attempts postgres ((Z.of_nat <$> seq i k) ++ rest)
                    max_retries delay w
  = postgres_attempts postgres rest max_retries delay
                      (after_failures k delay w).
Proof.
  intros Hd. revert i w. induction k as [|k IH]; intros i w Hi Hfail.
  - by rewrite after_failures_0.
  - destruct (Hfail 0%nat ltac:(lia)) as [msg Hmsg].
    rewrite Nat.add_0_r in Hmsg.
    rewrite after_failures_S.
    change ((Z.of_nat <$> seq i (S k)) ++ rest)
      with (Z.of_nat i :: ((Z.of_nat <$> seq (S i) k) ++ rest)).
    rewrite postgres_attempts_cons, Hmsg.
    rewrite decide_True by lia. rewrite decide_False by lia.
    apply IH; [lia|]. intros j Hj. simpl.
    destruct (Hfail (S j) ltac:(lia)) as [msg' Hmsg']. exists msg'.
    by replace (S (tried w + j)) with (tried w + S j)%nat by lia.
Qed.

(** The loop never tries more often than it has values of [i], and
    sleeps only after a value below the last. *)
Lemma postgres_attempts_bounds ixs max_retries delay w :
  (tried w
   ≤ tried (postgres_attempts postgres ixs max_retries delay w).1
   ≤ tried w + length ixs)%nat
  ∧ (length (slept w)
     ≤ length (slept (postgres_attempts postgres ixs max_retries delay w).1)
     ≤ length (slept w)
       + length (filter (λ i : Z, (i < max_retries - 1)%Z) ixs))%nat
  ∧ drivers_open (postgres_attempts postgres ixs max_retries delay w).1
    = drivers_open w.
Proof.
  revert w. induction ixs as [|i ixs IH]; intros w.
  - simpl. lia.
  - rewrite postgres_attempts_cons, filter_cons.
    destruct (postgres (tried w)) as [[msg|msg| |msg]|]; simpl;
      try (case_decide; simpl; lia).
    case_decide as Hi; simpl; [|lia].
    case_decide; simpl; [lia|].
    specialize (IH (mkWaiting (S (tried w)) (slept w ++ [delay]) (printed w)
                              (drivers_open w))).
    simpl in IH. rewrite length_app in IH. simpl in IH. lia.
Qed.

End postgres.

Section neo4j.

Variable neo4j : nat → option (NeoStage * Raised).

(** One attempt on Neo4j. *)
Lemma check_neo4j_cases w :
  check_neo4j neo4j w
  = match neo4j (tried w) with
    | None =>
        (mkWaiting (S (tried w)) (slept w)
           (printed w ++ ["1"; "2"; "3"; "4"; "Neo4j is ready!"])
           (drivers_open w), inr true)
    | Some (stage, e) =>
        (mkWaiting (S (tried w)) (slept w) (printed w ++ digits_before stage)
           (drivers_open w + keeps_driver stage), inl e)
    end.
Proof.
  unfold check_neo4j.
  destruct (neo4j (tried w)) as [[[] e]|]; cbv [mbind Wait_bind mret Wait_ret
    wprint neo_step driver_created driver_close decide decide_rel
    NeoStage_eq_dec NeoStage_rec NeoStage_rect sumbool_rec sumbool_rect
    tried slept printed drivers_open digits_before keeps_driver pred];
    rewrite <- ?app_assoc; simpl; rewrite ?Nat.add_0_r, ?Nat.add_1_r; done.
Qed.

(** One turn of the loop of [wait_for_neo4j]. *)
Lemma neo4j_attempts_cons i ixs max_retries delay w :
  neo4j_attempts neo4j (i :: ixs) max_retries delay w
  = match neo4j (tried w) with
    | None =>
        (mkWaiting (S (tried w)) (slept w)
           (printed w ++ ["1"; "2"; "3"; "4"; "Neo4j is ready!"])
           (drivers_open w), inr true)
    | Some (stage, e) =>
        if decide (i < max_retries - 1) then
          if decide (delay < 0) then
            (mkWaiting (S (tried w)) (slept w)
               (printed w ++ digits_before stage)
               (drivers_open w + keeps_driver stage), inl SleepValueError)
          else
            neo4j_attempts neo4j ixs max_retries delay
              (mkWaiting (S (tried w)) (slept w ++ [delay])
                 (printed w ++ digits_before stage)
                 (drivers_open w + keeps_driver stage))
        else
          (mkWaiting (S (tried w)) (slept w)
             (printed w ++ digits_before stage)
             (drivers_open w + keeps_driver stage),
           inl (PlainException ("Neo4j not available after max retries: "
                                +:+ str_raised e)))
    end.
Proof.
  cbn [neo4j_attempts]. rewrite check_neo4j_cases.
  destruct (neo4j (tried w)) as [[stage e]|]; [|done].
  case_decide; [|done].
  unfold mbind, Wait_bind, sleep. simpl. by case_decide.
Qed.

(** Failed attempts before the last value of [i] are slept over, whatever
    they raise. *)
Lemma neo4j_attempts_failed (fails : list (NeoStage * Raised)) i rest
    max_retries delay w :
  0 ≤ delay → Z.of_nat (i + length fails) ≤ max_retries - 1 →
  (∀ j x, fails !! j = Some x → neo4j (tried w + j) = Some x) →
  neo4j_attempts neo4j ((Z.of_nat <$> seq i (length fails)) ++ rest)
                 max_retries delay w
  = neo4j_attempts neo4j rest max_retries delay
                   (after_neo_failures fails.*1 delay w).
Proof.
  intros Hd. revert i w.
  induction fails as [|[stage e] fails IH]; intros i w Hi Hfail; [done|].
  pose proof (Hfail 0%nat _ eq_refl) as H0. rewrite Nat.add_0_r in H0.
  change ((Z.of_nat <$> seq i (length ((stage, e) :: fails))) ++ rest)
    with (Z.of_nat i :: ((Z.of_nat <$> seq (S i) (length fails)) ++ rest)).
  rewrite neo4j_attempts_cons, H0.
  simpl in Hi. rewrite decide_True by lia. rewrite decide_False by lia.
  simpl. apply IH; [lia|]. intros j x Hj. simpl.
  replace (S (tried w + j)) with (tried w + S j)%nat by lia.
  by apply Hfail.
Qed.

Lemma after_neo_failures_state stages delay w :
  tried (after_neo_failures stages delay w) = (tried w + length stages)%nat
  ∧ slept (after_neo_failures stages delay w)
    = slept w ++ replicate (length stages) delay
  ∧ printed (after_neo_failures stages delay w)
    = printed w ++ (stages ≫= digits_before)
  ∧ drivers_open (after_neo_failures stages delay w)
    = (drivers_open w
       + length (filter (λ stage, stage ≠ AtDriver) stages))%nat.
Proof.
  revert w. induction stages as [|stage stages IH]; intros w; simpl.
  - by rewrite !app_nil_r, !Nat.add_0_r.
  - destruct (IH (mkWaiting (S (tried w)) (slept w ++ [delay])
                    (printed w ++ digits_before stage)
                    (drivers_open w + keeps_driver stage)))
      as (-> & -> & -> & ->).
    simpl. rewrite <- !app_assoc, filter_cons.
    split_and!; [lia|done|done|].
    destruct stage; simpl; rewrite ?decide_True, ?decide_False by done;
      simpl; lia.
Qed.

End neo4j.

Lemma seq_split_at (k n : nat) :
  (k < n)%nat → seq 0 n = seq 0 k ++ k :: seq (S k) (n - S k).
Proof.
  intros Hk. replace n with (k + S (n - S k))%nat at 1 by lia.
  by rewrite seq_app.
Qed.

Section postgres_results.

Variable postgres : nat → option Raised.

(** What the loop returns tells what happened. *)
Lemma postgres_attempts_true ixs max_retries delay w :
  (postgres_attempts postgres ixs max_retries delay w).2 = inr true →
  ∃ t, tried (postgres_attempts postgres ixs max_retries delay w).1 = S t
       ∧ (tried w ≤ t)%nat ∧ postgres t = None.
Proof.
  revert w. induction ixs as [|i ixs IH]; intros w; [done|].
  rewrite postgres_attempts_cons.
  destruct (postgres (tried w)) as [[msg|msg| |msg]|] eqn:Ht; simpl;
    try done.
  - case_decide; [|done]. case_decide; [done|]. intros Hr.
    destruct (IH _ Hr) as (t & Ht' & Hle & Hnone). simpl in Hle.
    exists t. split_and!; [done|lia|done].
  - intros _. exists (tried w). done.
Qed.

Lemma postgres_attempts_false i m max_retries delay w :
  Z.of_nat (i + m) = max_retries → (0 < m)%nat →
  (postgres_attempts postgres (Z.of_nat <$> seq i m) max_retries delay w).2
  ≠ inr false.
Proof.
  revert i w. induction m as [|m IH]; intros i w Him Hm; [lia|].
  change (Z.of_nat <$> seq i (S m)) with (Z.of_nat i :: (Z.of_nat <$> seq (S i) m)).
  rewrite postgres_attempts_cons.
  destruct (postgres (tried w)) as [[msg|msg| |msg]|]; simpl; try done.
  case_decide; [|done]. case_decide; [done|].
  apply IH; lia.
Qed.

End postgres_results.

(** * More on the loading phase *)

(** ** What is printed *)

Lemma first_failure_app ss1 ss2 g :
  first_failure (ss1 ++ ss2) g
  = match first_failure ss1 g with
    | Some s => Some s
    | None => first_failure ss2 (exec ss1 g).1
    end.
Proof.
  revert g. induction ss1 as [|s ss1 IH]; intros g; simpl; [done|].
  destruct (run_stmt s g) as [e|g']; [done|]. apply IH.
Qed.

Lemma first_failure_exec ss g :
  match first_failure ss g with
  | Some _ => ∃ e, (exec ss g).2 = inl e
  | None => (exec ss g).2 = inr ()
  end.
Proof.
  revert g. induction ss as [|s ss IH]; intros g; simpl; [done|].
  destruct (run_stmt s g) as [e|g']; simpl; [eauto|]. apply IH.
Qed.

Lemma first_failure_elem ss g s : first_failure ss g = Some s → s ∈ ss.
Proof.
  revert g. induction ss as [|s' ss IH]; intros g; simpl; [done|].
  destruct (run_stmt s' g) as [e|g'].
  - intros [= ->]. left.
  - intros H. right. by eapply IH.
Qed.

(** Where the run stops: the statements before the first that raises
    have run, and that one raised on what they left. *)
Lemma first_failure_split ss g s :
  first_failure ss g = Some s →
  ∃ pre post e, ss = pre ++ s :: post
                ∧ exec pre g = ((exec ss g).1, inr ())
                ∧ run_stmt s (exec ss g).1 = inl e
                ∧ (exec ss g).2 = inl e.
Proof.
  revert g. induction ss as [|s' ss IH]; intros g; simpl; [done|].
  destruct (run_stmt s' g) as [e|g'] eqn:Hs.
  - intros [= ->]. exists [], ss, e. simpl. by rewrite Hs.
  - intros H. destruct (IH g' H) as (pre & post & e & -> & Hpre & Hrun & Hr).
    exists (s' :: pre), post, e. simpl. by rewrite Hs.
Qed.

Lemma first_failure_block {A} (mk : A → Stmt) (rows : list A) g s n :
  (∀ row, stage (mk row) = n) →
  first_failure (mk <$> rows) g = Some s → stage s = n.
Proof.
  intros Hn Hs. apply first_failure_elem in Hs.
  by apply list_elem_of_fmap in Hs as (row & -> & _).
Qed.

(** ** What is kept *)

Lemma nodes_apply_op x h :
  ∃ new, nodes (apply_op x h) = node_upd x <$> (nodes h ++ new)
         ∧ ∀ n, n ∈ new →
             ∃ l k f, op_node x = Some (l, k, f) ∧ n = new_node l k.
Proof.
  unfold apply_op, act, ensure. simpl. rewrite nodes_ensure_link.
  destruct (ensure_node_cases x h) as [->|(l & k & f & Hx & _ & ->)].
  - exists []. rewrite app_nil_r. split; [done|]. by intros ? ?%elem_of_nil.
  - exists [new_node l k]. split; [done|].
    intros n ->%list_elem_of_singleton. eauto.
Qed.

(** A statement leaves alone the nodes it does not name. *)
Lemma node_untouched_op x h i n :
  nodes h !! i = Some n →
  (∀ l k f, op_node x = Some (l, k, f) → node_key n ≠ (l, k)) →
  nodes (apply_op x h) !! i = Some n.
Proof.
  intros Hi Hne. destruct (nodes_apply_op x h) as (new & -> & _).
  rewrite list_lookup_fmap, (lookup_app_l_Some _ _ _ _ Hi). simpl. f_equal.
  unfold node_upd. destruct (op_node x) as [[[l k] f]|] eqn:Hx; [|done].
  destruct (has_label_id l k n) eqn:Hm; [|done].
  apply has_label_id_node_key in Hm. by destruct (Hne l k f eq_refl).
Qed.

Lemma node_untouched_ops ops h i n :
  nodes h !! i = Some n →
  (∀ x l k f, x ∈ ops → op_node x = Some (l, k, f) → node_key n ≠ (l, k)) →
  nodes (apply_ops ops h) !! i = Some n.
Proof.
  revert h. induction ops as [|x ops IH]; intros h Hi Hne; [done|].
  simpl. apply IH.
  - apply node_untouched_op; [done|]. intros l k f. apply Hne. left.
  - intros y l k f Hy. apply Hne. by right.
Qed.

Lemma merged_key_op h s x :
  op_of h s = inr x →
  merged_key s = (λ lkf : Label * Key * (Node → Node), lkf.1) <$> op_node x.
Proof.
  intros H. destruct s as [row|row|row|row|row|row]; invert_op H; simpl;
    try done.
  - by destruct (cat_id row); simplify_eq.
  - by destruct (prod_id row); simplify_eq.
  - by destruct (cust_id row); simplify_eq.
  - by destruct (ord_id row); simplify_eq.
Qed.

(** ** Prices *)

Lemma op_of_keeps_price h s x : op_of h s = inr x → keeps_price x.
Proof.
  intros H. destruct s as [row|row|row|row|row|row]; invert_op H;
    intros ? ? ? Hx; simpl in Hx; simplify_eq;
    (split; [intros; simpl; eauto|try done; intros; simpl; eauto]).
Qed.

Lemma priced_apply_op x h :
  op_ok x → keeps_price x → priced h → priced (apply_op x h).
Proof.
  intros [Hok _] Hprice Hh. unfold priced.
  destruct (nodes_apply_op x h) as (new & -> & Hnew).
  apply Forall_fmap, Forall_app. split.
  - eapply Forall_impl; [exact Hh|]. intros n Hn. simpl. unfold node_upd.
    destruct (op_node x) as [[[l k] f]|] eqn:Hx; [|done].
    destruct (has_label_id l k n); [|done].
    destruct (Hok l k f eq_refl n) as [Hl _]. rewrite Hl. intros Hp.
    apply (proj1 (Hprice l k f Hx)). by apply Hn.
  - apply Forall_forall. intros n Hn.
    destruct (Hnew n Hn) as (l & k & f & Hx & ->). simpl. unfold node_upd.
    rewrite Hx. unfold has_label_id, new_node at 1 2. simpl.
    rewrite bool_decide_eq_true_2 by done.
    destruct (Hok l k f Hx (new_node l k)) as [Hl _]. rewrite Hl. simpl.
    intros ->. by apply (proj2 (Hprice Product k f Hx)).
Qed.

Lemma priced_apply_ops ops h :
  Forall op_ok ops → Forall keeps_price ops → priced h →
  priced (apply_ops ops h).
Proof.
  revert h. induction ops as [|x ops IH]; intros h Hok Hp Hh; [done|].
  apply Forall_cons in Hok as [Hx Hok]. apply Forall_cons in Hp as [Hpx Hp].
  simpl. apply IH; [done..|]. by apply priced_apply_op.
Qed.

Lemma ops_of_keep_price ss g : Forall keeps_price (ops_of ss g).1.
Proof.
  apply (ops_of_Forall (λ _, True)); [|by apply Forall_true].
  intros h s op _. apply op_of_keeps_price.
Qed.

(** * Counting the nodes of a loaded store *)

Lemma ops_of_all ss g s :
  (ops_of ss g).2 = inr () → s ∈ ss →
  ∃ h x, op_of h s = inr x ∧ x ∈ (ops_of ss g).1.
Proof.
  revert g. induction ss as [|s' ss IH]; intros g; simpl;
    [by intros _ ?%elem_of_nil|].
  destruct (op_of g s') as [e|x] eqn:Hx; simpl; [done|].
  intros Hr [->|Hin]%elem_of_cons.
  - exists g, x. split; [done|left].
  - destruct (IH _ Hr Hin) as (h & y & Hy & Hin'). exists h, y.
    split; [done|by right].
Qed.

(** The nodes of a store after a run: those it had and those the
    statements merged. *)
Lemma keys_after_ops ops g l k :
  wf_graph g → Forall op_ok ops →
  (l, k) ∈ keys (apply_ops ops g) ↔
  (l, k) ∈ keys g ∨ ∃ x f, x ∈ ops ∧ op_node x = Some (l, k, f).
Proof.
  intros Hg. induction ops as [|x ops IH] using rev_ind; intros Hok.
  - simpl. split; [by left|]. by intros [?|(? & ? & ?%elem_of_nil & _)].
  - apply Forall_app in Hok as [Hok [Hx _]%Forall_cons].
    specialize (IH Hok). rewrite apply_ops_snoc.
    pose proof (wf_graph_apply_ops ops g Hok Hg) as [Hu _].
    split.
    + destruct (keys_apply_op x (apply_ops ops g) Hx)
        as [->|(l' & k' & f & Hn & _ & ->)].
      * intros [?|(y & f & Hy & Hn)]%IH; [by left|right].
        exists y, f. split; [|done]. apply elem_of_app. by left.
      * intros [[?|(y & f' & Hy & Hn')]%IH| [= -> ->]%list_elem_of_singleton]
          %elem_of_app.
        -- by left.
        -- right. exists y, f'. split; [|done]. apply elem_of_app. by left.
        -- right. exists x, f. split; [|done]. apply elem_of_app. right. left.
    + intros [Hin|(y & f & [Hy| ->%list_elem_of_singleton]%elem_of_app & Hn)].
      * destruct (keys_apply_ops (ops ++ [x]) g) as [new Hnew].
        { apply Forall_app. split; [done|]. by constructor. }
        rewrite apply_ops_snoc in Hnew. rewrite Hnew.
        apply elem_of_app. by left.
      * assert ((l, k) ∈ keys (apply_ops ops g)) as Hin.
        { apply IH. right. eauto. }
        destruct (keys_apply_op x (apply_ops ops g) Hx)
          as [->|(l' & k' & f' & _ & _ & ->)]; [done|].
        apply elem_of_app. by left.
      * by eapply apply_op_node.
Qed.

(** The identifiers of the nodes with a label. *)
Lemma labelled_length g l :
  length (labelled g l)
  = length (filter (λ key : Label * Key, key.1 = l) (keys g)).
Proof.
  unfold labelled, keys. destruct g as [ns rs]. simpl. clear rs.
  generalize 0%nat. induction ns as [|n ns IH]; intros i; simpl; [done|].
  rewrite filter_cons. simpl. case_bool_decide as Hl.
  - rewrite decide_True by done. simpl. by rewrite IH.
  - rewrite decide_False by done. apply IH.
Qed.

Lemma NoDup_same_length {A} (l1 l2 : list A) :
  NoDup l1 → NoDup l2 → (∀ x, x ∈ l1 ↔ x ∈ l2) → length l1 = length l2.
Proof. intros H1 H2 H. by rewrite (NoDup_Permutation l1 l2 H1 H2 H). Qed.

Lemma count_nodes_ids g l (ids : list Key) :
  unique_ids g → (∀ k, (l, k) ∈ keys g ↔ k ∈ ids) →
  count_nodes g l = Z.of_nat (length (distinct ids)).
Proof.
  intros Hu Hids. unfold count_nodes. f_equal. rewrite labelled_length.
  rewrite <- (length_fmap snd).
  apply NoDup_same_length.
  - apply (NoDup_fmap_2_strong snd).
    + intros [l1 k1] [l2 k2] [H1 _]%list_elem_of_filter
        [H2 _]%list_elem_of_filter Hk. simpl in *. by subst.
    + by apply NoDup_filter.
  - apply NoDup_distinct.
  - intros k. rewrite elem_of_distinct, <- Hids, list_elem_of_fmap. split.
    + intros ([l' k'] & -> & [Hl Hin]%list_elem_of_filter). simpl in *.
      by subst.
    + intros Hin. exists (l, k). split; [done|].
      by apply list_elem_of_filter.
Qed.

(** The statements that merge a node with a label come from its frame. *)
Lemma merged_key_statements src l k :
  (∃ s, s ∈ statements src ∧ merged_key s = Some (l, k)) ↔
  k ∈ match l with
      | Category => omap cat_id (categories_df src)
      | Product => omap prod_id (products_df src)
      | Customer => omap cust_id (customers_df src)
      | Order => omap ord_id (orders_df src)
      end.
Proof.
  unfold statements. split.
  - intros (s & Hs & Hk).
    repeat rewrite elem_of_app in Hs.
    destruct_or!; apply list_elem_of_fmap in Hs as (row & -> & Hrow);
      simpl in Hk; try done.
    + destruct (cat_id row) as [k'|] eqn:Hid; simplify_eq/=.
      apply list_elem_of_omap. eauto.
    + destruct (prod_id row) as [k'|] eqn:Hid; simplify_eq/=.
      apply list_elem_of_omap. eauto.
    + destruct (cust_id row) as [k'|] eqn:Hid; simplify_eq/=.
      apply list_elem_of_omap. eauto.
    + destruct (ord_id row) as [k'|] eqn:Hid; simplify_eq/=.
      apply list_elem_of_omap. eauto.
  - destruct l; intros (row & Hrow & Hid)%list_elem_of_omap.
    + exists (LoadCategory row). split; [|by simpl; rewrite Hid].
      rewrite !elem_of_app, !list_elem_of_fmap. eauto 10.
    + exists (LoadProduct row). split; [|by simpl; rewrite Hid].
      rewrite !elem_of_app, !list_elem_of_fmap. eauto 10.
    + exists (LoadCustomer row). split; [|by simpl; rewrite Hid].
      rewrite !elem_of_app, !list_elem_of_fmap. eauto 10.
    + exists (LoadOrder row). split; [|by simpl; rewrite Hid].
      rewrite !elem_of_app, !list_elem_of_fmap. eauto 10.
Qed.

(** The nodes with a label after a run that succeeds. *)
Lemma keys_after_run src g G l k :
  wf_graph g → exec (statements src) g = (G, inr ()) →
  (l, k) ∈ keys G ↔
  (l, k) ∈ keys g
  ∨ k ∈ match l with
        | Category => omap cat_id (categories_df src)
        | Product => omap prod_id (products_df src)
        | Customer => omap cust_id (customers_df src)
        | Order => omap ord_id (orders_df src)
        end.
Proof.
  intros Hg Hexec. rewrite exec_ops in Hexec by done.
  injection Hexec as <- Hr.
  rewrite (keys_after_ops _ g l k Hg (ops_of_ok _ _)).
  rewrite <- merged_key_statements. split.
  - intros [?|(x & f & Hx & Hn)]; [by left|right].
    apply elem_of_ops_of in Hx as (s & h & Hs & Hop). exists s.
    split; [done|]. by rewrite (merged_key_op h s x Hop), Hn.
  - intros [?|(s & Hs & Hk)]; [by left|right].
    destruct (ops_of_all _ _ s Hr Hs) as (h & x & Hop & Hx).
    rewrite (merged_key_op h s x Hop) in Hk.
    destruct (op_node x) as [[[l' k'] f]|] eqn:Hn; simplify_eq/=.
    eauto.
Qed.

(** * Orders of a customer *)

Lemma ts_after_total a b : ts_after a b = true ∨ ts_after b a = true.
Proof.
  destruct a as [x|], b as [y|]; simpl; auto.
  destruct (decide (y ≤ x)); [left|right]; apply bool_decide_eq_true; lia.
Qed.

Lemma ts_after_trans a b c :
  ts_after a b = true → ts_after b c = true → ts_after a c = true.
Proof.
  destruct a as [x|], b as [y|], c as [z|]; simpl; try done.
  rewrite !bool_decide_eq_true. lia.
Qed.

Section customer_orders.
Context {db : OrderBy}.

Lemma customer_orders_query_sorted g k :
  StronglySorted
    (λ x y, ts_after (nts (node g x.1.1)) (nts (node g y.1.1)) = true)
    (customer_orders_query g k).
Proof.
  unfold customer_orders_query.
  apply order_by_sorted.
  - intros x y. apply ts_after_total.
  - intros x y z. apply ts_after_trans.
Qed.

(** ** Distinct values, from the end *)

Lemma distinct_snoc `{EqDecision A} (l : list A) x :
  distinct (l ++ [x])
  = if decide (x ∈ l) then distinct l else distinct l ++ [x].
Proof.
  induction l as [|y l IH].
  - case_decide as H; [by apply elem_of_nil in H|done].
  - rewrite <- app_comm_cons. cbn [distinct]. rewrite IH.
    destruct (decide (x = y)) as [->|Hne].
    + rewrite (decide_True (P := y ∈ y :: l)) by left.
      case_decide; [done|].
      rewrite filter_app, filter_cons, decide_False by (by intros []).
      by rewrite app_nil_r.
    + case_decide as Hin.
      * rewrite decide_True by by right. done.
      * rewrite decide_False by (intros [?|?]%elem_of_cons; done).
        rewrite filter_app, filter_cons, decide_True by done. done.
Qed.

(** ** Building the dictionary *)

Lemma mapM_Result_app {A B} (f : A → Result B) l1 l2 ys1 ys2 :
  mapM f l1 = inr ys1 → mapM f l2 = inr ys2 →
  mapM f (l1 ++ l2) = inr (ys1 ++ ys2).
Proof.
  revert ys1. induction l1 as [|x l1 IH]; intros ys1.
  - intros [= <-]. done.
  - rewrite <- app_comm_cons, !mapM_Result_cons.
    destruct (f x) as [e|y]; [done|]. simpl.
    destruct (mapM f l1) as [e|k] eqn:Hk; [done|]. simpl.
    intros [= <-] H2. by rewrite (IH k eq_refl H2).
Qed.

Lemma add_records_snoc g orders rows row :
  add_records g orders (rows ++ [row])
  = orders1 ← add_records g orders rows; add_record g orders1 row.
Proof.
  revert orders. induction rows as [|r rows IH]; intros orders; simpl.
  - by destruct (add_record g orders row).
  - destruct (add_record g orders r) as [e|orders1]; [done|]. apply IH.
Qed.

Lemma append_item_keys oid line orders :
  (append_item oid line orders).*1 = orders.*1.
Proof.
  unfold append_item. rewrite <- list_fmap_compose.
  apply list_fmap_ext. intros i kv _. simpl. by case_decide.
Qed.

Lemma add_records_entries g rows orders :
  add_records g [] rows = inr orders →
  orders.*1 = distinct (record_order_id g <$> rows)
  ∧ Forall (entry_of g rows) orders.
Proof.
  revert orders. induction rows as [|row rows IH] using rev_ind;
    intros orders.
  { intros [= <-]. split; [done|constructor]. }
  rewrite add_records_snoc.
  destruct (add_records g [] rows) as [e|orders0] eqn:H0; [done|].
  destruct (IH orders0 eq_refl) as [Hkeys Hentries].
  cbv [mbind Result_bind]. unfold add_record.
  destruct (order_line g row) as [e|line] eqn:Hline; [done|].
  cbv [mbind Result_bind mret Result_ret]. intros [= <-].
  remember (record_order_id g row) as oid eqn:Hoid.
  assert (∀ k, k ≠ oid →
            filter (λ r, record_order_id g r = k) (rows ++ [row])
            = filter (λ r, record_order_id g r = k) rows) as Hother.
  { intros k Hk. rewrite filter_app, filter_cons, decide_False by congruence.
    by rewrite app_nil_r. }
  assert (filter (λ r, record_order_id g r = oid) (rows ++ [row])
          = filter (λ r, record_order_id g r = oid) rows ++ [row]) as Hsame.
  { rewrite filter_app, filter_cons, decide_True by done. done. }
  assert (∀ kv, entry_of g rows kv →
            entry_of g (rows ++ [row])
              (if decide (kv.1 = oid)
               then (kv.1, mkOrderInfo (order_id kv.2) (order_date kv.2)
                                       (items kv.2 ++ [line]))
               else kv)) as Hold.
  { intros [k info] (Hid & Hitems & r & Hr & Hdate).
    simpl in Hid, Hitems, Hr, Hdate.
    case_decide as Hk; simpl in Hk; unfold entry_of;
      cbn [fst snd items order_id order_date].
    - rewrite Hk in Hid, Hitems, Hr |- *. split_and!; [done|..].
      + rewrite Hsame. apply mapM_Result_app; [done|].
        by rewrite mapM_Result_cons, Hline.
      + exists r. rewrite Hsame. split; [|done].
        by destruct (filter _ rows).
    - split_and!; [done|by rewrite Hother|].
      exists r. by rewrite Hother. }
  rewrite append_item_keys, fmap_app.
  change (record_order_id g <$> [row]) with [record_order_id g row].
  rewrite distinct_snoc, <- Hoid, <- Hkeys.
  rewrite (decide_ext (oid ∈ record_order_id g <$> rows)
                      (oid ∈ orders0.*1)).
  2:{ by rewrite Hkeys, elem_of_distinct. }
  case_decide as Hin.
  - split; [done|]. unfold append_item. apply Forall_fmap.
    eapply Forall_impl; [exact Hentries|]. intros kv Hkv. by apply Hold.
  - split; [by rewrite fmap_app|]. unfold append_item.
    rewrite fmap_app, Forall_app. split.
    + apply Forall_fmap. eapply Forall_impl; [exact Hentries|].
      intros kv Hkv. by apply Hold.
    + constructor; [|constructor]. simpl. rewrite decide_True by done.
      assert (filter (λ r, record_order_id g r = oid) rows = []) as Hnone.
      { apply filter_none. intros r Hr Hr'. apply Hin.
        rewrite Hkeys, elem_of_distinct. apply list_elem_of_fmap. eauto. }
      split_and!; simpl; [done|..].
      * rewrite Hsame, Hnone, app_nil_l. by rewrite mapM_Result_cons, Hline.
      * exists row. by rewrite Hsame, Hnone.
Qed.

(** The dates of the dictionary follow the order of the records. *)
Lemma add_records_sorted g rows orders :
  StronglySorted
    (λ x y, ts_after (nts (node g x.1.1)) (nts (node g y.1.1)) = true) rows →
  add_records g [] rows = inr orders →
  StronglySorted
    (λ a b : Key * OrderInfo,
       ts_after (order_date a.2) (order_date b.2) = true) orders.
Proof.
  revert orders. induction rows as [|row rows IH] using rev_ind;
    intros orders Hsorted.
  { intros [= <-]. constructor. }
  apply StronglySorted_app in Hsorted as (Hlast & Hrows & _).
  rewrite add_records_snoc.
  destruct (add_records g [] rows) as [e|orders0] eqn:H0; [done|].
  specialize (IH orders0 Hrows eq_refl).
  destruct (add_records_entries g rows orders0 H0) as [_ Hentries].
  cbv [mbind Result_bind]. unfold add_record.
  destruct (order_line g row) as [e|line]; [done|].
  cbv [mbind Result_bind mret Result_ret]. intros [= <-].
  assert (∀ l : list (Key * OrderInfo),
            StronglySorted
              (λ a b, ts_after (order_date a.2) (order_date b.2) = true) l →
            StronglySorted
              (λ a b, ts_after (order_date a.2) (order_date b.2) = true)
              (append_item (record_order_id g row) line l)) as Happend.
  { intros l Hl. unfold append_item.
    induction Hl as [|a l Hl IHl Ha]; [constructor|].
    rewrite fmap_cons. constructor; [done|].
    apply Forall_fmap. eapply Forall_impl; [exact Ha|].
    intros b Hb. simpl. by repeat case_decide. }
  apply Happend. case_decide; [done|].
  apply StronglySorted_app. split_and!; [|done|repeat constructor].
  intros a b Ha ->%list_elem_of_singleton. simpl.
  destruct (proj1 (Forall_forall _ _) Hentries a Ha)
    as (_ & _ & r & Hr & ->).
  apply Hlast; [|left].
  apply head_Some_elem_of in Hr. by apply list_elem_of_filter in Hr as [_ ?].
Qed.

(** The loop raises exactly when a product of a record has no price. *)
Lemma add_records_priced g orders rows :
  Forall (λ row, is_Some (nprice (node g row.2))) rows →
  ∃ orders1, add_records g orders rows = inr orders1.
Proof.
  intros Hrows. revert orders.
  induction Hrows as [|row rows [x Hx] _ IH]; intros orders; simpl; [eauto|].
  unfold add_record, order_line. rewrite Hx. simpl. apply IH.
Qed.

Lemma add_records_unpriced g orders rows :
  Exists (λ row, nprice (node g row.2) = None) rows →
  add_records g orders rows = inl TypeError.
Proof.
  intros Hrows. revert orders.
  induction Hrows as [row rows Hx|row rows _ IH]; intros orders; simpl.
  - unfold add_record, order_line. by rewrite Hx.
  - destruct (add_record g orders row) as [e|orders1] eqn:Ha; simpl; [|done].
    unfold add_record, order_line in Ha.
    by destruct (nprice (node g row.2)).
Qed.

End customer_orders.

(** * Listing and recommending *)

(** ** The order of names *)

Lemma ascii_compare_lt_trans a b c :
  Ascii.compare a b = Lt → Ascii.compare b c = Lt → Ascii.compare a c = Lt.
Proof.
  unfold Ascii.compare. rewrite !N.compare_lt_iff. lia.
Qed.

Lemma string_compare_lt_trans s1 s2 s3 :
  String.compare s1 s2 = Lt → String.compare s2 s3 = Lt →
  String.compare s1 s3 = Lt.
Proof.
  revert s2 s3. induction s1 as [|a s1 IH]; intros [|b s2] [|c s3];
    simpl; try done.
  destruct (Ascii.compare a b) eqn:Hab; try done;
    destruct (Ascii.compare b c) eqn:Hbc; try done; intros H1 H2.
  - apply Ascii.compare_eq_iff in Hab, Hbc. subst.
    assert (Ascii.compare c c = Eq) as ->.
    { unfold Ascii.compare. apply N.compare_refl. }
    by eapply IH.
  - apply Ascii.compare_eq_iff in Hab. subst. by rewrite Hbc.
  - apply Ascii.compare_eq_iff in Hbc. subst. by rewrite Hab.
  - by rewrite (ascii_compare_lt_trans a b c).
Qed.

Lemma string_compare_refl s : String.compare s s = Eq.
Proof.
  induction s as [|a s IH]; simpl; [done|].
  assert (Ascii.compare a a = Eq) as ->; [|done].
  unfold Ascii.compare. apply N.compare_refl.
Qed.

Lemma string_leb_trans s1 s2 s3 :
  String.leb s1 s2 = true → String.leb s2 s3 = true →
  String.leb s1 s3 = true.
Proof.
  unfold String.leb.
  destruct (String.compare s1 s2) eqn:H12; try done;
    destruct (String.compare s2 s3) eqn:H23; try done; intros _ _.
  - apply String.compare_eq_iff in H12 as ->.
    apply String.compare_eq_iff in H23 as ->.
    by rewrite string_compare_refl.
  - apply String.compare_eq_iff in H12 as ->. by rewrite H23.
  - apply String.compare_eq_iff in H23 as <-. by rewrite H12.
  - by rewrite (string_compare_lt_trans s1 s2 s3).
Qed.

Lemma name_before_total a b : name_before a b = true ∨ name_before b a = true.
Proof.
  destruct a as [x|], b as [y|]; simpl; auto. apply String.leb_total.
Qed.

Lemma name_before_trans a b c :
  name_before a b = true → name_before b c = true → name_before a c = true.
Proof.
  destruct a as [x|], b as [y|], c as [z|]; simpl; try done.
  apply string_leb_trans.
Qed.

Section list_products.
Context {db : OrderBy}.

Lemma list_products_query_sorted g :
  StronglySorted
    (λ x y, name_before (nname (node g x.1)) (nname (node g y.1)) = true)
    (list_products_query g).
Proof.
  unfold list_products_query.
  apply order_by_sorted.
  - intros x y. apply name_before_total.
  - intros x y z. apply name_before_trans.
Qed.

(** The rows of [list_products]: one for each relationship. *)
Lemma elem_of_list_products_query g p c :
  (p, c) ∈ list_products_query g ↔
  has_label g Product p = true
  ∧ ∃ r, (r, c) ∈ expand_out g "IN_CATEGORY" Category p.
Proof.
  unfold list_products_query. rewrite elem_of_order_by, list_elem_of_bind.
  split.
  - intros (p' & Hin & Hp).
    apply list_elem_of_bind in Hin as ([r c'] & Hin & Hc).
    apply list_elem_of_singleton in Hin. simplify_eq.
    split; [by apply elem_of_labelled|eauto].
  - intros (Hp & r & Hc). exists p. split; [|by apply elem_of_labelled].
    apply list_elem_of_bind. exists (r, c). split; [left|done].
Qed.

(** ** Dictionaries *)

Lemma infos_ok g (rows : list (nat * nat)) :
  Forall (λ row, is_Some (nprice (node g row.1))) rows →
  ∃ items, mapM (λ row, product_info g row.1 row.2) rows = inr items
           ∧ Forall2 (λ row info,
                        product_id info = nid (node g row.1)
                        ∧ product_name info = nname (node g row.1)
                        ∧ category info = nname (node g row.2)) rows items.
Proof.
  induction 1 as [|row rows [x Hx] _ (items & Hitems & HF)].
  - exists []. split; [done|constructor].
  - eexists. rewrite mapM_Result_cons, Hitems. unfold product_info at 1.
    rewrite Hx. simpl. split; [done|]. by constructor.
Qed.

Lemma infos_unpriced g (rows : list (nat * nat)) :
  Exists (λ row, nprice (node g row.1) = None) rows →
  mapM (λ row, product_info g row.1 row.2) rows = inl TypeError.
Proof.
  induction 1 as [row rows Hx|row rows _ IH]; rewrite mapM_Result_cons.
  - unfold product_info. by rewrite Hx.
  - rewrite IH. unfold product_info.
    by destruct (nprice (node g row.1)).
Qed.

Lemma mapM_Result_length {A B} (f : A → Result B) l ys :
  mapM f l = inr ys → length ys = length l.
Proof. intros H%mapM_Result_inv. symmetry. by eapply Forall2_length. Qed.

(** ** Rows after [LIMIT] *)

Lemma with_category_length {A} g (rec : A → nat) (rows : list A) :
  single_category g → (length (with_category g rec rows) ≤ length rows)%nat.
Proof.
  intros Hone. unfold with_category.
  induction rows as [|row rows IH]; [done|].
  rewrite bind_cons, length_app. simpl.
  pose proof (Hone (rec row)) as H1.
  assert (length (expand_out g "IN_CATEGORY" Category (rec row)
                    ≫= λ cat, [(row, cat.2)])
          = length (expand_out g "IN_CATEGORY" Category (rec row))) as ->.
  { generalize (expand_out g "IN_CATEGORY" Category (rec row)).
    intros l. induction l as [|x l IHl]; [done|].
    rewrite bind_cons, length_app. simpl. by rewrite IHl. }
  lia.
Qed.

Lemma limited_length {A B} g (rec : A → nat) (f : A * nat → Result B)
    (ranked : list A) limit top items :
  single_category g →
  cy_limit limit ranked = inr top →
  mapM f (with_category g rec top) = inr items →
  Z.of_nat (length items) ≤ limit.
Proof.
  intros Hone Hlimit Hitems. unfold cy_limit in Hlimit.
  case_decide as Hneg; [done|]. injection Hlimit as <-.
  apply mapM_Result_length in Hitems. rewrite Hitems.
  pose proof (with_category_length g rec (take (Z.to_nat limit) ranked) Hone).
  rewrite length_take in *. lia.
Qed.

End list_products.

(** * Content based recommendations *)

Lemma bind2_fmap {A B C D} (f : C → D) (h : B → C) (E : A → list B)
    (l : list A) :
  (x ← l; y ← E x; [f (h y)]) = f <$> (x ← l; y ← E x; [h y]).
Proof.
  induction l as [|x l IH]; [done|].
  rewrite !bind_cons, fmap_app, IH. f_equal.
  by rewrite !list_bind_singleton, <- list_fmap_compose.
Qed.

Lemma elem_of_liked_categories g c cat :
  cat ∈ liked_categories g c ↔
  ∃ p r, p ∈ purchases g c
         ∧ (r, cat) ∈ expand_out g "IN_CATEGORY" Category p.
Proof.
  unfold liked_categories. rewrite elem_of_distinct, list_elem_of_bind.
  split.
  - intros (p & Hin & Hp).
    apply list_elem_of_bind in Hin as ([r cat'] & Hin & Hc).
    apply list_elem_of_singleton in Hin. simplify_eq/=. eauto.
  - intros (p & r & Hp & Hc). exists p. split; [|done].
    apply list_elem_of_bind. exists (r, cat). split; [left|done].
Qed.

Lemma elem_of_content_matches g c rec cat :
  (rec, cat) ∈ content_matches g c ↔
  has_label g Product rec = true
  ∧ (∃ r, (r, cat) ∈ expand_out g "IN_CATEGORY" Category rec)
  ∧ cat ∈ liked_categories g c
  ∧ rec ∉ purchases g c.
Proof.
  unfold content_matches. rewrite list_elem_of_bind. split.
  - intros (rec' & Hin & Hrec).
    apply list_elem_of_bind in Hin as ([r cat'] & Hin & Hc).
    case_decide as Hok; [|by apply elem_of_nil in Hin].
    apply list_elem_of_singleton in Hin. simplify_eq/=.
    destruct Hok. split_and!; [by apply elem_of_labelled|eauto|done|done].
  - intros (Hp & (r & Hc) & Hliked & Hnot). exists rec.
    split; [|by apply elem_of_labelled].
    apply list_elem_of_bind. exists (r, cat). split; [|done]. simpl.
    rewrite decide_True by done. left.
Qed.

Lemma content_matches_nil g c :
  liked_categories g c = [] → content_matches g c = [].
Proof.
  intros Hnil. apply elem_of_nil_inv. intros [rec cat] Hin.
  apply elem_of_content_matches in Hin as (_ & _ & Hin & _).
  rewrite Hnil in Hin. by apply elem_of_nil in Hin.
Qed.

Section content_based.
Context {db : OrderBy}.

(** The query, when the identifier names the node [c]. *)
Lemma content_based_query_single g k c limit :
  match_node Customer k g = [c] → 0 ≤ limit →
  content_based_query g k limit
  = inr (fst <$> take (Z.to_nat limit)
           (order_by_desc snd
              (aggregate id (λ rows, Z.of_nat (length rows))
                         (content_matches g c)))).
Proof.
  intros Hc Hlimit. unfold content_based_query.
  rewrite Hc, bind_cons, app_nil_r.
  rewrite (bind2_fmap (pair c) snd
             (expand_out g "IN_CATEGORY" Category) (purchases g c)).
  set (cats := p ← purchases g c;
               cat ← expand_out g "IN_CATEGORY" Category p; [cat.2]).
  assert (liked_categories g c = distinct cats) as Hliked by done.
  destruct (decide (cats = [])) as [Hnil|Hne].
  - rewrite Hnil, fmap_nil, aggregate_nil. simpl.
    rewrite content_matches_nil by (by rewrite Hliked, Hnil). simpl.
    rewrite !aggregate_nil, !order_by_desc_nil.
    rewrite cy_limit_ok by done. by rewrite take_nil.
  - rewrite (aggregate_const_key fst _ _ c).
    + rewrite bind_cons, app_nil_r. simpl.
      assert (snd <$> (pair c <$> cats) = cats) as ->.
      { rewrite <- list_fmap_compose. rewrite <- (list_fmap_id cats) at 2.
        by apply list_fmap_ext. }
      rewrite <- Hliked.
      rewrite cy_limit_ok by done. done.
    + by destruct cats.
    + by intros x (y & -> & _)%list_elem_of_fmap.
Qed.

End content_based.

(** ** When relationships are not repeated *)

Lemma NoDup_fmap_inj_on {A B} (f : A → B) (l : list A) x y :
  NoDup (f <$> l) → x ∈ l → y ∈ l → f x = f y → x = y.
Proof.
  intros Hnd [i Hi]%list_elem_of_lookup [j Hj]%list_elem_of_lookup Hf.
  assert (i = j) as ->; [|congruence].
  eapply (NoDup_lookup _ i j (f x) Hnd).
  - by rewrite list_lookup_fmap, Hi.
  - by rewrite list_lookup_fmap, Hj, Hf.
Qed.

Lemma expand_out_ends g t l a :
  (expand_out g t l a).*2
  = rdst <$> filter (λ x, (bool_decide (rsrc x = a ∧ rtype x = t)
                           && has_label g l (rdst x))%bool = true) (rels g).
Proof.
  unfold expand_out.
  assert (∀ (rs : list Rel) (h : nat → nat),
            (omap id (imap (λ r x,
               if (bool_decide (rsrc x = a ∧ rtype x = t)
                   && has_label g l (rdst x))%bool
               then Some (h r, rdst x) else None) rs)).*2
            = rdst <$> filter (λ x,
                (bool_decide (rsrc x = a ∧ rtype x = t)
                 && has_label g l (rdst x))%bool = true) rs) as Hgen.
  { intros rs. induction rs as [|x rs IH]; intros h; [done|].
    rewrite imap_cons. cbn [omap]. cbn beta.
    specialize (IH (h ∘ S)).
    destruct (bool_decide (rsrc x = a ∧ rtype x = t)
              && has_label g l (rdst x))%bool eqn:Hx.
    - rewrite filter_cons_True by done. cbn [id mbind option_bind].
      rewrite !fmap_cons. simpl. f_equal. apply IH.
    - rewrite filter_cons_False by (by rewrite Hx).
      cbn [id mbind option_bind]. apply IH. }
  apply (Hgen (rels g) id).
Qed.

Lemma expand_out_ends_NoDup g t l a :
  unique_rels g → NoDup (expand_out g t l a).*2.
Proof.
  intros Hu. rewrite expand_out_ends.
  apply NoDup_fmap_2_strong.
  - intros x y [Hx Hinx]%list_elem_of_filter [Hy Hiny]%list_elem_of_filter Hd.
    apply andb_true_iff in Hx as [[? ?]%bool_decide_eq_true _].
    apply andb_true_iff in Hy as [[? ?]%bool_decide_eq_true _].
    apply (NoDup_fmap_inj_on rel_key (rels g)); [done..|].
    unfold rel_key. congruence.
  - apply NoDup_filter. by apply (NoDup_fmap_1 rel_key).
Qed.

Lemma NoDup_content_matches g c :
  unique_rels g → NoDup (content_matches g c).
Proof.
  intros Hu. unfold content_matches.
  assert (NoDup (labelled g Product)) as Hl by apply positions_NoDup.
  induction Hl as [|rec recs Hrec Hl IH]; [constructor|].
  rewrite bind_cons. apply NoDup_app. split_and!.
  - pose proof (expand_out_ends_NoDup g "IN_CATEGORY" Category rec Hu) as He.
    induction (expand_out g "IN_CATEGORY" Category rec) as [|[r cat] cats IHc];
      [constructor|].
    rewrite fmap_cons in He. apply NoDup_cons in He as [Hcat He].
    rewrite bind_cons. apply NoDup_app. split_and!.
    + destruct (decide (_ ∧ _)); [apply NoDup_singleton|constructor].
    + intros x Hx Hin.
      destruct (decide (_ ∧ _)) in Hx; [|by apply elem_of_nil in Hx].
      apply list_elem_of_singleton in Hx. subst x.
      apply list_elem_of_bind in Hin as ([r' cat'] & Hin & Hc').
      destruct (decide (_ ∧ _)) in Hin; [|by apply elem_of_nil in Hin].
      apply list_elem_of_singleton in Hin. simplify_eq/=.
      apply Hcat. apply list_elem_of_fmap. eexists. split; [|exact Hc']. done.
    + by apply IHc.
  - intros [rec' cat] Hin1 Hin2.
    apply list_elem_of_bind in Hin1 as ([r1 c1] & Hin1 & _).
    destruct (decide (_ ∧ _)) in Hin1; [|by apply elem_of_nil in Hin1].
    apply list_elem_of_singleton in Hin1. simplify_eq/=.
    apply list_elem_of_bind in Hin2 as (rec2 & Hin2 & Hrec2).
    apply list_elem_of_bind in Hin2 as ([r2 c2] & Hin2 & _).
    destruct (decide (_ ∧ _)) in Hin2; [|by apply elem_of_nil in Hin2].
    apply list_elem_of_singleton in Hin2. simplify_eq/=. done.
  - exact IH.
Qed.

(** Counting rows that are not repeated gives one for each. *)
Lemma aggregate_id_NoDup `{EqDecision A} (l : list A) :
  NoDup l →
  aggregate id (λ rows, Z.of_nat (length rows)) l = (λ x, (x, 1)) <$> l.
Proof.
  intros Hl. unfold aggregate, group_by.
  rewrite list_fmap_id, distinct_NoDup by done.
  rewrite <- list_fmap_compose. apply list_fmap_ext.
  intros i x Hx%list_elem_of_lookup_2. simpl. f_equal.
  assert (filter (λ a, a = x) l = [x]) as ->; [|done].
  apply NoDup_all_eq.
  - by apply NoDup_filter.
  - by apply list_elem_of_filter.
  - by intros y [? _]%list_elem_of_filter.
Qed.

Lemma priced_is_Some g p :
  priced g → has_label g Product p = true → is_Some (nprice (node g p)).
Proof.
  intros Hp Hl. destruct (priced_product g p Hp Hl) as [x Hx].
  destruct (nprice (node g p)); [eauto|done].
Qed.

(** No two [IN_CATEGORY] relationships leave the same node. *)
Lemma single_category_sources g :
  NoDup (rsrc <$> filter (λ x, rtype x = "IN_CATEGORY") (rels g)) →
  single_category g.
Proof.
  intros Hnd p.
  rewrite <- (length_fmap snd), expand_out_ends, length_fmap.
  set (P := λ x : Rel, (bool_decide (rsrc x = p ∧ rtype x = "IN_CATEGORY")
                        && has_label g Category (rdst x))%bool = true).
  assert (NoDup (rsrc <$> filter P (rels g))) as Hnd'.
  { eapply sublist_NoDup; [exact Hnd|]. apply fmap_sublist. clear Hnd.
    induction (rels g) as [|x rs IH]; [done|].
    rewrite !filter_cons. unfold P at 1.
    destruct (decide (_ && _ = true)) as [Hx|Hx].
    - apply andb_true_iff in Hx as [[? ?]%bool_decide_eq_true _].
      rewrite decide_True by done. by apply sublist_skip.
    - destruct (decide (rtype x = "IN_CATEGORY"));
        [by apply sublist_cons|done]. }
  assert (Forall (λ x, rsrc x = p) (filter P (rels g))) as Hall.
  { apply Forall_forall. intros x [Hx _]%list_elem_of_filter.
    by apply andb_true_iff in Hx as [[? ?]%bool_decide_eq_true _]. }
  destruct (filter P (rels g)) as [|x [|y rest]]; simpl; [lia|lia|].
  exfalso. apply Forall_cons in Hall as [Hx [Hy _]%Forall_cons].
  rewrite !fmap_cons in Hnd'. apply NoDup_cons in Hnd' as [Hnot _].
  apply Hnot. rewrite Hx, Hy. left.
Qed.

(** ** Counting rows *)

Lemma length_filter_fmap {A B} (P : B → Prop) `{∀ y, Decision (P y)}
    (Q : A → Prop) `{∀ x, Decision (Q x)} (f : A → B) (l : list A) :
  (∀ x, Q x ↔ P (f x)) →
  length (filter P (f <$> l)) = length (filter Q l).
Proof.
  intros HPQ. induction l as [|x l IH]; [done|].
  rewrite fmap_cons, !filter_cons.
  destruct (decide (P (f x))) as [HP|HP], (decide (Q x)) as [HQ|HQ];
    simpl; try (by rewrite IH).
  - destruct HQ. by apply HPQ.
  - destruct HP. by apply HPQ.
Qed.

Lemma length_filter_ext {A} (P Q : A → Prop) `{∀ x, Decision (P x)}
    `{∀ x, Decision (Q x)} (l : list A) :
  (∀ x, P x ↔ Q x) → length (filter P l) = length (filter Q l).
Proof.
  intros HPQ. induction l as [|x l IH]; [done|].
  rewrite !filter_cons.
  destruct (decide (P x)) as [HP|HP], (decide (Q x)) as [HQ|HQ]; simpl;
    try (by rewrite IH).
  - destruct HQ. by apply HPQ.
  - destruct HP. by apply HPQ.
Qed.

(** The rows of the category pattern from one node: one for each
    relationship of the type from the node to a node with the label. *)
Lemma expand_out_count g t l a b :
  length (filter (λ rc : nat * nat, rc.2 = b) (expand_out g t l a))
  = length (filter (λ x, rsrc x = a ∧ rtype x = t ∧ rdst x = b
                         ∧ has_label g l b = true) (rels g)).
Proof.
  transitivity (length (filter (λ c, c = b) (expand_out g t l a).*2)).
  { symmetry. by apply length_filter_fmap. }
  rewrite expand_out_ends.
  rewrite (length_filter_fmap (λ c, c = b) (λ x, rdst x = b) rdst) by done.
  rewrite list_filter_filter.
  apply length_filter_ext. intros x.
  rewrite andb_true_iff, bool_decide_eq_true. split.
  - intros (<- & [? ?] & ?). done.
  - intros (? & ? & <- & ?). done.
Qed.

Section list_products.
Context {db : OrderBy}.

(** [list_products] has one row for each [IN_CATEGORY] relationship from
    a product node to a category node. *)
Lemma list_products_query_count g p c :
  length (filter (λ row, row = (p, c)) (list_products_query g))
  = length (filter (λ x, rsrc x = p ∧ rtype x = "IN_CATEGORY" ∧ rdst x = c
                         ∧ has_label g Product p = true
                         ∧ has_label g Category c = true) (rels g)).
Proof.
  unfold list_products_query. rewrite order_by_Permutation.
  set (f := λ p : nat,
         cat ← expand_out g "IN_CATEGORY" Category p; [(p, cat.2)]).
  assert (∀ q x, x ∈ f q → x.1 = q) as Hkey.
  { intros q x Hx. unfold f in Hx.
    apply list_elem_of_bind in Hx as (rc & Hx & _).
    apply list_elem_of_singleton in Hx. by subst. }
  destruct (has_label g Product p) eqn:Hp.
  - assert (filter (λ row, row = (p, c)) (labelled g Product ≫= f)
            = filter (λ row, row = (p, c)) (f p)) as ->.
    { rewrite <- (filter_bind_key fst f Hkey (labelled g Product) p)
        by (apply positions_NoDup || by apply elem_of_labelled).
      rewrite list_filter_filter. apply list_filter_iff.
      intros row. split; [by intros ->|by intros [? _]]. }
    unfold f. rewrite list_bind_singleton.
    rewrite (length_filter_fmap (λ row, row = (p, c))
               (λ rc : nat * nat, rc.2 = c) (λ rc, (p, rc.2))).
    2:{ intros [r c']. simpl. split; [by intros ->|by intros [= ->]]. }
    rewrite expand_out_count.
    apply length_filter_ext. intros x. tauto.
  - rewrite !filter_none; [done| |].
    + by intros x _ (_ & _ & _ & ? & _).
    + intros row Hrow ->.
      apply list_elem_of_bind in Hrow as (q & Hrow & Hq).
      apply Hkey in Hrow. simpl in Hrow. subst q.
      apply elem_of_labelled in Hq. congruence.
Qed.

End list_products.

(** ** Rankings whose scores are all equal *)

Lemma Forall_const_sorted {A} (key : A → Z) (k : Z) (l : list A) :
  Forall (λ x, key x = k) l → StronglySorted (λ x y, key y ≤ key x) l.
Proof.
  induction 1 as [|x l Hx Hl IH]; constructor; [done|].
  eapply Forall_impl; [exact Hl|]. intros y Hy. simpl in *. rewrite Hx, Hy. lia.
Qed.

(** * The loader's failure policy *)




(** * Event rows *)

(** The event statement of a row with a plain type and a timestamp. *)
Lemma merge_event_rows row g t ts :
  ev_event_type row = Some t →
  is_symbolic_name (upper t) = true →
  ev_ts row = Some (Stamp ts) →
  merge_event row g
  = inr (foldl (merge_rel_set (upper t) (set_rts (Some ts))) g
               (cross (match_node_param Customer (ev_customer_id row) g)
                      (match_node_param Product (ev_product_id row) g))).
Proof.
  intros Ht Hname Hts. unfold merge_event, isoformat.
  rewrite Ht, Hts. simpl. unfold splice_rel_type. rewrite Hname. simpl.
  by destruct (cross _ _).
Qed.

(** C4, as stated, fails: an event type outside the known ones is neither
    rejected nor logged; it becomes the type of the relationship. *)
Lemma unknown_event_type_becomes_relationship_type :
  let row := event_row "C1" "P1" "hack" 7 in
  ("HACK" ∉ known_event_types)
  ∧ run_cypher (merge_event row) (mkWorld small_graph [])
    = (mkWorld (mkGraph (nodes small_graph)
                        (rels small_graph
                         ++ [mkRel 2 "HACK" 1 None (Some 7)])) [],
       inr ()).
Proof.
  split; [|by vm_compute].
  unfold known_event_types. intros H.
  repeat (apply elem_of_cons in H as [H|H]; [discriminate|]).
  by apply elem_of_nil in H.
Qed.

(** C4 (amended): no list of allowed types is consulted.  Whatever name
    the upper-cased event type is, the customer and the product of the row
    are joined by a relationship of that type carrying the timestamp. *)
Theorem event_relationship_type_is_upper_event_type
    (row : EventRow) (g : Graph) (t : string) (ts : Timestamp) (c p : nat) :
  ev_event_type row = Some t →
  is_symbolic_name (upper t) = true →
  ev_ts row = Some (Stamp ts) →
  c ∈ match_node_param Customer (ev_customer_id row) g →
  p ∈ match_node_param Product (ev_product_id row) g →
  ∃ g' r, merge_event row g = inr g' ∧ r ∈ rels g'
          ∧ rsrc r = c ∧ rtype r = upper t ∧ rdst r = p
          ∧ rts r = Some ts.
Proof.
  intros Ht Hname Hts Hc Hp.
  rewrite (merge_event_rows row g t ts Ht Hname Hts). eexists.
  destruct (foldl_merge_rel_set_elem (upper t) (set_rts (Some ts)) g
              (cross (match_node_param Customer (ev_customer_id row) g)
                     (match_node_param Product (ev_product_id row) g)) c p)
    as (r0 & Hr0 & Hin).
  { apply set_rts_keeps_ends. }
  { by intros []. }
  { by apply elem_of_cross. }
  exists (set_rts (Some ts) r0). split; [done|]. split; [done|].
  unfold is_rel in Hr0. apply bool_decide_eq_true in Hr0 as (? & ? & ?).
  by destruct r0.
Qed.

Lemma event_relationship_type_is_upper_event_type_witness :
  ∃ g' r, merge_event (event_row "C1" "P1" "hack" 7) small_graph = inr g'
          ∧ r ∈ rels g'
          ∧ rsrc r = 2%nat ∧ rtype r = "HACK" ∧ rdst r = 1%nat
          ∧ rts r = Some 7.
Proof.
  apply (event_relationship_type_is_upper_event_type
           (event_row "C1" "P1" "hack" 7) small_graph "hack" 7 2 1).
  - reflexivity.
  - reflexivity.
  - reflexivity.
  - vm_compute. apply list_elem_of_here.
  - vm_compute. apply list_elem_of_here.
Defined.

(** C5, as stated, fails: an event row whose customer is not in the store
    is not reported at all.  The statement returns normally and nothing is
    printed. *)
Lemma missing_endpoint_is_not_reported :
  let row := event_row "C9" "P1" "view" 7 in
  let w := mkWorld small_graph [] in
  match_node_param Customer (ev_customer_id row) small_graph = []
  ∧ ¬ reports_failure w (event_body row w).1 (event_body row w).2.
Proof.
  split; [by vm_compute|].
  intros [[e He]|Hout]; [by vm_compute in He|by vm_compute in Hout].
Qed.

(** C5 (amended): an event row one of whose endpoints is absent matches
    nothing.  Its statement succeeds without changing the store or
    printing, and the loop goes on with the rows after it. *)
Theorem event_with_missing_endpoint_is_skipped_silently
    (row : EventRow) (rest : list EventRow) (w : World) (t : string)
    (ts : Datetime64) :
  ev_event_type row = Some t →
  is_symbolic_name (upper t) = true →
  ev_ts row = Some ts →
  match_node_param Customer (ev_customer_id row) (graph w) = []
  ∨ match_node_param Product (ev_product_id row) (graph w) = [] →
  event_body row w = (w, inr ())
  ∧ for_each (row :: rest) event_body w = for_each rest event_body w.
Proof.
  intros Ht Hname Hts Hmiss.
  assert (merge_event row (graph w) = inr (graph w)) as Hrun.
  { unfold merge_event, isoformat. rewrite Ht, Hts. simpl.
    unfold splice_rel_type. rewrite Hname. simpl.
    destruct Hmiss as [-> | ->]; by rewrite ?cross_nil_r. }
  assert (event_body row w = (w, inr ())) as Hbody.
  { unfold event_body, run_cypher. rewrite Hrun. by destruct w. }
  split; [done|]. simpl. unfold mbind, Py_bind. by rewrite Hbody.
Qed.

Lemma event_with_missing_endpoint_is_skipped_silently_witness :
  let row := event_row "C9" "P1" "view" 7 in
  let w := mkWorld small_graph [] in
  event_body row w = (w, inr ())
  ∧ for_each [row; event_row "C1" "P1" "view" 8] event_body w
    = for_each [event_row "C1" "P1" "view" 8] event_body w.
Proof.
  apply (event_with_missing_endpoint_is_skipped_silently
           (event_row "C9" "P1" "view" 7) [event_row "C1" "P1" "view" 8]
           (mkWorld small_graph []) "view" (Stamp 7)).
  - reflexivity.
  - reflexivity.
  - reflexivity.
  - left. reflexivity.
Defined.

(** * Absent identifiers and idle customers *)

Section absent.
Context {db : OrderBy}.

Lemma no_purchases_no_rows {B} g k (f : nat → nat → list B) :
  (∀ c, c ∈ match_node Customer k g → expand_out g "PLACED" Order c = []) →
  (c ← match_node Customer k g; p ← purchases g c; f c p) = [].
Proof.
  intros H. apply bind_nil_forall. intros c Hc.
  by rewrite purchases_no_order by auto.
Qed.

Lemma collaborative_idle g k limit :
  0 ≤ limit →
  (∀ c, c ∈ match_node Customer k g → expand_out g "PLACED" Order c = []) →
  collaborative_query g k limit = inr [].
Proof.
  intros Hlimit H.
  unfold collaborative_query, collaborative_ranked, collaborative_scores,
    neighbours, customer_products.
  rewrite (no_purchases_no_rows g k (λ c p, [(c, p)])) by done.
  rewrite aggregate_nil. simpl.
  rewrite aggregate_nil, order_by_desc_nil. simpl.
  rewrite aggregate_nil, order_by_desc_nil.
  rewrite cy_limit_ok by done. by rewrite take_nil.
Qed.

Lemma content_based_idle g k limit :
  0 ≤ limit →
  (∀ c, c ∈ match_node Customer k g → expand_out g "PLACED" Order c = []) →
  content_based_query g k limit = inr [].
Proof.
  intros Hlimit H. unfold content_based_query.
  rewrite (no_purchases_no_rows g k
             (λ c p, cat ← expand_out g "IN_CATEGORY" Category p; [(c, cat.2)]))
    by done.
  rewrite aggregate_nil. simpl.
  rewrite aggregate_nil, order_by_desc_nil.
  rewrite cy_limit_ok by done. by rewrite take_nil.
Qed.

Lemma together_absent g k limit :
  0 ≤ limit → match_node Product k g = [] → together_query g k limit = inr [].
Proof.
  intros Hlimit Hm. unfold together_query.
  rewrite together_ranked_absent by done.
  rewrite cy_limit_ok by done. by rewrite take_nil.
Qed.

(** C9: an identifier that matches no node, and a customer without orders,
    give an empty list and no error. *)
Theorem absent_or_idle_gives_empty_list (g : Graph) (id : string) (limit : Z) :
  0 ≤ limit →
  (match_node Customer (KStr id) g = [] →
     collaborative_filtering g id limit = inr []
     ∧ content_based g id limit = inr [])
  ∧ ((∀ c, c ∈ match_node Customer (KStr id) g →
           expand_out g "PLACED" Order c = []) →
     collaborative_filtering g id limit = inr []
     ∧ content_based g id limit = inr [])
  ∧ (match_node Product (KStr id) g = [] →
     frequently_bought_together g id limit = inr []).
Proof.
  intros Hlimit.
  assert ((∀ c, c ∈ match_node Customer (KStr id) g →
             expand_out g "PLACED" Order c = []) →
          collaborative_filtering g id limit = inr []
          ∧ content_based g id limit = inr []) as Hidle.
  { intros H. unfold collaborative_filtering, content_based.
    by rewrite collaborative_idle, content_based_idle. }
  split_and!; [|done|].
  - intros Hnone. apply Hidle. intros c. rewrite Hnone.
    by intros ?%elem_of_nil.
  - intros Hnone. unfold frequently_bought_together.
    by rewrite together_absent.
Qed.

End absent.

Section absent_run.
#[local] Existing Instance insertion_order.

Lemma absent_or_idle_gives_empty_list_witness :
  (collaborative_filtering orphan_graph "C7" 5 = inr []
   ∧ content_based orphan_graph "C7" 5 = inr [])
  ∧ (collaborative_filtering orphan_graph "C2" 5 = inr []
     ∧ content_based orphan_graph "C2" 5 = inr [])
  ∧ frequently_bought_together orphan_graph "P7" 5 = inr [].
Proof.
  split; [|split].
  - apply (proj1 (absent_or_idle_gives_empty_list orphan_graph "C7" 5
                    ltac:(lia))).
    reflexivity.
  - apply (proj1 (proj2 (absent_or_idle_gives_empty_list orphan_graph "C2" 5
                           ltac:(lia)))).
    intros c Hc. vm_compute in Hc. apply list_elem_of_singleton in Hc.
    subst c. reflexivity.
  - apply (proj2 (proj2 (absent_or_idle_gives_empty_list orphan_graph "P7" 5
                           ltac:(lia)))).
    reflexivity.
Defined.

End absent_run.

(** * Products without a category *)

Section omitted.
Context {db : OrderBy}.

Lemma product_info_in_category g p r c info :
  (r, c) ∈ expand_out g "IN_CATEGORY" Category p →
  product_info g p c = inr info → in_category g info.
Proof.
  intros Hc. unfold product_info.
  destruct (py_float (nprice (node g p))) as [e|x]; [done|].
  cbv [mbind Result_bind mret Result_ret].
  intros [= <-]. exists p, r, c. done.
Qed.

Lemma scored_all_in_category g (rows : list (nat * Z)) items :
  mapM (scored g) (with_category g fst rows) = inr items →
  Forall (λ it, in_category g (item it)) items.
Proof.
  intros HF%mapM_Result_inv.
  assert (Forall (λ row : nat * Z * nat,
            ∃ r, (r, row.2) ∈ expand_out g "IN_CATEGORY" Category row.1.1)
            (with_category g fst rows)) as Hrows.
  { apply Forall_forall. intros [row c] Hin.
    apply elem_of_with_category in Hin as [_ ?]. done. }
  induction HF as [|[[p s] c] it rows' items' Hit HF IH]; [constructor|].
  apply Forall_cons in Hrows as [[r Hr] Hrows].
  constructor; [|by apply IH].
  unfold scored in Hit. simpl in *.
  destruct (product_info g p c) as [e|info] eqn:Hinfo; [done|].
  cbv [mbind Result_bind mret Result_ret] in Hit. simplify_eq. simpl.
  by eapply product_info_in_category.
Qed.

Lemma infos_all_in_category g (rows : list (nat * nat)) items :
  Forall (λ row, ∃ r, (r, row.2) ∈ expand_out g "IN_CATEGORY" Category row.1)
         rows →
  mapM (λ row, product_info g row.1 row.2) rows = inr items →
  Forall (in_category g) items.
Proof.
  intros Hrows HF%mapM_Result_inv.
  induction HF as [|[p c] it rows' items' Hit HF IH]; [constructor|].
  apply Forall_cons in Hrows as [[r Hr] Hrows].
  constructor; [|by apply IH]. by eapply product_info_in_category.
Qed.

(** C10: every dictionary an endpoint returns is of a product with a
    category; a product without one is left out however it ranks, as the
    best selling product of [orphan_graph] is, and fewer rows than the
    limit come back. *)
Theorem products_without_category_are_omitted :
  (∀ g items, list_products g = inr items → Forall (in_category g) items)
  ∧ (∀ g id limit items,
       collaborative_filtering g id limit = inr items →
       Forall (λ it, in_category g (item it)) items)
  ∧ (∀ g id limit items,
       content_based g id limit = inr items → Forall (in_category g) items)
  ∧ (∀ g limit items,
       popular_products g limit = inr items →
       Forall (λ it, in_category g (item it)) items)
  ∧ (∀ g id limit items,
       frequently_bought_together g id limit = inr items →
       Forall (λ it, in_category g (item it)) items)
  ∧ (popular_ranked orphan_graph = [(2%nat, 5); (1%nat, 2)]
     ∧ expand_out orphan_graph "IN_CATEGORY" Category 2 = []
     ∧ ∃ it, popular_products orphan_graph 5 = inr [it]
             ∧ product_id (item it) = KStr "P1").
Proof.
  split_and!.
  - intros g items. unfold list_products. apply infos_all_in_category.
    apply Forall_forall. intros [p c] Hin. simpl.
    unfold list_products_query in Hin. apply elem_of_order_by in Hin.
    apply list_elem_of_bind in Hin as (p' & Hin & _).
    apply list_elem_of_bind in Hin as ([r c'] & Hin & Hc).
    apply list_elem_of_singleton in Hin. simplify_eq. eauto.
  - intros g id limit items. unfold collaborative_filtering.
    destruct (collaborative_query g (KStr id) limit) as [e|rows] eqn:Hq;
      [done|]. simpl.
    unfold collaborative_query in Hq.
    destruct (cy_limit limit _) as [e|top]; [done|].
    cbv [mbind Result_bind mret Result_ret] in Hq.
    simplify_eq. apply scored_all_in_category.
  - intros g id limit items. unfold content_based.
    destruct (content_based_query g (KStr id) limit) as [e|rows] eqn:Hq;
      [done|]. simpl.
    apply infos_all_in_category.
    unfold content_based_query in Hq.
    destruct (cy_limit limit _) as [e|top] eqn:Htop; [done|].
    cbv [mbind Result_bind mret Result_ret] in Hq.
    simplify_eq. apply cy_limit_inv in Htop as [_ ->].
    apply Forall_forall. intros [p c] Hin.
    apply list_elem_of_fmap in Hin as ([[p' c'] n] & [= <- <-] & Hin).
    apply elem_of_take in Hin as (i & Hin%list_elem_of_lookup_2 & _).
    apply elem_of_order_by_desc in Hin.
    apply elem_of_aggregate in Hin as [Hin _].
    rewrite list_fmap_id in Hin.
    apply list_elem_of_bind in Hin as (tgt & Hin & _).
    apply list_elem_of_bind in Hin as (rec & Hin & _).
    apply list_elem_of_bind in Hin as ([r cat] & Hin & Hcat).
    case_decide; [|by apply elem_of_nil in Hin].
    apply list_elem_of_singleton in Hin. simplify_eq. simpl. eauto.
  - intros g limit items. unfold popular_products, popular_query.
    destruct (cy_limit limit _) as [e|top]; [done|]. simpl.
    apply scored_all_in_category.
  - intros g id limit items.
    unfold frequently_bought_together, together_query.
    destruct (cy_limit limit _) as [e|top]; [done|]. simpl.
    apply scored_all_in_category.
  - unfold popular_ranked.
    set (rows := aggregate _ _ _).
    assert (rows = [(1%nat, 2); (2%nat, 5)]) as -> by by vm_compute.
    by apply order_by_desc_two.
  - by vm_compute.
  - unfold popular_products, popular_query, popular_ranked.
    set (rows := aggregate _ _ _).
    assert (rows = [(1%nat, 2); (2%nat, 5)]) as -> by by vm_compute.
    rewrite order_by_desc_two by done.
    eexists. split; [by vm_compute|done].
Qed.

End omitted.

Section omitted_run.
#[local] Existing Instance insertion_order.

Lemma products_without_category_are_omitted_witness :
  Forall (λ it, in_category orphan_graph (item it))
    [mkScored (mkProductInfo (KStr "P1") (Some "Go Guide")
                             (FNum (2999 # 100)) (Some "Books")) 2].
Proof.
  apply (proj1 (proj2 (proj2 (proj2 products_without_category_are_omitted)))
           orphan_graph 5).
  reflexivity.
Defined.

End omitted_run.

(** * Popularity *)

Section popularity.
Context {db : OrderBy}.

Lemma popular_products_negative g limit :
  limit < 0 → popular_products g limit = inl ClientError.
Proof.
  intros Hneg. unfold popular_products, popular_query.
  by rewrite cy_limit_negative.
Qed.

Lemma popular_ranked_orphan :
  popular_ranked orphan_graph = [(2%nat, 5); (1%nat, 2)].
Proof.
  unfold popular_ranked.
  set (rows := aggregate _ _ _).
  assert (rows = [(1%nat, 2); (2%nat, 5)]) as -> by by vm_compute.
  by apply order_by_desc_two.
Qed.

(** C7 (amended): a negative limit raises.  For any other limit, on a
    store whose products are priced, [popular_products] ranks the product
    nodes that an order contains by the sum of the quantities of the
    [CONTAINS] relationships from order nodes, and takes the first
    [limit] of the ranking: [limit] products sold, or all of them when
    they are fewer, in descending order of that sum, none left out having
    a larger sum than one taken.  It returns one dictionary for each
    category of each product taken, in that order: a product without
    category gives none.  No customer enters the computation, and nothing
    fixes the order of products with equal sums. *)
Theorem popular_products_ranked_by_total_sold (g : Graph) (limit : Z) :
  (limit < 0 → popular_products g limit = inl ClientError)
  ∧ (0 ≤ limit → priced g →
     ∃ top items,
       popular_products g limit = inr items
       ∧ NoDup top.*1
       ∧ length top
         = (Z.to_nat limit
            `min` length (filter (λ p, expand_in g "CONTAINS" Order p ≠ [])
                                 (labelled g Product)))%nat
       ∧ Forall (λ x, has_label g Product x.1 = true
                      ∧ expand_in g "CONTAINS" Order x.1 ≠ []
                      ∧ x.2 = total_sold g x.1) top
       ∧ StronglySorted (λ x y, y.2 ≤ x.2) top
       ∧ (∀ p, has_label g Product p = true →
               expand_in g "CONTAINS" Order p ≠ [] → p ∉ top.*1 →
               Forall (λ x, total_sold g p ≤ x.2) top)
       ∧ Forall2 (λ row it,
                    product_id (item it) = nid (node g row.1.1)
                    ∧ product_name (item it) = nname (node g row.1.1)
                    ∧ category (item it) = nname (node g row.2)
                    ∧ score it = row.1.2)
                 (x ← top;
                  cat ← expand_out g "IN_CATEGORY" Category x.1;
                  [(x, cat.2)])
                 items
       ∧ StronglySorted (λ a b, score b ≤ score a) items).
Proof.
  split.
  { apply popular_products_negative. }
  intros Hlimit Hpriced.
  destruct (popular_ranked_spec g) as (Hsorted & Hnd & Hspec).
  set (top := take (Z.to_nat limit) (popular_ranked g)).
  destruct (take_ranking (λ p, expand_in g "CONTAINS" Order p ≠ [])
              (total_sold g) (labelled g Product) (popular_ranked g)
              (Z.to_nat limit))
    as (Hnd' & Hlen & Htop & Hsorted' & Hbest);
    [apply positions_NoDup|done|done| |].
  { intros p s. rewrite Hspec, elem_of_labelled. tauto. }
  fold top in Hnd', Hlen, Htop, Hsorted', Hbest.
  assert (Forall (λ x : nat * Z, has_label g Product x.1 = true
                                 ∧ expand_in g "CONTAINS" Order x.1 ≠ []
                                 ∧ x.2 = total_sold g x.1) top) as Htop'.
  { eapply Forall_impl; [exact Htop|]. intros x (Hx & ? & ?).
    by apply elem_of_labelled in Hx. }
  destruct (scored_ok g (with_category g fst top) Hpriced)
    as (items & Hitems & HF).
  { apply with_category_has_label.
    eapply Forall_impl; [exact Htop'|]. by intros ? [? _]. }
  exists top, items. split_and!; try done.
  - unfold popular_products, popular_query. by rewrite cy_limit_ok.
  - intros p Hp Hsold Hnot. apply Hbest; [by apply elem_of_labelled|done..].
  - by eapply scored_sorted.
Qed.

End popularity.

Section popularity_runs.
#[local] Existing Instance insertion_order.

(** C7, as stated, fails.  In [tie_graph] Cups (P1) and Kettle (P2) were
    both sold once: ordered one way the rows come back with P1 before P2,
    ordered the other way with P2 before P1, and the query has no second
    sort key to decide between them.  In [orphan_graph] the best selling
    product has no category, and with limit 1 nothing is returned,
    however the rows are ordered.  A negative limit raises. *)
Lemma popular_ties_are_left_to_the_database :
  (∃ tea cups kettle,
     @popular_products insertion_order tie_graph 5
     = inr [tea; cups; kettle]
     ∧ @popular_products reversed_order tie_graph 5
       = inr [tea; kettle; cups]
     ∧ score cups = score kettle
     ∧ product_id (item cups) = KStr "P1"
     ∧ product_id (item kettle) = KStr "P2")
  ∧ (∀ db : OrderBy,
       total_sold orphan_graph 2 = 5
       ∧ has_label orphan_graph Product 2 = true
       ∧ @popular_products db orphan_graph 1 = inr [])
  ∧ (∀ (db : OrderBy) (g : Graph),
       @popular_products db g (-1) = inl ClientError).
Proof.
  split_and!.
  - do 3 eexists. split_and!; by vm_compute.
  - intros db. split_and!; [by vm_compute..|].
    unfold popular_products, popular_query.
    rewrite popular_ranked_orphan. by vm_compute.
  - intros db g. by apply popular_products_negative.
Qed.

Lemma popular_products_ranked_by_total_sold_witness :
  ∃ top items,
    popular_products orphan_graph 5 = inr items
    ∧ NoDup top.*1
    ∧ length top
      = (Z.to_nat 5
         `min` length (filter
                         (λ p, expand_in orphan_graph "CONTAINS" Order p ≠ [])
                         (labelled orphan_graph Product)))%nat
    ∧ Forall (λ x, has_label orphan_graph Product x.1 = true
                   ∧ expand_in orphan_graph "CONTAINS" Order x.1 ≠ []
                   ∧ x.2 = total_sold orphan_graph x.1) top
    ∧ StronglySorted (λ x y, y.2 ≤ x.2) top
    ∧ (∀ p, has_label orphan_graph Product p = true →
            expand_in orphan_graph "CONTAINS" Order p ≠ [] → p ∉ top.*1 →
            Forall (λ x, total_sold orphan_graph p ≤ x.2) top)
    ∧ Forall2 (λ row it,
                 product_id (item it) = nid (node orphan_graph row.1.1)
                 ∧ product_name (item it) = nname (node orphan_graph row.1.1)
                 ∧ category (item it) = nname (node orphan_graph row.2)
                 ∧ score it = row.1.2)
              (x ← top;
               cat ← expand_out orphan_graph "IN_CATEGORY" Category x.1;
               [(x, cat.2)])
              items
    ∧ StronglySorted (λ a b, score b ≤ score a) items.
Proof.
  apply (proj2 (popular_products_ranked_by_total_sold orphan_graph 5)).
  - lia.
  - apply (bool_decide_unpack _). by vm_compute.
Defined.

End popularity_runs.

(** * Frequently bought together *)

Section together.
Context {db : OrderBy}.

Lemma frequently_bought_together_negative g id limit :
  limit < 0 → frequently_bought_together g id limit = inl ClientError.
Proof.
  intros Hneg. unfold frequently_bought_together, together_query.
  by rewrite cy_limit_negative.
Qed.

(** C8 (amended): a negative limit raises.  For any other limit, on a
    store with unique identifiers and priced products,
    [frequently_bought_together] ranks the product nodes other than the
    one asked for, [x], that share an order with [x], by the number of
    distinct orders that contain both, and takes the first [limit] of
    the ranking: [limit] such products, or all of them when they are
    fewer, in descending order of that number, none left out having a
    larger number than one taken.  It returns one dictionary for each
    category of each product taken, in that order (a product without
    category gives none), and never one of the product asked for. *)
Theorem frequently_bought_together_ranks_co_occurrences
    (g : Graph) (id : string) (limit : Z) :
  (limit < 0 → frequently_bought_together g id limit = inl ClientError)
  ∧ (0 ≤ limit → priced g → unique_ids g →
     ∃ top items,
       frequently_bought_together g id limit = inr items
       ∧ NoDup top.*1
       ∧ StronglySorted (λ r1 r2, r2.2 ≤ r1.2) top
       ∧ (match_node Product (KStr id) g = [] → top = [])
       ∧ (∀ x, x ∈ match_node Product (KStr id) g →
            length top
            = (Z.to_nat limit
               `min` length (filter (λ rec, rec ≠ x
                                            ∧ common_orders g x rec ≠ [])
                                    (labelled g Product)))%nat
            ∧ Forall (λ r, has_label g Product r.1 = true ∧ r.1 ≠ x
                           ∧ common_orders g x r.1 ≠ []
                           ∧ r.2 = Z.of_nat (length (common_orders g x r.1)))
                     top
            ∧ (∀ rec, has_label g Product rec = true → rec ≠ x →
                      common_orders g x rec ≠ [] → rec ∉ top.*1 →
                      Forall (λ r, Z.of_nat (length (common_orders g x rec))
                                   ≤ r.2) top))
       ∧ Forall2 (λ row it,
                    product_id (item it) = nid (node g row.1.1)
                    ∧ product_name (item it) = nname (node g row.1.1)
                    ∧ category (item it) = nname (node g row.2)
                    ∧ score it = row.1.2)
                 (r ← top;
                  cat ← expand_out g "IN_CATEGORY" Category r.1;
                  [(r, cat.2)])
                 items
       ∧ Forall (λ it, product_id (item it) ≠ KStr id) items
       ∧ StronglySorted (λ a b, score b ≤ score a) items).
Proof.
  split.
  { apply frequently_bought_together_negative. }
  intros Hlimit Hpriced Hunique.
  set (ranked := together_ranked g (KStr id)).
  set (top := take (Z.to_nat limit) ranked).
  assert (Forall (λ row : nat * Z, has_label g Product row.1 = true
                                   ∧ nid (node g row.1) ≠ KStr id) ranked)
    as Hranked.
  { apply Forall_forall. intros [rec s] Hin. simpl.
    destruct (match_node Product (KStr id) g) as [|x xs] eqn:Hm.
    { unfold ranked in Hin. rewrite together_ranked_absent in Hin by done.
      by apply elem_of_nil in Hin. }
    assert (match_node Product (KStr id) g = [x]) as Hx.
    { apply unique_match; [done|]. rewrite Hm. left. }
    pose proof (proj1 (together_ranked_spec g (KStr id) x Hx rec s) Hin)
      as (Hrec & Hne & _).
    split; [done|]. intros Hid. apply Hne.
    pose proof (match_node_of_label g Product rec Hrec) as Hin'.
    rewrite Hid, Hx in Hin'. by apply list_elem_of_singleton in Hin'. }
  assert (Forall (λ row : nat * Z * nat, has_label g Product row.1.1 = true
                                         ∧ nid (node g row.1.1) ≠ KStr id)
                 (with_category g fst top)) as Hrows.
  { apply Forall_forall. intros [row c] Hin.
    apply elem_of_with_category in Hin as [Hin _].
    apply elem_of_take in Hin as (i & Hi%list_elem_of_lookup_2 & _).
    exact (Forall_elem _ _ _ Hranked Hi). }
  assert (StronglySorted (λ x y : nat * Z, y.2 ≤ x.2) ranked) as Hsorted
    by apply order_by_desc_desc.
  destruct (scored_ok g (with_category g fst top) Hpriced)
    as (items & Hitems & HF).
  { eapply Forall_impl; [done|]. by intros ? [? _]. }
  exists top, items. split_and!; try done.
  - unfold frequently_bought_together, together_query.
    by rewrite cy_limit_ok.
  - unfold top. rewrite fmap_take. apply NoDup_take, together_ranked_keys.
  - by apply StronglySorted_take.
  - intros Hnone. unfold top, ranked.
    rewrite together_ranked_absent by done. by rewrite take_nil.
  - intros x Hx%(unique_match _ _ _ _ Hunique).
    destruct (take_ranking (λ rec, rec ≠ x ∧ common_orders g x rec ≠ [])
                (λ rec, Z.of_nat (length (common_orders g x rec)))
                (labelled g Product) ranked (Z.to_nat limit))
      as (_ & Hlen & Htop & _ & Hbest);
      [apply positions_NoDup|apply together_ranked_keys|done| |].
    { intros rec s. unfold ranked.
      rewrite (together_ranked_spec g (KStr id) x Hx), elem_of_labelled.
      tauto. }
    fold top in Hlen, Htop, Hbest. split_and!; [done| |].
    + eapply Forall_impl; [exact Htop|]. intros r (Hr & [? ?] & ?).
      by apply elem_of_labelled in Hr.
    + intros rec Hrec Hne Hsome Hnot.
      apply Hbest; [by apply elem_of_labelled|done..].
  - apply Forall_forall. intros it Hit.
    apply list_elem_of_lookup in Hit as [i Hi].
    destruct (Forall2_lookup_r _ _ _ _ _ HF Hi) as (row & Hrow & Hid & _).
    rewrite Hid.
    by destruct (Forall_elem _ _ _ Hrows (list_elem_of_lookup_2 _ _ _ Hrow)).
  - eapply scored_sorted; [|done]. by apply StronglySorted_take.
Qed.

Lemma together_orphan :
  frequently_bought_together orphan_graph "P1" 5 = inr [].
Proof.
  unfold frequently_bought_together, together_query, together_ranked.
  set (rows := aggregate _ _ _).
  assert (rows = [(2%nat, 1)]) as -> by by vm_compute.
  rewrite order_by_desc_singleton. by vm_compute.
Qed.

End together.

Section together_runs.
#[local] Existing Instance insertion_order.

(** C8, as stated, fails.  In [orphan_graph] the product P2 shares the
    order O1 with P1, and nothing is returned for P1, however the rows
    are ordered: P2 has no category.  A negative limit raises. *)
Lemma co_purchased_product_without_category_is_left_out :
  match_node Product (KStr "P1") orphan_graph = [1%nat]
  ∧ has_label orphan_graph Product 2 = true
  ∧ common_orders orphan_graph 1 2 = [5%nat]
  ∧ (∀ db : OrderBy,
       @frequently_bought_together db orphan_graph "P1" 5 = inr [])
  ∧ (∀ (db : OrderBy) g id,
       @frequently_bought_together db g id (-1) = inl ClientError).
Proof.
  split_and!; [by vm_compute..| |].
  - intros db. apply together_orphan.
  - intros db g id. by apply frequently_bought_together_negative.
Qed.

Lemma frequently_bought_together_ranks_co_occurrences_witness :
  ∃ top items,
    frequently_bought_together tie_graph "P0" 5 = inr items
    ∧ NoDup top.*1
    ∧ StronglySorted (λ r1 r2, r2.2 ≤ r1.2) top
    ∧ (match_node Product (KStr "P0") tie_graph = [] → top = [])
    ∧ (∀ x, x ∈ match_node Product (KStr "P0") tie_graph →
         length top
         = (Z.to_nat 5
            `min` length (filter (λ rec, rec ≠ x
                                         ∧ common_orders tie_graph x rec ≠ [])
                                 (labelled tie_graph Product)))%nat
         ∧ Forall (λ r, has_label tie_graph Product r.1 = true ∧ r.1 ≠ x
                        ∧ common_orders tie_graph x r.1 ≠ []
                        ∧ r.2 = Z.of_nat
                                  (length (common_orders tie_graph x r.1)))
                  top
         ∧ (∀ rec, has_label tie_graph Product rec = true → rec ≠ x →
                   common_orders tie_graph x rec ≠ [] → rec ∉ top.*1 →
                   Forall (λ r, Z.of_nat
                                  (length (common_orders tie_graph x rec))
                                ≤ r.2) top))
    ∧ Forall2 (λ row it,
                 product_id (item it) = nid (node tie_graph row.1.1)
                 ∧ product_name (item it) = nname (node tie_graph row.1.1)
                 ∧ category (item it) = nname (node tie_graph row.2)
                 ∧ score it = row.1.2)
              (r ← top;
               cat ← expand_out tie_graph "IN_CATEGORY" Category r.1;
               [(r, cat.2)])
              items
    ∧ Forall (λ it, product_id (item it) ≠ KStr "P0") items
    ∧ StronglySorted (λ a b, score b ≤ score a) items.
Proof.
  apply (proj2 (frequently_bought_together_ranks_co_occurrences
                  tie_graph "P0" 5)).
  - lia.
  - apply (bool_decide_unpack _). by vm_compute.
  - apply (bool_decide_unpack _). by vm_compute.
Defined.

End together_runs.

(** * Collaborative filtering *)

Section collaborative.
Context {db : OrderBy}.




End collaborative.

Section collaborative_runs.
#[local] Existing Instance insertion_order.



End collaborative_runs.

(** * Re-running the load *)



(** * Products and their categories *)






(** * Properties of [chunk] *)

(** X1: with a positive size [chunk] loses no row and repeats none: the
    frames it yields, one after the other, are the rows of the frame in
    their order. *)
Theorem chunk_frames_give_back_the_rows {A} (df : list A) (size : Z) :
  0 < size → ∃ frames, chunk df size = inr frames ∧ concat frames = df.
Proof.
  intros Hs. eexists. split; [by apply chunk_frames|].
  apply concat_frames; [lia|].
  pose proof (frames_cover (Z.of_nat (length df)) size Hs ltac:(lia))
    as [H _].
  nia.
Qed.

Lemma chunk_frames_give_back_the_rows_witness :
  ∃ frames, chunk [1; 2; 3; 4; 5] 2 = inr frames
            ∧ concat frames = [1; 2; 3; 4; 5].
Proof. apply (chunk_frames_give_back_the_rows [1; 2; 3; 4; 5] 2). lia. Defined.

(** X2: with a positive size there are as many frames as the rows need
    (the number of rows over the size, rounded up; none for an empty
    frame); no frame is empty or longer than the size, and every frame
    but the last has exactly [size] rows. *)
Theorem chunk_frames_are_full_but_the_last {A} (df : list A) (size : Z) :
  0 < size →
  ∃ frames,
    chunk df size = inr frames
    ∧ Z.of_nat (length frames) = (Z.of_nat (length df) + size - 1) / size
    ∧ Forall (λ f, 1 ≤ Z.of_nat (length f) ≤ size) frames
    ∧ ∀ i f, frames !! i = Some f → (S i < length frames)%nat →
             Z.of_nat (length f) = size.
Proof.
  intros Hs. eexists. split; [by apply chunk_frames|].
  set (n := Z.of_nat (length df)).
  set (c := range_length 0 n size).
  pose proof (frames_cover n size Hs ltac:(lia)) as [Hup Hlow]. fold c in Hup, Hlow.
  assert (∀ (i : nat) f,
            ((λ k : nat, take (Z.to_nat size) (drop (k * Z.to_nat size) df))
               <$> seq 0 c) !! i = Some f →
            (i < c)%nat
            ∧ Z.of_nat (length f) = Z.min size (n - Z.of_nat i * size))
    as Hframe.
  { intros i f Hi. rewrite list_lookup_fmap in Hi.
    destruct (seq 0 c !! i) as [k|] eqn:Hk; [|done].
    apply lookup_seq in Hk as [-> Hlt]. simpl in Hi. injection Hi as <-.
    split; [done|]. rewrite length_take, length_drop. simpl.
    assert (Z.of_nat (i * Z.to_nat size) = Z.of_nat i * size) as Hp by nia.
    assert (Z.of_nat i * size < n) as Hin by nia.
    rewrite <- Hp in *. unfold n in *. lia. }
  split_and!.
  - rewrite length_fmap, length_seq. unfold c.
    rewrite range_length_up by done. rewrite Z2Nat.id; [done|].
    apply Z.div_pos; lia.
  - apply Forall_forall. intros f Hf.
    apply list_elem_of_lookup in Hf as [i Hi].
    destruct (Hframe i f Hi) as [Hlt ->].
    nia.
  - intros i f Hi Hnext. rewrite length_fmap, length_seq in Hnext.
    destruct (Hframe i f Hi) as [Hlt ->].
    nia.
Qed.

Lemma chunk_frames_are_full_but_the_last_witness :
  ∃ frames,
    chunk [1; 2; 3; 4; 5] 2 = inr frames
    ∧ Z.of_nat (length frames) = (Z.of_nat (length [1; 2; 3; 4; 5]) + 2 - 1) / 2
    ∧ Forall (λ f, 1 ≤ Z.of_nat (length f) ≤ 2) frames
    ∧ ∀ i f, frames !! i = Some f → (S i < length frames)%nat →
             Z.of_nat (length f) = 2.
Proof.
  apply (chunk_frames_are_full_but_the_last [1; 2; 3; 4; 5] 2). lia.
Defined.

(** X3: a size that is not positive never gives a frame: a zero size
    raises [ValueError], and with a negative size [chunk] yields nothing
    at all, whatever rows the frame has. *)
Theorem chunk_without_positive_size {A} (df : list A) (size : Z) :
  size ≤ 0 →
  chunk df size = if decide (size = 0) then inl ValueError else inr [].
Proof.
  intros Hs. unfold chunk, py_range. case_decide as H0; [done|].
  cbv [mbind Result_bind mret Result_ret]. f_equal.
  unfold range_elems, range_length.
  rewrite decide_False by lia. by rewrite decide_False by lia.
Qed.

Lemma chunk_without_positive_size_witness :
  chunk [1; 2; 3] (-2) = inr [] ∧ chunk [1; 2; 3] 0 = inl ValueError.
Proof.
  split.
  - apply (chunk_without_positive_size [1; 2; 3] (-2)). lia.
  - apply (chunk_without_positive_size [1; 2; 3] 0). lia.
Defined.

(** * Properties of [run_cypher_file] *)

Lemma strip_filter_fmap (l : list string) :
  strip <$> filter (λ s, strip s ≠ EmptyString) l
  = filter (λ t, t ≠ EmptyString) (strip <$> l).
Proof.
  induction l as [|s l IH]; [done|].
  rewrite fmap_cons, !filter_cons. case_decide; [|done].
  by rewrite fmap_cons, IH.
Qed.

(** X4: every statement read from a schema file is ready to be sent: it
    is not empty, it neither begins nor ends with white space (stripping
    it again changes nothing), and it holds no semicolon. *)
Theorem parsed_statements_are_clean (content : string) :
  Forall (λ stmt, stmt ≠ EmptyString ∧ strip stmt = stmt
                  ∧ ¬ occurs ";"%char stmt)
         (parse_statements content).
Proof.
  apply Forall_forall. intros stmt Hin. unfold parse_statements in Hin.
  apply list_elem_of_fmap in Hin as (s & -> & Hs).
  apply list_elem_of_filter in Hs as [Hne Hs].
  split_and!; [done|apply strip_idem|].
  intros Hocc%occurs_strip.
  by apply (proj1 (Forall_forall _ _) (py_split_pieces ";"%char content) s Hs).
Qed.

(** X5: the statements of a file are what stands between its
    semicolons: for pieces of text without semicolon, written one after
    the other with a semicolon between them, the file reads back as the
    stripped pieces, those that are blank left out. *)
Theorem statements_are_the_pieces_between_semicolons (pieces : list string) :
  Forall (λ p, ¬ occurs ";"%char p) pieces →
  parse_statements (py_join ";" pieces)
  = filter (λ stmt, stmt ≠ EmptyString) (strip <$> pieces).
Proof.
  intros Hp. unfold parse_statements. rewrite strip_filter_fmap.
  destruct pieces as [|p rest]; [done|].
  by rewrite (py_split_join ";"%char (p :: rest)).
Qed.

Lemma statements_are_the_pieces_between_semicolons_witness :
  parse_statements
    (py_join ";" ["CREATE INDEX a "; "  "; " CREATE INDEX b"; ""])
  = filter (λ stmt, stmt ≠ EmptyString)
      (strip <$> ["CREATE INDEX a "; "  "; " CREATE INDEX b"; ""]).
Proof.
  apply (statements_are_the_pieces_between_semicolons
           ["CREATE INDEX a "; "  "; " CREATE INDEX b"; ""]).
  repeat constructor; simpl; intros H; decompose [or] H; done.
Defined.

(** X6: [run_cypher_file] never raises because of a statement.  Whatever
    the store answers, every statement of the file is tried, in the
    order of the file, on the store as the statements before it left it;
    one that fails leaves the store as it was and the next one is tried;
    one line is printed for the file and one for each statement. *)
Theorem run_cypher_file_tries_every_statement
    (cypher : string → Graph → Result Graph)
    (str_exn : string → Graph → Exn → string)
    (filepath content : string) (w : World) :
  (run_cypher_file cypher str_exn filepath content w).2 = inr ()
  ∧ graph (run_cypher_file cypher str_exn filepath content w).1
    = tolerant cypher (parse_statements content) (graph w)
  ∧ length (stdout (run_cypher_file cypher str_exn filepath content w).1)
    = (length (stdout w) + 1 + length (parse_statements content))%nat.
Proof.
  unfold run_cypher_file. rewrite bind_print.
  set (w1 := mkWorld _ _).
  destruct (try_statements_ok cypher str_exn (parse_statements content) w1)
    as (Hr & Hg & Hl).
  split_and!; [done|done|].
  rewrite Hl. unfold w1. simpl. rewrite length_app. simpl. lia.
Qed.

(** * Properties of [wait_for_postgres] and [wait_for_neo4j] *)

(** X7: when the first [k] attempts fail with [OperationalError] and
    the next one, still within [max_retries], succeeds,
    [wait_for_postgres] returns [True] after [k + 1] attempts, having
    slept [delay] once after each failure and never after the success. *)
Theorem wait_for_postgres_returns_at_first_success
    (postgres : nat → option Raised) (max_retries delay : Z) (k : nat)
    (w : Waiting) :
  0 ≤ delay → Z.of_nat k < max_retries →
  (∀ j, (j < k)%nat →
        ∃ msg, postgres (tried w + j)%nat = Some (OperationalError msg)) →
  postgres (tried w + k)%nat = None →
  wait_for_postgres postgres max_retries delay w
  = (mkWaiting (S (tried w + k)) (slept w ++ replicate k delay)
       (printed w ++ ["⏳ Waiting for PostgreSQL..."; "PostgreSQL is ready!"])
       (drivers_open w),
     inr true).
Proof.
  intros Hd Hk Hfail Hok. unfold wait_for_postgres.
  unfold mbind, Wait_bind, wprint. simpl.
  rewrite range_elems_count, (seq_split_at k) by lia.
  rewrite fmap_app, fmap_cons.
  rewrite postgres_attempts_failed; [|done|lia|done].
  rewrite postgres_attempts_cons. simpl. rewrite Hok.
  by rewrite <- app_assoc.
Qed.

Lemma wait_for_postgres_returns_at_first_success_witness :
  wait_for_postgres
    (λ n, if decide (n < 2)%nat then Some (OperationalError "refused")
          else None) 30 2 still
  = (mkWaiting 3 [2; 2]
       ["⏳ Waiting for PostgreSQL..."; "PostgreSQL is ready!"] 0,
     inr true).
Proof.
  apply (wait_for_postgres_returns_at_first_success
           (λ n, if decide (n < 2)%nat then Some (OperationalError "refused")
                 else None) 30 2 2 still).
  - lia.
  - lia.
  - intros j Hj. exists "refused". simpl. by rewrite decide_True.
  - done.
Defined.

(** X8: when all of [max_retries] attempts (at least one) fail with
    [OperationalError], [wait_for_postgres] raises the plain exception
    that PostgreSQL is not available, after exactly [max_retries]
    attempts and one sleep fewer: it does not sleep after the last. *)
Theorem wait_for_postgres_gives_up_after_max_retries
    (postgres : nat → option Raised) (max_retries delay : Z) (w : Waiting) :
  0 ≤ delay → 1 ≤ max_retries →
  (∀ j, Z.of_nat j < max_retries →
        ∃ msg, postgres (tried w + j)%nat = Some (OperationalError msg)) →
  wait_for_postgres postgres max_retries delay w
  = (mkWaiting (tried w + Z.to_nat max_retries)%nat
       (slept w ++ replicate (Z.to_nat max_retries - 1) delay)
       (printed w ++ ["⏳ Waiting for PostgreSQL..."])
       (drivers_open w),
     inl (PlainException "PostgreSQL not available after max retries")).
Proof.
  intros Hd Hn Hfail. unfold wait_for_postgres.
  unfold mbind, Wait_bind, wprint. simpl.
  set (k := (Z.to_nat max_retries - 1)%nat).
  rewrite range_elems_count, (seq_split_at k) by lia.
  replace (Z.to_nat max_retries - S k)%nat with 0%nat by lia.
  rewrite fmap_app, fmap_cons.
  rewrite postgres_attempts_failed; [|done|lia|].
  - rewrite postgres_attempts_cons. simpl.
    destruct (Hfail k ltac:(lia)) as [msg ->].
    rewrite decide_False by lia. do 2 f_equal. lia.
  - intros j Hj. apply Hfail. lia.
Qed.

Lemma wait_for_postgres_gives_up_after_max_retries_witness :
  wait_for_postgres (λ _, Some (OperationalError "refused")) 3 2 still
  = (mkWaiting 3 [2; 2] ["⏳ Waiting for PostgreSQL..."] 0,
     inl (PlainException "PostgreSQL not available after max retries")).
Proof.
  apply (wait_for_postgres_gives_up_after_max_retries
           (λ _, Some (OperationalError "refused")) 3 2 still).
  - lia.
  - lia.
  - intros j _. by exists "refused".
Defined.

(** X9: only [OperationalError] is waited over: any other exception of
    an attempt leaves [wait_for_postgres] at once, as it is, with no
    sleep after it and no further attempt. *)
Theorem wait_for_postgres_does_not_retry_other_errors
    (postgres : nat → option Raised) (max_retries delay : Z) (k : nat)
    (e : Raised) (w : Waiting) :
  0 ≤ delay → Z.of_nat k < max_retries →
  (∀ j, (j < k)%nat →
        ∃ msg, postgres (tried w + j)%nat = Some (OperationalError msg)) →
  postgres (tried w + k)%nat = Some e → (∀ msg, e ≠ OperationalError msg) →
  wait_for_postgres postgres max_retries delay w
  = (mkWaiting (S (tried w + k)) (slept w ++ replicate k delay)
       (printed w ++ ["⏳ Waiting for PostgreSQL..."]) (drivers_open w),
     inl e).
Proof.
  intros Hd Hk Hfail He Hother. unfold wait_for_postgres.
  unfold mbind, Wait_bind, wprint. simpl.
  rewrite range_elems_count, (seq_split_at k) by lia.
  rewrite fmap_app, fmap_cons.
  rewrite postgres_attempts_failed; [|done|lia|done].
  rewrite postgres_attempts_cons. simpl. rewrite He.
  destruct e as [msg| | |]; [by destruct (Hother msg)|done..].
Qed.

Lemma wait_for_postgres_does_not_retry_other_errors_witness :
  wait_for_postgres
    (λ n, if decide (n < 1)%nat then Some (OperationalError "refused")
          else Some (DriverError "bad port")) 30 2 still
  = (mkWaiting 2 [2] ["⏳ Waiting for PostgreSQL..."] 0,
     inl (DriverError "bad port")).
Proof.
  apply (wait_for_postgres_does_not_retry_other_errors
           (λ n, if decide (n < 1)%nat then Some (OperationalError "refused")
                 else Some (DriverError "bad port")) 30 2 1
           (DriverError "bad port") still).
  - lia.
  - lia.
  - intros j Hj. exists "refused". simpl. by rewrite decide_True.
  - done.
  - done.
Defined.

(** X10: whatever the store answers, [wait_for_postgres] tries at most
    [max_retries] times and sleeps at most [max_retries - 1] times.  It
    returns [True] only after an attempt that succeeded, and it returns
    [False] exactly when [max_retries] is not positive: then nothing is
    tried and nothing is raised. *)
Theorem wait_for_postgres_stays_within_max_retries
    (postgres : nat → option Raised) (max_retries delay : Z) (w : Waiting) :
  Z.of_nat (tried (wait_for_postgres postgres max_retries delay w).1)
  ≤ Z.of_nat (tried w) + Z.max max_retries 0
  ∧ Z.of_nat (length (slept (wait_for_postgres postgres max_retries delay
                               w).1))
    ≤ Z.of_nat (length (slept w)) + Z.max (max_retries - 1) 0
  ∧ ((wait_for_postgres postgres max_retries delay w).2 = inr true →
     ∃ t, tried (wait_for_postgres postgres max_retries delay w).1 = S t
          ∧ (tried w ≤ t)%nat ∧ postgres t = None)
  ∧ ((wait_for_postgres postgres max_retries delay w).2 = inr false ↔
     max_retries ≤ 0)
  ∧ (max_retries ≤ 0 →
     tried (wait_for_postgres postgres max_retries delay w).1 = tried w
     ∧ slept (wait_for_postgres postgres max_retries delay w).1 = slept w).
Proof.
  unfold wait_for_postgres. unfold mbind, Wait_bind, wprint. simpl.
  set (w1 := mkWaiting _ _ _ _).
  rewrite range_elems_count.
  pose proof (postgres_attempts_bounds postgres
                (Z.of_nat <$> seq 0 (Z.to_nat max_retries))
                max_retries delay w1) as (Ht & Hs & _).
  rewrite length_fmap, length_seq in Ht. simpl in Ht, Hs.
  assert (length (filter (λ i : Z, (i < max_retries - 1)%Z)
                         (Z.of_nat <$> seq 0 (Z.to_nat max_retries)))
          ≤ Z.to_nat (max_retries - 1))%nat as Hf.
  { destruct (decide (max_retries ≤ 0)).
    { replace (Z.to_nat max_retries) with 0%nat by lia. simpl. lia. }
    rewrite (seq_split_at (Z.to_nat max_retries - 1)) by lia.
    replace (Z.to_nat max_retries - S (Z.to_nat max_retries - 1))%nat
      with 0%nat by lia.
    rewrite fmap_app, filter_app, length_app. simpl.
    rewrite filter_cons, decide_False by lia. simpl.
    pose proof (length_filter (λ i : Z, i < max_retries - 1)
                  (Z.of_nat <$> seq 0 (Z.to_nat max_retries - 1))) as Hl.
    rewrite length_fmap, length_seq in Hl. lia. }
  split_and!.
  - lia.
  - lia.
  - intros Hr. by apply postgres_attempts_true in Hr.
  - split.
    + intros Hr. destruct (decide (max_retries ≤ 0)); [done|]. exfalso.
      revert Hr. apply postgres_attempts_false; lia.
    + intros Hn. by replace (Z.to_nat max_retries) with 0%nat by lia.
  - intros Hn. by replace (Z.to_nat max_retries) with 0%nat by lia.
Qed.

(** X11: [wait_for_neo4j] waits over every exception, at whatever step
    of the attempt it is raised.  When the attempts before the [k]-th
    fail and that one, still within [max_retries], succeeds, it returns
    [True]; it has slept once after each failure, and every failed
    attempt that had created its driver has left it open: only the
    attempt that succeeds closes its own. *)
Theorem wait_for_neo4j_returns_at_first_success
    (neo4j : nat → option (NeoStage * Raised)) (max_retries delay : Z)
    (fails : list (NeoStage * Raised)) (w : Waiting) :
  0 ≤ delay → Z.of_nat (length fails) < max_retries →
  (∀ j x, fails !! j = Some x → neo4j (tried w + j)%nat = Some x) →
  neo4j (tried w + length fails)%nat = None →
  (wait_for_neo4j neo4j max_retries delay w).2 = inr true
  ∧ tried (wait_for_neo4j neo4j max_retries delay w).1
    = S (tried w + length fails)
  ∧ slept (wait_for_neo4j neo4j max_retries delay w).1
    = slept w ++ replicate (length fails) delay
  ∧ printed (wait_for_neo4j neo4j max_retries delay w).1
    = printed w ++ ["Waiting for Neo4j..."]
      ++ (fails.*1 ≫= digits_before)
      ++ ["1"; "2"; "3"; "4"; "Neo4j is ready!"]
  ∧ drivers_open (wait_for_neo4j neo4j max_retries delay w).1
    = (drivers_open w
       + length (filter (λ stage, stage ≠ AtDriver) fails.*1))%nat.
Proof.
  intros Hd Hk Hfail Hok. unfold wait_for_neo4j.
  unfold mbind, Wait_bind, wprint. simpl.
  set (w1 := mkWaiting _ _ _ _).
  rewrite range_elems_count, (seq_split_at (length fails)) by lia.
  rewrite fmap_app, fmap_cons.
  rewrite neo4j_attempts_failed; [|done|lia|done].
  rewrite neo4j_attempts_cons.
  destruct (after_neo_failures_state fails.*1 delay w1)
    as (Ht & Hs & Hp & Ho).
  rewrite length_fmap in Ht, Hs.
  cbn [tried slept printed drivers_open w1] in Ht, Hs, Hp, Ho.
  rewrite Ht, Hok. simpl. rewrite Hs, Hp, Ho.
  by rewrite <- !app_assoc.
Qed.

Lemma wait_for_neo4j_returns_at_first_success_witness :
  (wait_for_neo4j
     (λ n, if decide (n < 1)%nat then Some (AtRun, DriverError "starting")
           else None) 30 2 still).2 = inr true
  ∧ tried (wait_for_neo4j
             (λ n, if decide (n < 1)%nat
                   then Some (AtRun, DriverError "starting") else None)
             30 2 still).1 = 2%nat
  ∧ slept (wait_for_neo4j
             (λ n, if decide (n < 1)%nat
                   then Some (AtRun, DriverError "starting") else None)
             30 2 still).1 = [2]
  ∧ printed (wait_for_neo4j
               (λ n, if decide (n < 1)%nat
                     then Some (AtRun, DriverError "starting") else None)
               30 2 still).1
    = ["Waiting for Neo4j..."; "1"; "2"; "3"; "1"; "2"; "3"; "4";
       "Neo4j is ready!"]
  ∧ drivers_open (wait_for_neo4j
                    (λ n, if decide (n < 1)%nat
                          then Some (AtRun, DriverError "starting") else None)
                    30 2 still).1 = 1%nat.
Proof.
  apply (wait_for_neo4j_returns_at_first_success
           (λ n, if decide (n < 1)%nat
                 then Some (AtRun, DriverError "starting") else None)
           30 2 [(AtRun, DriverError "starting")] still).
  - lia.
  - simpl. lia.
  - intros [|j] x; [by intros [= <-]|done].
  - done.
Defined.

(** X12: when all of [max_retries] attempts (at least one) fail,
    [wait_for_neo4j] raises a plain exception whose text ends with the
    text of the exception of the last attempt; it has tried
    [max_retries] times, slept one time fewer, and left open one driver
    for each attempt that failed after its driver was created. *)
Theorem wait_for_neo4j_gives_up_with_the_last_error
    (neo4j : nat → option (NeoStage * Raised)) (max_retries delay : Z)
    (fails : list (NeoStage * Raised)) (stage : NeoStage) (e : Raised)
    (w : Waiting) :
  0 ≤ delay → Z.of_nat (length fails) + 1 = max_retries →
  (∀ j x, (fails ++ [(stage, e)]) !! j = Some x →
          neo4j (tried w + j)%nat = Some x) →
  (wait_for_neo4j neo4j max_retries delay w).2
  = inl (PlainException ("Neo4j not available after max retries: "
                         +:+ str_raised e))
  ∧ tried (wait_for_neo4j neo4j max_retries delay w).1
    = S (tried w + length fails)
  ∧ slept (wait_for_neo4j neo4j max_retries delay w).1
    = slept w ++ replicate (length fails) delay
  ∧ printed (wait_for_neo4j neo4j max_retries delay w).1
    = printed w ++ ["Waiting for Neo4j..."]
      ++ ((fails.*1 ++ [stage]) ≫= digits_before)
  ∧ drivers_open (wait_for_neo4j neo4j max_retries delay w).1
    = (drivers_open w
       + length (filter (λ stage, stage ≠ AtDriver)
                        (fails.*1 ++ [stage])))%nat.
Proof.
  intros Hd Hn Hfail. unfold wait_for_neo4j.
  unfold mbind, Wait_bind, wprint. simpl.
  set (w1 := mkWaiting _ _ _ _).
  rewrite range_elems_count, (seq_split_at (length fails)) by lia.
  replace (Z.to_nat max_retries - S (length fails))%nat with 0%nat by lia.
  rewrite fmap_app, fmap_cons.
  rewrite neo4j_attempts_failed; [|done|lia|].
  2:{ intros j x Hj. apply Hfail. by apply lookup_app_l_Some. }
  rewrite neo4j_attempts_cons.
  destruct (after_neo_failures_state fails.*1 delay w1)
    as (Ht & Hs & Hp & Ho).
  rewrite length_fmap in Ht, Hs.
  cbn [tried slept printed drivers_open w1] in Ht, Hs, Hp, Ho.
  rewrite Ht, (Hfail (length fails) (stage, e)).
  2:{ by rewrite lookup_app_r, Nat.sub_diag by lia. }
  rewrite decide_False by lia. simpl. rewrite Hs, Hp, Ho.
  rewrite bind_app, filter_app, length_app. simpl.
  rewrite app_nil_r, <- !app_assoc.
  split_and!; try done.
  destruct stage; simpl; rewrite ?filter_cons, ?decide_True, ?decide_False
    by done; simpl; lia.
Qed.

Lemma wait_for_neo4j_gives_up_with_the_last_error_witness :
  (wait_for_neo4j
     (λ n, if decide (n < 1)%nat then Some (AtDriver, DriverError "no route")
           else Some (AtRun, DriverError "starting")) 2 2 still).2
  = inl (PlainException ("Neo4j not available after max retries: "
                         +:+ str_raised (DriverError "starting")))
  ∧ tried (wait_for_neo4j
             (λ n, if decide (n < 1)%nat
                   then Some (AtDriver, DriverError "no route")
                   else Some (AtRun, DriverError "starting")) 2 2 still).1
    = 2%nat
  ∧ slept (wait_for_neo4j
             (λ n, if decide (n < 1)%nat
                   then Some (AtDriver, DriverError "no route")
                   else Some (AtRun, DriverError "starting")) 2 2 still).1
    = [2]
  ∧ printed (wait_for_neo4j
               (λ n, if decide (n < 1)%nat
                     then Some (AtDriver, DriverError "no route")
                     else Some (AtRun, DriverError "starting")) 2 2 still).1
    = ["Waiting for Neo4j..."; "1"; "1"; "2"; "3"]
  ∧ drivers_open (wait_for_neo4j
                    (λ n, if decide (n < 1)%nat
                          then Some (AtDriver, DriverError "no route")
                          else Some (AtRun, DriverError "starting"))
                    2 2 still).1 = 1%nat.
Proof.
  apply (wait_for_neo4j_gives_up_with_the_last_error
           (λ n, if decide (n < 1)%nat
                 then Some (AtDriver, DriverError "no route")
                 else Some (AtRun, DriverError "starting"))
           2 2 [(AtDriver, DriverError "no route")] AtRun
           (DriverError "starting") still).
  - lia.
  - simpl. lia.
  - intros [|[|j]] x; [by intros [= <-]|by intros [= <-]|done].
Defined.

(** * Properties of the loading phase of [etl()] *)

(** One entity set of the run: its header is printed, then its rows are
    loaded until one raises. *)
Lemma block_prints {A} (f : A → Graph → Result Graph) (mk : A → Stmt)
    (rows : list A) (line : string) (k : Py unit) (w : World) :
  (∀ row, run_stmt (mk row) = f row) →
  (print line ;; for_each rows (λ row, run_cypher (f row)) ;; k) w
  = match first_failure (mk <$> rows) (graph w) with
    | Some _ =>
        (mkWorld (exec (mk <$> rows) (graph w)).1 (stdout w ++ [line]),
         inl (match (exec (mk <$> rows) (graph w)).2 with
              | inl e => e
              | inr _ => ClientError
              end))
    | None =>
        k (mkWorld (exec (mk <$> rows) (graph w)).1 (stdout w ++ [line]))
    end.
Proof.
  intros Hmk. rewrite bind_print, (bind_for_each f mk) by done.
  cbn [graph stdout].
  pose proof (first_failure_exec (mk <$> rows) (graph w)) as H.
  destruct (first_failure (mk <$> rows) (graph w)) as [s|].
  - destruct H as [e He].
    destruct (exec (mk <$> rows) (graph w)) as [g1 [e'|[]]]; simpl in *;
      by simplify_eq.
  - by destruct (exec (mk <$> rows) (graph w)) as [g1 [e'|[]]].
Qed.

(** X13: what a run prints tells how far it came.  A run in which no
    statement raises prints the eight lines of the loading phase and then
    [ETL done !]; a run in which one raises stops printing with the
    header of the entity set of the first statement that raised, and
    never prints [ETL done !]. *)
Theorem etl_prints_up_to_the_failing_set (src : Source) (g : Graph) :
  stdout (run_etl src g).1
  = match first_failure (statements src) g with
    | None => loading_lines ++ closing_lines
    | Some s => take (2 + stage s) loading_lines
    end
  ∧ ((run_etl src g).2 = inr () ↔ first_failure (statements src) g = None).
Proof.
  split.
  - unfold run_etl, etl, statements. do 2 rewrite bind_print.
    cbn [graph stdout].
    rewrite (block_prints merge_category LoadCategory) by done.
    rewrite first_failure_app. cbn [graph stdout].
    destruct (first_failure (LoadCategory <$> _) g) as [s|] eqn:H1.
    { by rewrite (first_failure_block LoadCategory _ _ _ 1%nat (λ _, eq_refl) H1). }
    set (g1 := (exec (LoadCategory <$> _) g).1).
    rewrite (block_prints merge_product LoadProduct) by done.
    rewrite first_failure_app. cbn [graph stdout].
    destruct (first_failure (LoadProduct <$> _) g1) as [s|] eqn:H2.
    { by rewrite (first_failure_block LoadProduct _ _ _ 2%nat (λ _, eq_refl) H2). }
    set (g2 := (exec (LoadProduct <$> _) g1).1).
    rewrite (block_prints merge_customer LoadCustomer) by done.
    rewrite first_failure_app. cbn [graph stdout].
    destruct (first_failure (LoadCustomer <$> _) g2) as [s|] eqn:H3.
    { by rewrite (first_failure_block LoadCustomer _ _ _ 3%nat (λ _, eq_refl) H3). }
    set (g3 := (exec (LoadCustomer <$> _) g2).1).
    rewrite (block_prints merge_order LoadOrder) by done.
    rewrite first_failure_app. cbn [graph stdout].
    destruct (first_failure (LoadOrder <$> _) g3) as [s|] eqn:H4.
    { by rewrite (first_failure_block LoadOrder _ _ _ 4%nat (λ _, eq_refl) H4). }
    set (g4 := (exec (LoadOrder <$> _) g3).1).
    rewrite (block_prints merge_order_item LoadOrderItem) by done.
    rewrite first_failure_app. cbn [graph stdout].
    destruct (first_failure (LoadOrderItem <$> _) g4) as [s|] eqn:H5.
    { by rewrite (first_failure_block LoadOrderItem _ _ _ 5%nat (λ _, eq_refl) H5). }
    set (g5 := (exec (LoadOrderItem <$> _) g4).1).
    rewrite (block_prints merge_event LoadEvent) by done.
    cbn [graph stdout].
    destruct (first_failure (LoadEvent <$> _) g5) as [s|] eqn:H6.
    { by rewrite (first_failure_block LoadEvent _ _ _ 6%nat (λ _, eq_refl) H6). }
    done.
  - rewrite run_etl_outcome.
    pose proof (first_failure_exec (statements src) g) as H.
    destruct (first_failure (statements src) g) as [s|].
    + destruct H as [e ->]. done.
    + by rewrite H.
Qed.

(** X14: for a source whose event types are plain names, so that every
    statement sent is the one written in [etl.py] and none is refused
    for its text, a run only appends to the store and only writes on the
    nodes its rows name.  Whether it succeeds or stops at a row, every
    node and relationship that was in the store is still at its place,
    with its label and [id], its end nodes and its type; and a node whose
    label and [id] no row of the source merges keeps all its
    properties. *)
Theorem etl_only_appends_and_writes_named_nodes (src : Source) (g : Graph) :
  plain_event_types src → wf_graph g →
  (run_etl src g).2 ≠ inl CypherSyntaxError
  ∧ (∃ new, keys (graph (run_etl src g).1) = keys g ++ new)
  ∧ (∃ new, rel_key <$> rels (graph (run_etl src g).1)
            = (rel_key <$> rels g) ++ new)
  ∧ (∀ i n, nodes g !! i = Some n →
            (∀ s, s ∈ statements src → merged_key s ≠ Some (node_key n)) →
            nodes (graph (run_etl src g).1) !! i = Some n).
Proof.
  intros Hplain Hg. split.
  { rewrite run_etl_outcome. by apply exec_text_accepted, statements_plain. }
  rewrite run_etl_graph, exec_ops by done. simpl.
  split_and!.
  - apply keys_apply_ops, ops_of_ok.
  - apply rel_keys_apply_ops, ops_of_ok.
  - intros i n Hi Hne. apply node_untouched_ops; [done|].
    intros x l k f Hx Hn Hkey.
    apply elem_of_ops_of in Hx as (s & h & Hs & Hop).
    apply (Hne s Hs). rewrite (merged_key_op h s x Hop), Hn. simpl.
    by rewrite Hkey.
Qed.

Lemma etl_only_appends_and_writes_named_nodes_witness :
  (run_etl good_ts_source small_graph).2 ≠ inl CypherSyntaxError
  ∧ (∃ new, keys (graph (run_etl good_ts_source small_graph).1)
            = keys small_graph ++ new)
  ∧ (∃ new, rel_key <$> rels (graph (run_etl good_ts_source small_graph).1)
            = (rel_key <$> rels small_graph) ++ new)
  ∧ (∀ i n, nodes small_graph !! i = Some n →
            (∀ s, s ∈ statements good_ts_source →
                  merged_key s ≠ Some (node_key n)) →
            nodes (graph (run_etl good_ts_source small_graph).1) !! i
            = Some n).
Proof.
  apply (etl_only_appends_and_writes_named_nodes good_ts_source small_graph).
  - apply (bool_decide_unpack _). by vm_compute.
  - split.
    + apply (bool_decide_unpack _). by vm_compute.
    + unfold ends_valid. apply (bool_decide_unpack _). by vm_compute.
Defined.

(** X15: for a source whose event types are plain names, so that every
    statement sent is the one written in [etl.py] and none is refused
    for its text, the loader leaves no product without a price.  On a
    store whose nodes are distinct and whose products are priced, as the
    empty store is, every product node has a price after the run,
    however the run ends, and the nodes are still distinct. *)
Theorem etl_leaves_every_product_priced (src : Source) (g : Graph) :
  plain_event_types src → wf_graph g → priced g →
  (run_etl src g).2 ≠ inl CypherSyntaxError
  ∧ priced (graph (run_etl src g).1)
  ∧ unique_ids (graph (run_etl src g).1).
Proof.
  intros Hplain Hg Hp. split.
  { rewrite run_etl_outcome. by apply exec_text_accepted, statements_plain. }
  rewrite run_etl_graph, exec_ops by done. simpl. split.
  - apply priced_apply_ops; [apply ops_of_ok|apply ops_of_keep_price|done].
  - apply wf_graph_apply_ops; [apply ops_of_ok|done].
Qed.

Lemma etl_leaves_every_product_priced_witness :
  (run_etl orphan_source empty_graph).2 ≠ inl CypherSyntaxError
  ∧ priced (graph (run_etl orphan_source empty_graph).1)
  ∧ unique_ids (graph (run_etl orphan_source empty_graph).1).
Proof.
  apply (etl_leaves_every_product_priced orphan_source empty_graph).
  - constructor.
  - split; constructor.
  - constructor.
Defined.

(** * Properties of [get_stats] *)

(** X16: after a load of the empty store that succeeds, [get_stats]
    counts the identifiers of the source, not its rows: each of its four
    numbers is the number of distinct [id] values of the frame of that
    entity, so rows that repeat an identifier count once. *)
Theorem stats_count_the_distinct_ids (src : Source) :
  (run_etl src empty_graph).2 = inr () →
  get_stats (graph (run_etl src empty_graph).1)
  = mkStats
      (Z.of_nat (length (distinct (omap cust_id (customers_df src)))))
      (Z.of_nat (length (distinct (omap prod_id (products_df src)))))
      (Z.of_nat (length (distinct (omap ord_id (orders_df src)))))
      (Z.of_nat (length (distinct (omap cat_id (categories_df src))))).
Proof.
  intros Hrun. rewrite run_etl_outcome in Hrun. rewrite run_etl_graph.
  destruct (exec (statements src) empty_graph) as [G r] eqn:Hexec.
  simpl in *. subst r.
  assert (wf_graph empty_graph) as Hg by (split; constructor).
  assert (unique_ids G) as Hu.
  { pose proof (exec_ops (statements src) empty_graph Hg) as Hops.
    rewrite Hexec in Hops. injection Hops as -> _.
    apply wf_graph_apply_ops; [apply ops_of_ok|done]. }
  assert (∀ l k, (l, k) ∈ keys G ↔
                 k ∈ match l with
                     | Category => omap cat_id (categories_df src)
                     | Product => omap prod_id (products_df src)
                     | Customer => omap cust_id (customers_df src)
                     | Order => omap ord_id (orders_df src)
                     end) as Hkeys.
  { intros l k. rewrite (keys_after_run src empty_graph G l k Hg Hexec).
    split; [|by right]. by intros [?%elem_of_nil|?]. }
  unfold get_stats.
  by rewrite (count_nodes_ids G Customer _ Hu (Hkeys Customer)),
    (count_nodes_ids G Product _ Hu (Hkeys Product)),
    (count_nodes_ids G Order _ Hu (Hkeys Order)),
    (count_nodes_ids G Category _ Hu (Hkeys Category)).
Qed.

Lemma stats_count_the_distinct_ids_witness :
  get_stats (graph (run_etl orphan_source empty_graph).1)
  = mkStats
      (Z.of_nat (length (distinct (omap cust_id (customers_df orphan_source)))))
      (Z.of_nat (length (distinct (omap prod_id (products_df orphan_source)))))
      (Z.of_nat (length (distinct (omap ord_id (orders_df orphan_source)))))
      (Z.of_nat (length (distinct (omap cat_id (categories_df orphan_source))))).
Proof. apply (stats_count_the_distinct_ids orphan_source). by vm_compute. Defined.

(** * Properties of [customer_orders] *)

Section orders_1.
Context {db : OrderBy}.

Lemma customer_orders_inv g id infos :
  customer_orders g id = inr infos →
  ∃ orders,
    add_records g [] (customer_orders_query g (KStr id)) = inr orders
    ∧ infos = snd <$> orders.
Proof.
  unfold customer_orders.
  destruct (add_records g [] _) as [e|orders]; [done|].
  cbv [mbind Result_bind mret Result_ret]. intros [= <-]. eauto.
Qed.

(** X17: [customer_orders] groups the records of the query by order:
    the dictionaries it returns have pairwise distinct [order_id]s, in
    the order in which the query first meets each of them; the [items] of
    a dictionary are the lines of exactly the records of that order, in
    the order of the query, and no dictionary has an empty [items]. *)
Theorem customer_orders_groups_lines_by_order
    (g : Graph) (id : string) (infos : list OrderInfo) :
  customer_orders g id = inr infos →
  order_id <$> infos
  = distinct (record_order_id g <$> customer_orders_query g (KStr id))
  ∧ NoDup (order_id <$> infos)
  ∧ Forall (λ info,
       items info ≠ []
       ∧ mapM (order_line g)
              (filter (λ row, record_order_id g row = order_id info)
                      (customer_orders_query g (KStr id)))
         = inr (items info)) infos.
Proof.
  intros (orders & Horders & ->)%customer_orders_inv.
  destruct (add_records_entries g _ orders Horders) as [Hkeys Hentries].
  assert (order_id <$> (snd <$> orders) = orders.*1) as Hids.
  { rewrite <- list_fmap_compose. apply list_fmap_ext. intros i kv Hkv. simpl.
    apply list_elem_of_lookup_2 in Hkv.
    by destruct (proj1 (Forall_forall _ _) Hentries kv Hkv) as [-> _]. }
  rewrite Hids, Hkeys. split_and!; [done|apply NoDup_distinct|].
  apply Forall_fmap. eapply Forall_impl; [exact Hentries|].
  intros [k info] (Hid & Hitems & row & Hrow & _). simpl in *. subst k.
  split; [|done]. intros Hnil. rewrite Hnil in Hitems.
  destruct (filter _ _) as [|r rs]; [done|].
  rewrite mapM_Result_cons in Hitems.
  destruct (order_line g r); [done|]. simpl in Hitems.
  by destruct (mapM (order_line g) rs).
Qed.

End orders_1.

Section orders_1_run.
#[local] Existing Instance insertion_order.

Lemma customer_orders_groups_lines_by_order_witness :
  ∃ infos,
    customer_orders history_graph "C1" = inr infos
    ∧ order_id <$> infos
      = distinct (record_order_id history_graph
                    <$> customer_orders_query history_graph (KStr "C1"))
    ∧ NoDup (order_id <$> infos)
    ∧ Forall (λ info,
         items info ≠ []
         ∧ mapM (order_line history_graph)
                (filter (λ row, record_order_id history_graph row
                                = order_id info)
                        (customer_orders_query history_graph (KStr "C1")))
           = inr (items info)) infos.
Proof.
  eexists. split; [by vm_compute|].
  apply (customer_orders_groups_lines_by_order history_graph "C1").
  by vm_compute.
Defined.

End orders_1_run.

Section orders_2.
Context {db : OrderBy}.

(** X18: what [customer_orders] does when there is nothing to list or a
    price is missing.  An identifier that matches no customer gives an
    empty list.  When the product of some record of the query has no
    price, [float(None)] raises [TypeError] and no order is returned;
    when every product of the records has one, the endpoint returns. *)
Theorem customer_orders_raises_only_on_a_missing_price
    (g : Graph) (id : string) :
  (match_node Customer (KStr id) g = [] → customer_orders g id = inr [])
  ∧ (Exists (λ row, nprice (node g row.2) = None)
            (customer_orders_query g (KStr id)) →
     customer_orders g id = inl TypeError)
  ∧ (Forall (λ row, is_Some (nprice (node g row.2)))
            (customer_orders_query g (KStr id)) →
     ∃ infos, customer_orders g id = inr infos).
Proof.
  split_and!.
  - intros Hnone. unfold customer_orders, customer_orders_query.
    rewrite Hnone. simpl. by rewrite order_by_nil.
  - intros Hex. unfold customer_orders.
    by rewrite add_records_unpriced.
  - intros Hall. unfold customer_orders.
    destruct (add_records_priced g [] _ Hall) as [orders ->]. simpl. eauto.
Qed.

(** X19: [customer_orders] lists the latest order first: the dates of
    the dictionaries it returns are in descending order, an order
    without date before all the others. *)
Theorem customer_orders_lists_latest_first
    (g : Graph) (id : string) (infos : list OrderInfo) :
  customer_orders g id = inr infos →
  StronglySorted (λ a b, ts_after (order_date a) (order_date b) = true)
                 infos.
Proof.
  intros (orders & Horders & ->)%customer_orders_inv.
  pose proof (add_records_sorted g _ orders
                (customer_orders_query_sorted g (KStr id)) Horders) as Hs.
  clear Horders. induction Hs as [|kv orders Hs IH Hkv]; [constructor|].
  rewrite fmap_cons. constructor; [exact IH|by apply Forall_fmap].
Qed.

End orders_2.

Section orders_2_run.
#[local] Existing Instance insertion_order.

Lemma customer_orders_lists_latest_first_witness :
  ∃ infos,
    customer_orders history_graph "C1" = inr infos
    ∧ StronglySorted (λ a b, ts_after (order_date a) (order_date b) = true)
                     infos.
Proof.
  eexists. split; [by vm_compute|].
  apply (customer_orders_lists_latest_first history_graph "C1").
  by vm_compute.
Defined.

End orders_2_run.

(** * Properties of the read endpoints *)

Section endpoints_1.
Context {db : OrderBy}.

(** X20: [list_products] has exactly one row for each [IN_CATEGORY]
    relationship from a product node to a category node: the pair of a
    product and a category comes as many times as there are such
    relationships between them, so that a product in two categories is
    listed twice and one in none is not listed.  The rows are in
    ascending order of the product name, products without name last.
    The endpoint raises [TypeError] when one of these products has no
    price, and returns one dictionary per row, in the order of the rows,
    when every product has one. *)
Theorem list_products_lists_category_links_by_name (g : Graph) :
  (∀ p c,
     length (filter (λ row, row = (p, c)) (list_products_query g))
     = length (filter (λ x, rsrc x = p ∧ rtype x = "IN_CATEGORY"
                            ∧ rdst x = c
                            ∧ has_label g Product p = true
                            ∧ has_label g Category c = true) (rels g)))
  ∧ StronglySorted
      (λ x y, name_before (nname (node g x.1)) (nname (node g y.1)) = true)
      (list_products_query g)
  ∧ (Exists (λ row, nprice (node g row.1) = None) (list_products_query g) →
     list_products g = inl TypeError)
  ∧ (priced g →
     ∃ items, list_products g = inr items
              ∧ Forall2 (λ row info,
                           product_id info = nid (node g row.1)
                           ∧ product_name info = nname (node g row.1)
                           ∧ category info = nname (node g row.2))
                        (list_products_query g) items).
Proof.
  split_and!.
  - apply list_products_query_count.
  - apply list_products_query_sorted.
  - apply infos_unpriced.
  - intros Hp. apply infos_ok. apply Forall_forall. intros [p c] Hin.
    apply elem_of_list_products_query in Hin as [Hl _].
    by apply priced_is_Some.
Qed.

(** X21: when the identifier names the customer node [c],
    [content_based] returns at most [limit] rows, no row twice; every
    row is a product that [c] has not purchased, with a category of its
    own that is also the category of a product [c] purchased.  On a store
    whose products are priced the endpoint returns one dictionary per
    row. *)
Theorem content_based_recommends_unbought_products_of_liked_categories
    (g : Graph) (customer_id : string) (c : nat) (limit : Z) :
  match_node Customer (KStr customer_id) g = [c] → 0 ≤ limit →
  ∃ rows,
    content_based_query g (KStr customer_id) limit = inr rows
    ∧ Z.of_nat (length rows) ≤ limit
    ∧ NoDup rows
    ∧ Forall (λ row,
         has_label g Product row.1 = true
         ∧ (row.1 ∉ purchases g c)
         ∧ (∃ r, (r, row.2) ∈ expand_out g "IN_CATEGORY" Category row.1)
         ∧ ∃ p r, p ∈ purchases g c
                  ∧ (r, row.2) ∈ expand_out g "IN_CATEGORY" Category p) rows
    ∧ (priced g →
       ∃ items, content_based g customer_id limit = inr items
                ∧ Forall2 (λ row info,
                             product_id info = nid (node g row.1)
                             ∧ product_name info = nname (node g row.1)
                             ∧ category info = nname (node g row.2))
                          rows items).
Proof.
  intros Hc Hlimit. eexists. split; [by apply content_based_query_single|].
  set (ranked := order_by_desc snd
                   (aggregate id (λ rows, Z.of_nat (length rows))
                              (content_matches g c))).
  assert (∀ row, row ∈ (take (Z.to_nat limit) ranked).*1 →
                 row ∈ content_matches g c) as Hin.
  { intros row ([row' n] & -> & Hrow)%list_elem_of_fmap. simpl.
    apply elem_of_take in Hrow as (i & Hrow & _).
    apply list_elem_of_lookup_2, elem_of_order_by_desc in Hrow.
    apply elem_of_aggregate in Hrow as [Hrow _].
    by rewrite list_fmap_id in Hrow. }
  assert (Forall (λ row : nat * nat,
            has_label g Product row.1 = true
            ∧ (row.1 ∉ purchases g c)
            ∧ (∃ r, (r, row.2) ∈ expand_out g "IN_CATEGORY" Category row.1)
            ∧ ∃ p r, p ∈ purchases g c
                     ∧ (r, row.2) ∈ expand_out g "IN_CATEGORY" Category p)
            (take (Z.to_nat limit) ranked).*1) as Hrows.
  { apply Forall_forall. intros [rec cat] Hrow%Hin.
    apply elem_of_content_matches in Hrow as (? & ? & Hl & ?).
    apply elem_of_liked_categories in Hl. done. }
  split_and!.
  - rewrite length_fmap, length_take. lia.
  - rewrite fmap_take.
    eapply sublist_NoDup; [|apply sublist_take].
    unfold ranked. rewrite order_by_desc_Permutation.
    apply NoDup_aggregate_keys.
  - exact Hrows.
  - intros Hp. unfold content_based.
    rewrite (content_based_query_single g (KStr customer_id) c limit Hc Hlimit).
    fold ranked. simpl. apply infos_ok.
    eapply Forall_impl; [exact Hrows|]. intros row [Hl _].
    by apply priced_is_Some.
Qed.

End endpoints_1.

Section endpoints_1_run.
#[local] Existing Instance insertion_order.

Lemma content_based_recommends_unbought_products_of_liked_categories_witness :
  ∃ rows,
    content_based_query history_graph (KStr "C2") 5 = inr rows
    ∧ Z.of_nat (length rows) ≤ 5
    ∧ NoDup rows
    ∧ Forall (λ row,
         has_label history_graph Product row.1 = true
         ∧ (row.1 ∉ purchases history_graph 4)
         ∧ (∃ r, (r, row.2)
                 ∈ expand_out history_graph "IN_CATEGORY" Category row.1)
         ∧ ∃ p r, p ∈ purchases history_graph 4
                  ∧ (r, row.2)
                    ∈ expand_out history_graph "IN_CATEGORY" Category p) rows
    ∧ (priced history_graph →
       ∃ items, content_based history_graph "C2" 5 = inr items
                ∧ Forall2 (λ row info,
                     product_id info = nid (node history_graph row.1)
                     ∧ product_name info = nname (node history_graph row.1)
                     ∧ category info = nname (node history_graph row.2))
                          rows items).
Proof.
  apply (content_based_recommends_unbought_products_of_liked_categories
           history_graph "C2" 4 5).
  - by vm_compute.
  - lia.
Defined.

End endpoints_1_run.

Section endpoints_2.
Context {db : OrderBy}.

(** X22: on a store without repeated relationships the ranking of
    [content_based] ranks nothing: [count( * )] is 1 for every candidate,
    so that every order of the candidates is in descending order of
    relevance, and [ORDER BY relevance DESC LIMIT] is free to return any
    [limit] of them.  What the endpoint's query returns is [limit]
    distinct candidates, or all of them when they are fewer. *)
Theorem content_based_relevance_is_always_one
    (g : Graph) (customer_id : string) (c : nat) (limit : Z) :
  unique_rels g → match_node Customer (KStr customer_id) g = [c] →
  0 ≤ limit →
  Forall (λ x, x.2 = 1)
         (aggregate id (λ rows, Z.of_nat (length rows)) (content_matches g c))
  ∧ (∀ ranked,
       ranked ≡ₚ aggregate id (λ rows, Z.of_nat (length rows))
                           (content_matches g c) →
       StronglySorted (λ x y, y.2 ≤ x.2) ranked)
  ∧ ∃ rows,
      content_based_query g (KStr customer_id) limit = inr rows
      ∧ NoDup rows
      ∧ rows ⊆ content_matches g c
      ∧ length rows
        = (Z.to_nat limit `min` length (content_matches g c))%nat.
Proof.
  intros Hu Hc Hlimit.
  pose proof (NoDup_content_matches g c Hu) as Hnd.
  assert (Forall (λ x : nat * nat * Z, x.2 = 1)
            (aggregate id (λ rows, Z.of_nat (length rows))
                       (content_matches g c))) as Hone.
  { rewrite (aggregate_id_NoDup (content_matches g c)) by done.
    apply Forall_fmap, Forall_true. done. }
  split_and!; [done| |].
  - intros ranked Hperm. apply (Forall_const_sorted snd 1).
    by rewrite Hperm.
  - set (agg := aggregate id (λ rows, Z.of_nat (length rows))
                          (content_matches g c)).
    set (ranked := order_by_desc snd agg).
    assert (ranked.*1 ≡ₚ content_matches g c) as Hperm.
    { unfold ranked. rewrite (order_by_desc_Permutation snd). unfold agg.
      rewrite (aggregate_id_NoDup (content_matches g c)) by done.
      rewrite <- list_fmap_compose.
      assert ((fst ∘ (λ x : nat * nat, (x, 1))) <$> content_matches g c
              = content_matches g c) as ->; [|done].
      transitivity (id <$> content_matches g c);
        [by apply list_fmap_ext|apply list_fmap_id]. }
    exists (take (Z.to_nat limit) ranked.*1). split_and!.
    + rewrite (content_based_query_single g (KStr customer_id) c limit Hc
                 Hlimit).
      fold agg ranked. by rewrite fmap_take.
    + apply NoDup_take. by rewrite Hperm.
    + intros x Hx. apply elem_of_take in Hx as (i & Hi & _).
      apply list_elem_of_lookup_2 in Hi. by rewrite <- Hperm.
    + rewrite length_take. by rewrite Hperm.
Qed.

End endpoints_2.

Section endpoints_2_run.
#[local] Existing Instance insertion_order.

Lemma content_based_relevance_is_always_one_witness :
  Forall (λ x, x.2 = 1)
         (aggregate id (λ rows, Z.of_nat (length rows))
                    (content_matches history_graph 4))
  ∧ (∀ ranked,
       ranked ≡ₚ aggregate id (λ rows, Z.of_nat (length rows))
                           (content_matches history_graph 4) →
       StronglySorted (λ x y, y.2 ≤ x.2) ranked)
  ∧ ∃ rows,
      content_based_query history_graph (KStr "C2") 5 = inr rows
      ∧ NoDup rows
      ∧ rows ⊆ content_matches history_graph 4
      ∧ length rows
        = (Z.to_nat 5 `min` length (content_matches history_graph 4))%nat.
Proof.
  apply (content_based_relevance_is_always_one history_graph "C2" 4 5).
  - apply (bool_decide_unpack _). by vm_compute.
  - by vm_compute.
  - lia.
Defined.

End endpoints_2_run.

Section endpoints_3.
Context {db : OrderBy}.

(** X23: on a store where no product has more than one category, the
    three ranked endpoints return at most [limit] recommendations: the
    category is joined after [LIMIT], one row for each category of a
    product, so only a product with several categories could bring more
    rows than [limit]. *)
Theorem ranked_endpoints_return_at_most_limit (g : Graph) (limit : Z) :
  single_category g →
  (∀ items, popular_products g limit = inr items →
            Z.of_nat (length items) ≤ limit)
  ∧ (∀ customer items,
       collaborative_filtering g customer limit = inr items →
       Z.of_nat (length items) ≤ limit)
  ∧ (∀ product items,
       frequently_bought_together g product limit = inr items →
       Z.of_nat (length items) ≤ limit).
Proof.
  intros Hone. split_and!.
  - intros items. unfold popular_products, popular_query.
    destruct (cy_limit limit (popular_ranked g)) as [e|top] eqn:Htop;
      [done|].
    cbv [mbind Result_bind mret Result_ret]. intros Hitems.
    by eapply (limited_length g fst (scored g)).
  - intros customer items.
    unfold collaborative_filtering, collaborative_query.
    destruct (cy_limit limit (collaborative_ranked g (KStr customer)))
      as [e|top] eqn:Htop; [done|].
    cbv [mbind Result_bind mret Result_ret]. intros Hitems.
    by eapply (limited_length g fst (scored g)).
  - intros product items.
    unfold frequently_bought_together, together_query.
    destruct (cy_limit limit (together_ranked g (KStr product)))
      as [e|top] eqn:Htop; [done|].
    cbv [mbind Result_bind mret Result_ret]. intros Hitems.
    by eapply (limited_length g fst (scored g)).
Qed.

End endpoints_3.

Section endpoints_3_run.
#[local] Existing Instance insertion_order.

Lemma ranked_endpoints_return_at_most_limit_witness :
  (∀ items, popular_products history_graph 1 = inr items →
            Z.of_nat (length items) ≤ 1)
  ∧ (∀ customer items,
       collaborative_filtering history_graph customer 1 = inr items →
       Z.of_nat (length items) ≤ 1)
  ∧ (∀ product items,
       frequently_bought_together history_graph product 1 = inr items →
       Z.of_nat (length items) ≤ 1).
Proof.
  apply (ranked_endpoints_return_at_most_limit history_graph 1).
  apply single_category_sources.
  apply (bool_decide_unpack _). by vm_compute.
Defined.

End endpoints_3_run.

Section endpoints_4.
Context {db : OrderBy}.

(** X24: the service never has more than one driver.  Over any sequence
    of requests and shutdowns at most one driver is created; a driver
    that is in the global stays there, also after a shutdown, which
    closes it without clearing the global; and nothing is ever closed
    but the driver of the global. *)
Theorem service_keeps_a_single_driver (sv : Service) (evs : list Event) :
  (drivers_made (foldl service_step sv evs) ≤ S (drivers_made sv))%nat
  ∧ (∀ d, neo4j_driver sv = Some d →
          neo4j_driver (foldl service_step sv evs) = Some d
          ∧ drivers_made (foldl service_step sv evs) = drivers_made sv)
  ∧ (neo4j_driver sv = None → TakesDriver ∈ evs →
     neo4j_driver (foldl service_step sv evs) = Some (drivers_made sv))
  ∧ ∃ closed,
      drivers_closed (foldl service_step sv evs)
      = drivers_closed sv ++ closed
      ∧ Forall (λ d, neo4j_driver (foldl service_step sv evs) = Some d)
               closed.
Proof.
  assert (∀ evs sv d, neo4j_driver sv = Some d →
            neo4j_driver (foldl service_step sv evs) = Some d
            ∧ drivers_made (foldl service_step sv evs) = drivers_made sv
            ∧ ∃ closed,
                drivers_closed (foldl service_step sv evs)
                = drivers_closed sv ++ closed
                ∧ Forall (λ d', d' = d) closed) as Hsome.
  { clear. intros evs. induction evs as [|ev evs IH]; intros sv d Hd; simpl.
    - split_and!; [done..|]. exists []. by rewrite app_nil_r.
    - destruct ev; simpl.
      + unfold get_neo4j_driver. rewrite Hd. simpl. by apply IH.
      + unfold shutdown_event. rewrite Hd.
        destruct (IH (mkService (Some d) (drivers_made sv)
                        (drivers_closed sv ++ [d])) d eq_refl)
          as (H1 & H2 & closed & H3 & H4).
        split_and!; [done..|]. exists (d :: closed). simpl in H3.
        rewrite H3, <- app_assoc. split; [done|]. by constructor. }
  revert sv. induction evs as [|ev evs IH]; intros sv.
  - simpl. split_and!; [lia|done|by intros _ ?%elem_of_nil|].
    exists []. by rewrite app_nil_r.
  - destruct (neo4j_driver sv) as [d|] eqn:Hd.
    + destruct (Hsome (ev :: evs) sv d Hd) as (H1 & H2 & closed & H3 & H4).
      split_and!; [lia|by intros ? [= <-]|done|].
      exists closed. split; [done|].
      eapply Forall_impl; [exact H4|]. intros d' ->. done.
    + destruct ev; simpl.
      * unfold get_neo4j_driver. rewrite Hd. simpl.
        destruct (Hsome evs (mkService (Some (drivers_made sv))
                               (S (drivers_made sv)) (drivers_closed sv))
                    (drivers_made sv) eq_refl)
          as (H1 & H2 & closed & H3 & H4). simpl in *.
        split_and!; [lia|done|done|].
        exists closed. split; [done|].
        eapply Forall_impl; [exact H4|]. intros d' ->. done.
      * unfold shutdown_event. rewrite Hd.
        destruct (IH sv) as (H1 & H2 & H3 & H4).
        split_and!; [done|done| |done].
        intros _ [?|?]%elem_of_cons; [done|]. by apply H3.
Qed.

End endpoints_4.
